(** * Ginkgo multigrid solver and CUDA executor: a shallow embedding

    The development follows [core/solver/multigrid.cpp] (the hierarchy
    builder [Multigrid::generate] with its helper [handle_list], the
    recursive cycle engine [MultigridState::run_cycle] and the two
    [Multigrid::apply_impl] overloads, the constructor of
    [MultigridState]), [cuda/base/executor.cpp] (the [raw_copy_to]
    overloads of [CudaExecutor], [OmpExecutor::raw_copy_to] and
    [CudaExecutor::synchronize]),
    [common/cuda_hip/stop/batch_criteria.hpp] (the two batch stopping
    criteria) and [common/unified/multigrid/fixed_coarsening_kernels.cpp]
    (the kernels [fill_restrict_op] and [fill_coarse_indices]).

    Numerical kernels, dense vectors, linear operators, factories and the
    stopping criterion are collaborators whose code lives elsewhere; they
    are gathered in the class [Backend] and every statement is proved for
    an arbitrary backend.  Control flow, the per-level scratch lists, the
    pointer arguments of the recursion and every exception the listed
    functions raise themselves are modelled explicitly.  A call into a
    collaborator is taken to return: an exception raised inside a
    factory's [generate], an operator's [apply] or the criterion's [check],
    and a null entry in the list of coarsening factories, are outside the
    model, and the statements about failures are about the checks of the
    listed functions.

    Integers: [size_type] values (levels, indices, row counts) are
    modelled by [nat].  The only arithmetic the embedded code performs on
    them is [level + 1] and [level++] below a vector size or below
    [max_levels], [/] and [%]; none of these can wrap around. *)

From Stdlib Require Import ZArith List Bool Lia.
From Stdlib Require Import Floats.SpecFloat.
From stdpp Require Import base list option.

Set Default Proof Using "Type".

(** ** Exceptions and the error monad *)

Inductive exn : Type :=
| OutOfBoundsError (index bound : nat)   (* GKO_ENSURE_IN_BOUNDS *)
| OutOfRange                             (* std::out_of_range of vector::at *)
| ValueMismatch                          (* GKO_ASSERT_EQ *)
| NullDereference                        (* call through a null shared_ptr *)
| DivisionByZero                         (* size_type / 0 or % 0 *)
| OutOfFuel.                             (* artefact of the bounded model *)

Inductive outcome (A : Type) : Type :=
| Ok (a : A)
| Throw (e : exn).
Arguments Ok {A} a.
Arguments Throw {A} e.

#[global] Instance outcome_ret : MRet outcome := λ A a, Ok a.
#[global] Instance outcome_bind : MBind outcome := λ A B k m,
  match m with
  | Ok a => k a
  | Throw e => Throw e
  end.

(** [std::vector::at]: bounds-checked element access. *)
Definition at_ {A} (l : list A) (i : nat) : outcome A :=
  match l !! i with
  | Some a => Ok a
  | None => Throw OutOfRange
  end.

(** Modelled from the spec: the macro [GKO_ENSURE_IN_BOUNDS] is declared in
    [ginkgo/core/base/exception_helpers.hpp], a header outside the embedded
    files; an index that is not below the bound is a fatal configuration
    error raised to the caller. *)
Definition GKO_ENSURE_IN_BOUNDS (index bound : nat) : outcome unit :=
  if index <? bound then Ok () else Throw (OutOfBoundsError index bound).

(** Modelled from the spec: the macro [GKO_ASSERT_EQ] belongs to the same
    header; two different values are a fatal error. *)
Definition GKO_ASSERT_EQ (val1 val2 : bool) : outcome unit :=
  if Bool.eqb val1 val2 then Ok () else Throw ValueMismatch.

(** ** Floating point values

    [remove_complex<ValueType>] is an IEEE 754 binary format; its values
    are those of [spec_float], with the comparisons [SFltb] and [SFleb]
    (both false as soon as one operand is NaN). *)

Definition std_isnan (f : spec_float) : bool :=
  match f with
  | S754_nan => true
  | _ => false
  end.

Definition fp_zero : spec_float := S754_zero false.

(** [matrix::Dense<remove_complex<ValueType>>] of size 1 x nrhs. *)
Definition norm_vec : Type := list spec_float.

(** ** Collaborators *)

Module multigrid_cycle.
Inductive t : Type := v | f | w | kfcg | kgcr.

Definition eqb (a b : t) : bool :=
  match a, b with
  | v, v | f, f | w, w | kfcg, kfcg | kgcr, kgcr => true
  | _, _ => false
  end.
End multigrid_cycle.

Module multigrid_mid_uses.
Inductive t : Type := pre | mid | post.
End multigrid_mid_uses.

Class Backend : Type := {
  ValueType : Type;
  (** [matrix::Dense<ValueType>] *)
  Dense : Type;
  LinOp : Type;
  LinOpFactory : Type;
  RestrictProlong : Type;
  RestrictProlongFactory : Type;
  stopping_status : Type;
  Criterion : Type;
  CriterionFactory : Type;
  (** precision and exponent bound of [remove_complex<ValueType>]
      (24 and 128 for [float], 53 and 1024 for [double]) *)
  fp_prec : Z;
  fp_emax : Z;

  (** [op->get_size()[0]] *)
  get_size0 : LinOp → nat;
  (** [b->get_size()[1]] *)
  get_num_cols : Dense → nat;
  (** [factory->generate(matrix)], for a factory that is not null and a
      call that returns *)
  lf_generate : LinOpFactory → LinOp → LinOp;
  rp_generate : RestrictProlongFactory → LinOp → RestrictProlong;
  get_coarse_operator : RestrictProlong → LinOp;
  (** [matrix::Identity<ValueType>::create(exec, n)] *)
  identity_create : nat → LinOp;
  (** the 1 x 1 dense view on one entry of a relaxation array *)
  dense_view : ValueType → Dense;

  (** [op->apply(b, x)]: the new contents of [x] *)
  lin_apply : LinOp → Dense → Dense → Dense;
  (** [op->apply(alpha, b, beta, x)]: the new contents of [x] *)
  lin_apply4 : LinOp → Dense → Dense → Dense → Dense → Dense;
  (** [rp->restrict_apply(r, g)]: the new contents of [g] *)
  restrict_apply : RestrictProlong → Dense → Dense → Dense;
  (** [rp->prolong_applyadd(e, x)]: the new contents of [x] *)
  prolong_applyadd : RestrictProlong → Dense → Dense → Dense;
  (** [t->compute_dot(u, result)]: the new contents of [result] *)
  compute_dot : Dense → Dense → Dense;
  (** [g->compute_norm2(result)]: the new contents of [result] *)
  compute_norm2 : Dense → norm_vec;
  (** [x->scale(beta)] and [x->add_scaled(alpha, y)] *)
  dense_scale : Dense → Dense → Dense;
  dense_add_scaled : Dense → Dense → Dense → Dense;
  (** [vec::create(exec, dim<2>{rows, cols})]: fresh storage *)
  vec_create : nat → nat → Dense;
  norm_vec_create : nat → nat → norm_vec;
  (** kernel [components::fill_array] with [zero<ValueType>()] *)
  fill_array_zero : Dense → Dense;
  (** kernel [multigrid::kcycle_step_1 (alpha, rho, v, g, d, e)]:
      the new contents of [g], [d] and [e] *)
  kcycle_step_1 : Dense → Dense → Dense → Dense → Dense → Dense →
                  Dense * Dense * Dense;
  (** kernel [multigrid::kcycle_step_2 (alpha, rho, gamma, beta, zeta, d, e)]:
      the new contents of [e] *)
  kcycle_step_2 : Dense → Dense → Dense → Dense → Dense → Dense → Dense →
                  Dense;

  (** [Array<stopping_status>(exec, n)] and kernel [ir::initialize] *)
  status_create : nat → list stopping_status;
  ir_initialize : list stopping_status → list stopping_status;
  (** [factory->generate(system_matrix, b, x, r)] *)
  criterion_generate : CriterionFactory → LinOp → Dense → Dense → Dense →
                       Criterion;
  (** [criterion->update().num_iterations(iter).residual(r).solution(x)
        .check(id, set_finalized, &stop_status, &one_changed)], for a
      call that returns: the returned flag together with the new status
      array, the new [one_changed] and the criterion's own new state *)
  criterion_check : Criterion → Z → Dense → Dense → nat → bool →
                    list stopping_status → bool →
                    bool * list stopping_status * bool * Criterion
}.

(** ** The hierarchy builder *)

Section Hierarchy.
Context `{B : Backend}.

Record parameters_type : Type := {
  max_levels : nat;
  min_coarse_rows : nat;
  rstr_prlg : list RestrictProlongFactory;
  pre_smoother : list (option LinOpFactory);
  pre_relaxation : list ValueType;
  mid_case : multigrid_mid_uses.t;
  mid_smoother : list (option LinOpFactory);
  mid_relaxation : list ValueType;
  post_uses_pre : bool;
  post_smoother : list (option LinOpFactory);
  post_relaxation : list ValueType;
  coarsest_solver : list (option LinOpFactory);
  kcycle_base : nat;
  kcycle_rel_tol : spec_float
}.

(** The members of [Multigrid<ValueType>] the embedded functions touch.  A
    null [shared_ptr] is [None]. *)
Record Multigrid : Type := {
  parameters_ : parameters_type;
  system_matrix_ : LinOp;
  stop_criterion_factory_ : CriterionFactory;
  rstr_prlg_index_ : nat → LinOp → nat;
  solver_index_ : nat → LinOp → nat;
  one_op_ : Dense;
  neg_one_op_ : Dense;
  cycle_ : multigrid_cycle.t;
  rstr_prlg_list_ : list RestrictProlong;
  pre_smoother_list_ : list (option LinOp);
  mid_smoother_list_ : list (option LinOp);
  post_smoother_list_ : list (option LinOp);
  pre_relaxation_list_ : list Dense;
  mid_relaxation_list_ : list Dense;
  post_relaxation_list_ : list Dense;
  coarsest_solver_ : option LinOp
}.

(** The object as [generate] finds it when the constructor calls it: the
    configuration is in place, every per-level list is empty and there is
    no coarsest solver yet. *)
Definition unbuilt (p : parameters_type) (A : LinOp) (scf : CriterionFactory)
    (rpi si : nat → LinOp → nat) (one neg_one : Dense)
    (c : multigrid_cycle.t) : Multigrid :=
  {| parameters_ := p; system_matrix_ := A; stop_criterion_factory_ := scf;
     rstr_prlg_index_ := rpi; solver_index_ := si;
     one_op_ := one; neg_one_op_ := neg_one; cycle_ := c;
     rstr_prlg_list_ := []; pre_smoother_list_ := [];
     mid_smoother_list_ := []; post_smoother_list_ := [];
     pre_relaxation_list_ := []; mid_relaxation_list_ := [];
     post_relaxation_list_ := []; coarsest_solver_ := None |}.

(** The smoother half of [handle_list]: the entry appended to [smoother]. *)
Definition handle_list_smoother (index : nat) (matrix : LinOp)
    (smoother_list : list (option LinOpFactory)) : outcome (option LinOp) :=
  let list_size := length smoother_list in
  if negb (list_size =? 0) then
    let temp_index := if list_size =? 1 then 0 else index in
    _ ← GKO_ENSURE_IN_BOUNDS temp_index list_size;
    item ← at_ smoother_list temp_index;
    match item with
    | None => Ok None
    | Some fac => Ok (Some (lf_generate fac matrix))
    end
  else Ok None.

(** The relaxation half of [handle_list]: the entry appended to
    [relaxation]. *)
Definition handle_list_relaxation (index : nat)
    (relaxation_array : list ValueType) (one : Dense) : outcome Dense :=
  let array_size := length relaxation_array in
  if negb (array_size =? 0) then
    let temp_index := if array_size =? 1 then 0 else index in
    _ ← GKO_ENSURE_IN_BOUNDS temp_index array_size;
    match relaxation_array !! temp_index with
    | Some data => Ok (dense_view data)
    | None => Throw OutOfRange
    end
  else Ok one.

Definition handle_list (index : nat) (matrix : LinOp)
    (smoother_list : list (option LinOpFactory))
    (relaxation_array : list ValueType)
    (smoother : list (option LinOp)) (relaxation : list Dense)
    (one : Dense) : outcome (list (option LinOp) * list Dense) :=
  s ← handle_list_smoother index matrix smoother_list;
  r ← handle_list_relaxation index relaxation_array one;
  Ok (smoother ++ [s], relaxation ++ [r]).

Definition set_pre (mg : Multigrid) (sr : list (option LinOp) * list Dense)
    : Multigrid :=
  {| parameters_ := parameters_ mg; system_matrix_ := system_matrix_ mg;
     stop_criterion_factory_ := stop_criterion_factory_ mg;
     rstr_prlg_index_ := rstr_prlg_index_ mg;
     solver_index_ := solver_index_ mg;
     one_op_ := one_op_ mg; neg_one_op_ := neg_one_op_ mg;
     cycle_ := cycle_ mg;
     rstr_prlg_list_ := rstr_prlg_list_ mg;
     pre_smoother_list_ := sr.1;
     mid_smoother_list_ := mid_smoother_list_ mg;
     post_smoother_list_ := post_smoother_list_ mg;
     pre_relaxation_list_ := sr.2;
     mid_relaxation_list_ := mid_relaxation_list_ mg;
     post_relaxation_list_ := post_relaxation_list_ mg;
     coarsest_solver_ := coarsest_solver_ mg |}.

Definition set_mid (mg : Multigrid) (sr : list (option LinOp) * list Dense)
    : Multigrid :=
  {| parameters_ := parameters_ mg; system_matrix_ := system_matrix_ mg;
     stop_criterion_factory_ := stop_criterion_factory_ mg;
     rstr_prlg_index_ := rstr_prlg_index_ mg;
     solver_index_ := solver_index_ mg;
     one_op_ := one_op_ mg; neg_one_op_ := neg_one_op_ mg;
     cycle_ := cycle_ mg;
     rstr_prlg_list_ := rstr_prlg_list_ mg;
     pre_smoother_list_ := pre_smoother_list_ mg;
     mid_smoother_list_ := sr.1;
     post_smoother_list_ := post_smoother_list_ mg;
     pre_relaxation_list_ := pre_relaxation_list_ mg;
     mid_relaxation_list_ := sr.2;
     post_relaxation_list_ := post_relaxation_list_ mg;
     coarsest_solver_ := coarsest_solver_ mg |}.

Definition set_post (mg : Multigrid) (sr : list (option LinOp) * list Dense)
    : Multigrid :=
  {| parameters_ := parameters_ mg; system_matrix_ := system_matrix_ mg;
     stop_criterion_factory_ := stop_criterion_factory_ mg;
     rstr_prlg_index_ := rstr_prlg_index_ mg;
     solver_index_ := solver_index_ mg;
     one_op_ := one_op_ mg; neg_one_op_ := neg_one_op_ mg;
     cycle_ := cycle_ mg;
     rstr_prlg_list_ := rstr_prlg_list_ mg;
     pre_smoother_list_ := pre_smoother_list_ mg;
     mid_smoother_list_ := mid_smoother_list_ mg;
     post_smoother_list_ := sr.1;
     pre_relaxation_list_ := pre_relaxation_list_ mg;
     mid_relaxation_list_ := mid_relaxation_list_ mg;
     post_relaxation_list_ := sr.2;
     coarsest_solver_ := coarsest_solver_ mg |}.

Definition set_rstr_prlg_list (mg : Multigrid) (l : list RestrictProlong)
    : Multigrid :=
  {| parameters_ := parameters_ mg; system_matrix_ := system_matrix_ mg;
     stop_criterion_factory_ := stop_criterion_factory_ mg;
     rstr_prlg_index_ := rstr_prlg_index_ mg;
     solver_index_ := solver_index_ mg;
     one_op_ := one_op_ mg; neg_one_op_ := neg_one_op_ mg;
     cycle_ := cycle_ mg;
     rstr_prlg_list_ := l;
     pre_smoother_list_ := pre_smoother_list_ mg;
     mid_smoother_list_ := mid_smoother_list_ mg;
     post_smoother_list_ := post_smoother_list_ mg;
     pre_relaxation_list_ := pre_relaxation_list_ mg;
     mid_relaxation_list_ := mid_relaxation_list_ mg;
     post_relaxation_list_ := post_relaxation_list_ mg;
     coarsest_solver_ := coarsest_solver_ mg |}.

Definition set_coarsest_solver (mg : Multigrid) (s : LinOp) : Multigrid :=
  {| parameters_ := parameters_ mg; system_matrix_ := system_matrix_ mg;
     stop_criterion_factory_ := stop_criterion_factory_ mg;
     rstr_prlg_index_ := rstr_prlg_index_ mg;
     solver_index_ := solver_index_ mg;
     one_op_ := one_op_ mg; neg_one_op_ := neg_one_op_ mg;
     cycle_ := cycle_ mg;
     rstr_prlg_list_ := rstr_prlg_list_ mg;
     pre_smoother_list_ := pre_smoother_list_ mg;
     mid_smoother_list_ := mid_smoother_list_ mg;
     post_smoother_list_ := post_smoother_list_ mg;
     pre_relaxation_list_ := pre_relaxation_list_ mg;
     mid_relaxation_list_ := mid_relaxation_list_ mg;
     post_relaxation_list_ := post_relaxation_list_ mg;
     coarsest_solver_ := Some s |}.

(** One committed level: the three [handle_list] calls of the loop body
    (lines 384-398), each guarded as in the source. *)
Definition generate_smoothers (index : nat) (matrix : LinOp) (mg : Multigrid)
    : outcome Multigrid :=
  let p := parameters_ mg in
  sr ← handle_list index matrix (pre_smoother p) (pre_relaxation p)
         (pre_smoother_list_ mg) (pre_relaxation_list_ mg) (one_op_ mg);
  let mg := set_pre mg sr in
  mg ← match mid_case p with
       | multigrid_mid_uses.mid =>
           sr ← handle_list index matrix (mid_smoother p) (mid_relaxation p)
                  (mid_smoother_list_ mg) (mid_relaxation_list_ mg)
                  (one_op_ mg);
           Ok (set_mid mg sr)
       | _ => Ok mg
       end;
  if negb (post_uses_pre p) then
    sr ← handle_list index matrix (post_smoother p) (post_relaxation p)
           (post_smoother_list_ mg) (post_relaxation_list_ mg) (one_op_ mg);
    Ok (set_post mg sr)
  else Ok mg.

(** The [while] loop of [generate] (lines 371-402).  The result carries the
    locals [level] and [matrix] as the loop leaves them.  [fuel] bounds the
    number of evaluations of the loop condition. *)
Fixpoint generate_loop (fuel : nat) (level num_rows : nat) (matrix : LinOp)
    (mg : Multigrid) : outcome (nat * LinOp * Multigrid) :=
  match fuel with
  | O => Throw OutOfFuel
  | S fuel =>
    let p := parameters_ mg in
    if (level <? max_levels p) && (min_coarse_rows p <? num_rows) then
      let index := rstr_prlg_index_ mg level matrix in
      _ ← GKO_ENSURE_IN_BOUNDS index (length (rstr_prlg p));
      rstr_prlg_factory ← at_ (rstr_prlg p) index;
      let rstr := rp_generate rstr_prlg_factory matrix in
      if get_size0 (get_coarse_operator rstr) =? num_rows then
        (* do not reduce dimension: break *)
        Ok (level, matrix, mg)
      else
        let mg := set_rstr_prlg_list mg (rstr_prlg_list_ mg ++ [rstr]) in
        mg ← generate_smoothers index matrix mg;
        (* rstr_prlg_list_.back() is the element just emplaced *)
        let matrix := get_coarse_operator rstr in
        let num_rows := get_size0 matrix in
        generate_loop fuel (level + 1) num_rows matrix mg
    else Ok (level, matrix, mg)
  end.

(** Lines 403-413: list sharing after the loop. *)
Definition share_lists (mg : Multigrid) : Multigrid :=
  let p := parameters_ mg in
  let mg := if post_uses_pre p
            then set_post mg (pre_smoother_list_ mg, pre_relaxation_list_ mg)
            else mg in
  match mid_case p with
  | multigrid_mid_uses.pre => set_mid mg (pre_smoother_list_ mg, pre_relaxation_list_ mg)
  | multigrid_mid_uses.post => set_mid mg (post_smoother_list_ mg, post_relaxation_list_ mg)
  | multigrid_mid_uses.mid => mg
  end.

(** Lines 416-432: the coarsest solver. *)
Definition generate_coarsest (level : nat) (matrix : LinOp) (mg : Multigrid)
    : outcome Multigrid :=
  let p := parameters_ mg in
  if length (coarsest_solver p) =? 0 then
    Ok (set_coarsest_solver mg (identity_create (get_size0 matrix)))
  else
    let temp_index := solver_index_ mg level matrix in
    _ ← GKO_ENSURE_IN_BOUNDS temp_index (length (coarsest_solver p));
    solver ← at_ (coarsest_solver p) temp_index;
    match solver with
    | None => Ok (set_coarsest_solver mg (identity_create (get_size0 matrix)))
    | Some fac => Ok (set_coarsest_solver mg (lf_generate fac matrix))
    end.

(** The locals [level] and [matrix] after the loop, then the object. *)
Definition generate_trace (mg : Multigrid)
    : outcome (nat * LinOp * Multigrid) :=
  let num_rows := get_size0 (system_matrix_ mg) in
  '(level, matrix, mg) ← generate_loop (S (max_levels (parameters_ mg))) 0
                            num_rows (system_matrix_ mg) mg;
  let mg := share_lists mg in
  _ ← GKO_ASSERT_EQ (0 <? level) true;
  mg ← generate_coarsest level matrix mg;
  Ok (level, matrix, mg).

Definition generate (mg : Multigrid) : outcome Multigrid :=
  r ← generate_trace mg; Ok r.2.

End Hierarchy.

(** ** Predicates on generated hierarchies *)

Section HierarchySpec.
Context `{B : Backend}.

(** The configuration part of the object, which [generate] never writes. *)
Definition config (mg : Multigrid) :=
  (parameters_ mg, system_matrix_ mg, stop_criterion_factory_ mg,
   rstr_prlg_index_ mg, solver_index_ mg, one_op_ mg, neg_one_op_ mg,
   cycle_ mg).

(** The operator a level works on: the system matrix at level 0, the coarse
    operator of the level above otherwise. *)
Definition level_operator (A : LinOp) (rps : list RestrictProlong) (i : nat)
    : option LinOp :=
  match i with
  | O => Some A
  | S j => get_coarse_operator <$> rps !! j
  end.

(** The smoother and relaxation lists were filled, level by level, by
    [handle_list] on the factory list [sl] and the array [ra], each time at
    the index the coarsening selector [rpi] returned for that level. *)
Definition resolved (A : LinOp) (rps : list RestrictProlong)
    (rpi : nat → LinOp → nat) (sl : list (option LinOpFactory))
    (ra : list ValueType) (one : Dense)
    (ss : list (option LinOp)) (rs : list Dense) : Prop :=
  length ss = length rps ∧ length rs = length rps ∧
  ∀ i Ai, i < length rps → level_operator A rps i = Some Ai →
    ∃ s r, ss !! i = Some s ∧ rs !! i = Some r ∧
      handle_list_smoother (rpi i Ai) Ai sl = Ok s ∧
      handle_list_relaxation (rpi i Ai) ra one = Ok r.

(** Every committed level was produced by the selected coarsening factory
    from the operator of its level, inside the loop guard, and its coarse
    operator has another row count than that operator. *)
Definition committed (p : parameters_type) (A : LinOp)
    (rpi : nat → LinOp → nat) (rps : list RestrictProlong) : Prop :=
  ∀ i rp, rps !! i = Some rp →
    ∃ Ai fac, level_operator A rps i = Some Ai ∧
      rstr_prlg p !! rpi i Ai = Some fac ∧
      rp = rp_generate fac Ai ∧
      get_size0 (get_coarse_operator rp) ≠ get_size0 Ai ∧
      i < max_levels p ∧ min_coarse_rows p < get_size0 Ai.

Record loop_inv (level num_rows : nat) (matrix : LinOp) (mg : Multigrid)
    : Prop := {
  inv_len : length (rstr_prlg_list_ mg) = level;
  inv_rows : num_rows = get_size0 matrix;
  inv_cur : level_operator (system_matrix_ mg) (rstr_prlg_list_ mg) level
            = Some matrix;
  inv_committed : committed (parameters_ mg) (system_matrix_ mg)
                    (rstr_prlg_index_ mg) (rstr_prlg_list_ mg);
  inv_pre : resolved (system_matrix_ mg) (rstr_prlg_list_ mg)
              (rstr_prlg_index_ mg) (pre_smoother (parameters_ mg))
              (pre_relaxation (parameters_ mg)) (one_op_ mg)
              (pre_smoother_list_ mg) (pre_relaxation_list_ mg);
  inv_mid : match mid_case (parameters_ mg) with
            | multigrid_mid_uses.mid =>
                resolved (system_matrix_ mg) (rstr_prlg_list_ mg)
                  (rstr_prlg_index_ mg) (mid_smoother (parameters_ mg))
                  (mid_relaxation (parameters_ mg)) (one_op_ mg)
                  (mid_smoother_list_ mg) (mid_relaxation_list_ mg)
            | _ => mid_smoother_list_ mg = [] ∧ mid_relaxation_list_ mg = []
            end;
  inv_post : if post_uses_pre (parameters_ mg)
             then post_smoother_list_ mg = [] ∧ post_relaxation_list_ mg = []
             else resolved (system_matrix_ mg) (rstr_prlg_list_ mg)
                    (rstr_prlg_index_ mg) (post_smoother (parameters_ mg))
                    (post_relaxation (parameters_ mg)) (one_op_ mg)
                    (post_smoother_list_ mg) (post_relaxation_list_ mg)
}.

(** The factory list and relaxation array the post- and mid-smoothers of
    a generated hierarchy come from, once lines 403-413 have shared the
    lists. *)
Definition eff_post_smoother (p : parameters_type) :=
  if post_uses_pre p then pre_smoother p else post_smoother p.
Definition eff_post_relaxation (p : parameters_type) :=
  if post_uses_pre p then pre_relaxation p else post_relaxation p.
Definition eff_mid_smoother (p : parameters_type) :=
  match mid_case p with
  | multigrid_mid_uses.pre => pre_smoother p
  | multigrid_mid_uses.mid => mid_smoother p
  | multigrid_mid_uses.post => eff_post_smoother p
  end.
Definition eff_mid_relaxation (p : parameters_type) :=
  match mid_case p with
  | multigrid_mid_uses.pre => pre_relaxation p
  | multigrid_mid_uses.mid => mid_relaxation p
  | multigrid_mid_uses.post => eff_post_relaxation p
  end.

(** What a generated solver object satisfies. *)
Record hierarchy_ok (mg : Multigrid) : Prop := {
  ok_levels : 1 ≤ length (rstr_prlg_list_ mg);
  ok_committed : committed (parameters_ mg) (system_matrix_ mg)
                   (rstr_prlg_index_ mg) (rstr_prlg_list_ mg);
  ok_pre : resolved (system_matrix_ mg) (rstr_prlg_list_ mg)
             (rstr_prlg_index_ mg) (pre_smoother (parameters_ mg))
             (pre_relaxation (parameters_ mg)) (one_op_ mg)
             (pre_smoother_list_ mg) (pre_relaxation_list_ mg);
  ok_mid : resolved (system_matrix_ mg) (rstr_prlg_list_ mg)
             (rstr_prlg_index_ mg) (eff_mid_smoother (parameters_ mg))
             (eff_mid_relaxation (parameters_ mg)) (one_op_ mg)
             (mid_smoother_list_ mg) (mid_relaxation_list_ mg);
  ok_post : resolved (system_matrix_ mg) (rstr_prlg_list_ mg)
              (rstr_prlg_index_ mg) (eff_post_smoother (parameters_ mg))
              (eff_post_relaxation (parameters_ mg)) (one_op_ mg)
              (post_smoother_list_ mg) (post_relaxation_list_ mg);
  ok_solver : is_Some (coarsest_solver_ mg)
}.

End HierarchySpec.

(** ** The cycle engine *)

(** The scratch lists of [MultigridState], by name. *)
Inductive list_id : Type :=
| r_list | g_list | e_list
| alpha_list | beta_list | gamma_list | rho_list | zeta_list
| v_list | w_list | d_list.

Inductive norm_list_id : Type := old_norm_list | new_norm_list.

Definition list_id_eqb (a b : list_id) : bool :=
  match a, b with
  | r_list, r_list | g_list, g_list | e_list, e_list
  | alpha_list, alpha_list | beta_list, beta_list | gamma_list, gamma_list
  | rho_list, rho_list | zeta_list, zeta_list
  | v_list, v_list | w_list, w_list | d_list, d_list => true
  | _, _ => false
  end.

Definition norm_list_id_eqb (a b : norm_list_id) : bool :=
  match a, b with
  | old_norm_list, old_norm_list | new_norm_list, new_norm_list => true
  | _, _ => false
  end.

(** A pointer to a dense vector as [run_cycle] sees it: one of the two
    objects of the caller of [apply], or an element of a scratch list. *)
Inductive ptr : Type :=
| dense_b
| dense_x
| elem (l : list_id) (i : nat).

Inductive norm_ptr : Type :=
| norm_elem (l : norm_list_id) (i : nat).

Section Cycle.
Context `{B : Backend}.

(** [struct MultigridState]: the scratch lists ([lists st r_list] is the
    member [r_list], and so on) and the constant members. *)
Record MultigridState : Type := {
  lists : list_id → list Dense;
  norm_lists : norm_list_id → list norm_vec;
  system_matrix : LinOp;
  multigrid : Multigrid;
  nrhs : nat;
  one : Dense;
  neg_one : Dense;
  k_base : nat;
  rel_tol : spec_float
}.

Definition set_lists (st : MultigridState) (ls : list_id → list Dense)
    : MultigridState :=
  {| lists := ls; norm_lists := norm_lists st;
     system_matrix := system_matrix st; multigrid := multigrid st;
     nrhs := nrhs st; one := one st; neg_one := neg_one st;
     k_base := k_base st; rel_tol := rel_tol st |}.

Definition set_norm_lists (st : MultigridState)
    (ns : norm_list_id → list norm_vec) : MultigridState :=
  {| lists := lists st; norm_lists := ns;
     system_matrix := system_matrix st; multigrid := multigrid st;
     nrhs := nrhs st; one := one st; neg_one := neg_one st;
     k_base := k_base st; rel_tol := rel_tol st |}.

(** [l.emplace_back(x)] *)
Definition emplace_back (l : list_id) (x : Dense) (st : MultigridState)
    : MultigridState :=
  set_lists st (λ l', if list_id_eqb l' l then lists st l' ++ [x]
                      else lists st l').

Definition norm_emplace_back (l : norm_list_id) (x : norm_vec)
    (st : MultigridState) : MultigridState :=
  set_norm_lists st (λ l', if norm_list_id_eqb l' l
                           then norm_lists st l' ++ [x]
                           else norm_lists st l').

Definition is_kcycle (cycle : multigrid_cycle.t) : bool :=
  multigrid_cycle.eqb cycle multigrid_cycle.kfcg
  || multigrid_cycle.eqb cycle multigrid_cycle.kgcr.

(** The allocation loop of the constructor (lines 146-172), level [i]
    onwards; [rps] holds the elements [rstr_prlg_list.at(i)],
    [rstr_prlg_list.at(i + 1)], ...; [nrhs] and [k_base] are the members
    of these names, set before the loop. *)
Fixpoint allocate (cycle : multigrid_cycle.t) (nrhs k_base : nat)
    (rps : list RestrictProlong) (i current_nrows : nat)
    (st : MultigridState) : MultigridState :=
  match rps with
  | [] => st
  | rp :: rps =>
    let next_nrows := get_size0 (get_coarse_operator rp) in
    let st := emplace_back r_list (vec_create current_nrows nrhs) st in
    let st := emplace_back g_list (vec_create next_nrows nrhs) st in
    let st := emplace_back e_list (vec_create next_nrows nrhs) st in
    let st :=
      if is_kcycle cycle && (i mod k_base =? 0) then
        (* 1 x nrhs *)
        let st := emplace_back alpha_list (vec_create 1 nrhs) st in
        let st := emplace_back beta_list (vec_create 1 nrhs) st in
        let st := emplace_back gamma_list (vec_create 1 nrhs) st in
        let st := emplace_back rho_list (vec_create 1 nrhs) st in
        let st := emplace_back zeta_list (vec_create 1 nrhs) st in
        (* next level's nrows x nrhs *)
        let st := emplace_back v_list (vec_create next_nrows nrhs) st in
        let st := emplace_back w_list (vec_create next_nrows nrhs) st in
        let st := emplace_back d_list (vec_create next_nrows nrhs) st in
        (* 1 x nrhs norm_vec *)
        let st := norm_emplace_back old_norm_list
                    (norm_vec_create 1 nrhs) st in
        norm_emplace_back new_norm_list (norm_vec_create 1 nrhs) st
      else st in
    allocate cycle nrhs k_base rps (i + 1) next_nrows st
  end.

(** The constructor of [MultigridState].  For a K-cycle it first divides
    the number of levels by [k_base]; division by zero traps. *)
Definition MultigridState_new (system_matrix_in : LinOp)
    (multigrid_in : Multigrid) (nrhs_in : nat) (one_in neg_one_in : Dense)
    (k_base_in : nat) (rel_tol_in : spec_float) : outcome MultigridState :=
  let st := {| lists := λ _, []; norm_lists := λ _, [];
               system_matrix := system_matrix_in; multigrid := multigrid_in;
               nrhs := nrhs_in; one := one_in; neg_one := neg_one_in;
               k_base := k_base_in; rel_tol := rel_tol_in |} in
  let current_nrows := get_size0 system_matrix_in in
  let rstr_prlg_list := rstr_prlg_list_ multigrid_in in
  let cycle := cycle_ multigrid_in in
  _ ← (if is_kcycle cycle && (k_base_in =? 0)
       then Throw DivisionByZero else Ok ());
  Ok (allocate cycle nrhs_in k_base_in rstr_prlg_list 0 current_nrows st).

(** Calls to collaborators, in the order [run_cycle] and [apply_impl]
    issue them.  A recursive activation of [run_cycle] is one event that
    holds the events of that activation, and a norm computation records
    the norms it stored. *)
Inductive event : Type :=
| ev_copy_from (dst src : ptr)
| ev_apply (op : LinOp) (b x : ptr)
| ev_apply4 (op : LinOp) (alpha : Dense) (b : ptr) (beta : Dense) (x : ptr)
| ev_restrict_apply (rp : RestrictProlong) (r g : ptr)
| ev_prolong_applyadd (rp : RestrictProlong) (e x : ptr)
| ev_compute_dot (t u result : ptr)
| ev_compute_norm2 (g : ptr) (result : norm_ptr) (value : norm_vec)
| ev_kcycle_step_1 (alpha rho v g d e : ptr)
| ev_kcycle_check_stop (old_norm new_norm : norm_ptr) (is_stop : bool)
| ev_kcycle_step_2 (alpha rho gamma beta zeta d e : ptr)
| ev_run_cycle (cycle : multigrid_cycle.t) (level : nat) (matrix : LinOp)
    (b x : ptr) (inner : list event)
| ev_fill_array (e : ptr)
| ev_initialize
| ev_criterion_generate
| ev_log_iteration (iter : Z)
| ev_check (iter : Z) (all_converged : bool).

(** What a cycle reads and writes: the caller's right-hand side and
    solution and the scratch state. *)
Record memory : Type := {
  caller_b : Dense;
  caller_x : Dense;
  state : MultigridState
}.

(** Computations of the cycle engine: they read and write the memory, may
    throw, and produce the events they issued. *)
Definition M (A : Type) : Type := memory → outcome (A * memory * list event).

#[global] Instance M_ret : MRet M := λ A a mem, Ok (a, mem, []).
#[global] Instance M_bind : MBind M := λ A C k m mem,
  match m mem with
  | Ok (a, mem1, tr1) =>
    match k a mem1 with
    | Ok (c, mem2, tr2) => Ok (c, mem2, tr1 ++ tr2)
    | Throw e => Throw e
    end
  | Throw e => Throw e
  end.

Definition throw {A} (e : exn) : M A := λ _, Throw e.
Definition emit (ev : event) : M unit := λ mem, Ok ((), mem, [ev]).
Definition get_state : M MultigridState := λ mem, Ok (state mem, mem, []).

(** Run [m] and record its events as the single event [wrap events]. *)
Definition nested (wrap : list event → event) (m : M unit) : M unit :=
  λ mem, match m mem with
         | Ok (a, mem1, tr) => Ok (a, mem1, [wrap tr])
         | Throw e => Throw e
         end.

(** [l.at(i)] on a scratch list: the pointer stored there. *)
Definition list_at (l : list_id) (i : nat) : M ptr := λ mem,
  if i <? length (lists (state mem) l) then Ok (elem l i, mem, [])
  else Throw OutOfRange.

Definition norm_list_at (l : norm_list_id) (i : nat) : M norm_ptr := λ mem,
  if i <? length (norm_lists (state mem) l) then Ok (norm_elem l i, mem, [])
  else Throw OutOfRange.

(** [std::vector::at] on a list of the solver object. *)
Definition vector_at {A} (l : list A) (i : nat) : M A := λ mem,
  match at_ l i with
  | Ok a => Ok (a, mem, [])
  | Throw e => Throw e
  end.

(** The contents a pointer points to, if it points to an element. *)
Definition read (mem : memory) (p : ptr) : option Dense :=
  match p with
  | dense_b => Some (caller_b mem)
  | dense_x => Some (caller_x mem)
  | elem l i => lists (state mem) l !! i
  end.

Definition norm_read (mem : memory) (p : norm_ptr) : option norm_vec :=
  match p with
  | norm_elem l i => norm_lists (state mem) l !! i
  end.

(** The memory after new contents were written through a pointer. *)
Definition write (p : ptr) (d : Dense) (mem : memory) : memory :=
  match p with
  | dense_b =>
    {| caller_b := d; caller_x := caller_x mem; state := state mem |}
  | dense_x =>
    {| caller_b := caller_b mem; caller_x := d; state := state mem |}
  | elem l i =>
    {| caller_b := caller_b mem; caller_x := caller_x mem;
       state := set_lists (state mem)
         (λ l', if list_id_eqb l' l
                then <[i := d]> (lists (state mem) l')
                else lists (state mem) l') |}
  end.

Definition norm_write (p : norm_ptr) (d : norm_vec) (mem : memory)
    : memory :=
  match p with
  | norm_elem l i =>
    {| caller_b := caller_b mem; caller_x := caller_x mem;
       state := set_norm_lists (state mem)
         (λ l', if norm_list_id_eqb l' l
                then <[i := d]> (norm_lists (state mem) l')
                else norm_lists (state mem) l') |}
  end.

(** Reading and writing through a pointer. *)
Definition load (p : ptr) : M Dense := λ mem,
  match read mem p with
  | Some d => Ok (d, mem, [])
  | None => Throw NullDereference
  end.

Definition store (p : ptr) (d : Dense) : M unit := λ mem,
  Ok ((), write p d mem, []).

Definition norm_load (p : norm_ptr) : M norm_vec := λ mem,
  match norm_read mem p with
  | Some d => Ok (d, mem, [])
  | None => Throw NullDereference
  end.

Definition norm_store (p : norm_ptr) (d : norm_vec) : M unit := λ mem,
  Ok ((), norm_write p d mem, []).

End Cycle.

Section RunCycle.
Context `{B : Backend}.

(** Modelled from the spec: the kernel [multigrid::kcycle_check_stop] lives
    in [core/solver/multigrid_kernels.hpp] and its backend files, outside
    the embedded files.  The stop flag is set when every right-hand-side
    column has [new_norm <= rel_tol * old_norm]. *)
Definition kcycle_check_stop (old_norm new_norm : norm_vec)
    (rel_tol : spec_float) : bool :=
  forallb (λ on, SFleb on.2 (SFmul fp_prec fp_emax rel_tol on.1))
          (zip old_norm new_norm).

(** [dst->copy_from(src)] *)
Definition do_copy_from (dst src : ptr) : M unit :=
  d ← load src;
  store dst d;;
  emit (ev_copy_from dst src).

(** [op->apply(b, x)] *)
Definition do_apply (op : LinOp) (b x : ptr) : M unit :=
  bv ← load b;
  xv ← load x;
  store x (lin_apply op bv xv);;
  emit (ev_apply op b x).

(** [op->apply(alpha, b, beta, x)] *)
Definition do_apply4 (op : LinOp) (alpha : Dense) (b : ptr) (beta : Dense)
    (x : ptr) : M unit :=
  bv ← load b;
  xv ← load x;
  store x (lin_apply4 op alpha bv beta xv);;
  emit (ev_apply4 op alpha b beta x).

(** The residual idiom [r->copy_from(b); matrix->apply(neg_one, x, one, r)]. *)
Definition compute_residual (matrix : LinOp) (b x r : ptr) : M unit :=
  st ← get_state;
  do_copy_from r b;;
  do_apply4 matrix (neg_one st) x (one st) r.

(** [rstr_prlg->restrict_apply(r, g)] *)
Definition do_restrict_apply (rp : RestrictProlong) (r g : ptr) : M unit :=
  rv ← load r;
  gv ← load g;
  store g (restrict_apply rp rv gv);;
  emit (ev_restrict_apply rp r g).

(** [rstr_prlg->prolong_applyadd(e, x)] *)
Definition do_prolong_applyadd (rp : RestrictProlong) (e x : ptr) : M unit :=
  ev ← load e;
  xv ← load x;
  store x (prolong_applyadd rp ev xv);;
  emit (ev_prolong_applyadd rp e x).

(** [t->compute_dot(u, result)] *)
Definition do_compute_dot (t u result : ptr) : M unit :=
  tv ← load t;
  uv ← load u;
  store result (compute_dot tv uv);;
  emit (ev_compute_dot t u result).

(** [g->compute_norm2(result)] *)
Definition do_compute_norm2 (g : ptr) (result : norm_ptr) : M unit :=
  gv ← load g;
  norm_store result (compute_norm2 gv);;
  emit (ev_compute_norm2 g result (compute_norm2 gv)).

(** [exec->run(make_kcycle_step_1(alpha, rho, v, g, d, e))] *)
Definition do_kcycle_step_1 (alpha rho v g d e : ptr) : M unit :=
  av ← load alpha;
  rv ← load rho;
  vv ← load v;
  gv ← load g;
  dv ← load d;
  ev ← load e;
  let '(g', d', e') := kcycle_step_1 av rv vv gv dv ev in
  store g g';;
  store d d';;
  store e e';;
  emit (ev_kcycle_step_1 alpha rho v g d e).

(** [exec->run(make_kcycle_check_stop(old_norm, new_norm, rel_tol, is_stop))]:
    the new value of [is_stop] *)
Definition do_kcycle_check_stop (old_norm new_norm : norm_ptr) : M bool :=
  st ← get_state;
  ov ← norm_load old_norm;
  nv ← norm_load new_norm;
  let is_stop := kcycle_check_stop ov nv (rel_tol st) in
  emit (ev_kcycle_check_stop old_norm new_norm is_stop);;
  mret is_stop.

(** [exec->run(make_kcycle_step_2(alpha, rho, gamma, beta, zeta, d, e))] *)
Definition do_kcycle_step_2 (alpha rho gamma beta zeta d e : ptr) : M unit :=
  av ← load alpha;
  rv ← load rho;
  gv ← load gamma;
  bv ← load beta;
  zv ← load zeta;
  dv ← load d;
  ev ← load e;
  store e (kcycle_step_2 av rv gv bv zv dv ev);;
  emit (ev_kcycle_step_2 alpha rho gamma beta zeta d e).

(** [multigrid->get_coarsest_solver()->apply(b, x)] *)
Definition coarsest_solve (b x : ptr) : M unit :=
  st ← get_state;
  match coarsest_solver_ (multigrid st) with
  | Some solver => do_apply solver b x
  | None => throw NullDereference
  end.

(** "next level or solve it" (lines 210-215, 234-247 and 298-304): the
    coarsest solver below the last level, one more activation of
    [run_cycle] otherwise. *)
Definition next_level_or_solve
    (rec : multigrid_cycle.t → nat → LinOp → ptr → ptr → M unit)
    (cycle : multigrid_cycle.t) (level total_level : nat)
    (rstr_prlg : RestrictProlong) (b x : ptr) : M unit :=
  if level + 1 =? total_level then coarsest_solve b x
  else nested (ev_run_cycle cycle (level + 1)
                 (get_coarse_operator rstr_prlg) b x)
         (rec cycle (level + 1) (get_coarse_operator rstr_prlg) b x).

(** The second pass of the W- and F-cycle (lines 218-247). *)
Definition second_cycle
    (rec : multigrid_cycle.t → nat → LinOp → ptr → ptr → M unit)
    (cycle : multigrid_cycle.t) (level total_level : nat) (matrix : LinOp)
    (rstr_prlg : RestrictProlong) (mid_smoother : option LinOp)
    (mid_relaxation : Dense) (b x r g e : ptr) : M unit :=
  st ← get_state;
  (* prolong *)
  do_prolong_applyadd rstr_prlg e x;;
  (* compute residual *)
  compute_residual matrix b x r;;
  (* mid-smooth *)
  match mid_smoother with
  | Some smoother =>
    do_apply4 smoother mid_relaxation r (one st) x;;
    compute_residual matrix b x r
  | None => mret ()
  end;;
  do_restrict_apply rstr_prlg r g;;
  (* next level or solve it; f_cycle call v_cycle in the second cycle *)
  next_level_or_solve rec
    (if multigrid_cycle.eqb cycle multigrid_cycle.f then multigrid_cycle.v
     else cycle)
    level total_level rstr_prlg g e.

(** The first iteration of the K-cycle up to the update kernel
    (lines 253-282). *)
Definition kcycle_first_iteration (is_fcg : bool) (matrix : LinOp)
    (alpha rho v g d e : ptr) (old_norm : norm_ptr) : M unit :=
  st ← get_state;
  do_apply matrix e v;;
  let t := if is_fcg then e else v in
  do_compute_dot t v rho;;
  do_compute_dot t g alpha;;
  (if negb (std_isnan (rel_tol st)) && SFleb fp_zero (rel_tol st) then
     (* calculate the r norm *)
     do_compute_norm2 g old_norm
   else mret ());;
  do_kcycle_step_1 alpha rho v g d e.

(** The stop check (lines 284-291): the value of [is_stop] after it. *)
Definition kcycle_stop_check (g : ptr) (old_norm new_norm : norm_ptr)
    : M bool :=
  st ← get_state;
  if negb (std_isnan (rel_tol st)) && SFleb fp_zero (rel_tol st) then
    (* calculate the updated r norm *)
    do_compute_norm2 g new_norm;;
    do_kcycle_check_stop old_norm new_norm
  else mret true.

(** The second iteration of the K-cycle (lines 296-316). *)
Definition kcycle_second_iteration
    (rec : multigrid_cycle.t → nat → LinOp → ptr → ptr → M unit)
    (cycle : multigrid_cycle.t) (level total_level : nat) (is_fcg : bool)
    (matrix : LinOp) (rstr_prlg : RestrictProlong)
    (alpha rho gamma beta zeta v w d g e : ptr) : M unit :=
  (* Apply on d for keeping the answer on e *)
  next_level_or_solve rec cycle level total_level rstr_prlg g d;;
  do_apply matrix d w;;
  let t := if is_fcg then d else w in
  do_compute_dot t v gamma;;
  do_compute_dot t w beta;;
  do_compute_dot t g zeta;;
  do_kcycle_step_2 alpha rho gamma beta zeta d e.

(** The K-cycle branch (lines 253-317). *)
Definition kcycle
    (rec : multigrid_cycle.t → nat → LinOp → ptr → ptr → M unit)
    (cycle : multigrid_cycle.t) (level total_level : nat)
    (rstr_prlg : RestrictProlong) (g e : ptr) : M unit :=
  st ← get_state;
  let is_fcg := multigrid_cycle.eqb cycle multigrid_cycle.kfcg in
  let k_idx := level / k_base st in
  alpha ← list_at alpha_list k_idx;
  beta ← list_at beta_list k_idx;
  gamma ← list_at gamma_list k_idx;
  rho ← list_at rho_list k_idx;
  zeta ← list_at zeta_list k_idx;
  v ← list_at v_list k_idx;
  w ← list_at w_list k_idx;
  d ← list_at d_list k_idx;
  old_norm ← norm_list_at old_norm_list k_idx;
  new_norm ← norm_list_at new_norm_list k_idx;
  let matrix := get_coarse_operator rstr_prlg in
  (* first iteration *)
  kcycle_first_iteration is_fcg matrix alpha rho v g d e old_norm;;
  is_stop ← kcycle_stop_check g old_norm new_norm;
  if SFltb (rel_tol st) fp_zero
     || (SFleb fp_zero (rel_tol st) && negb is_stop) then
    (* second iteration *)
    kcycle_second_iteration rec cycle level total_level is_fcg matrix
      rstr_prlg alpha rho gamma beta zeta v w d g e
  else mret ().

(** "additional work for non-v_cycle" (lines 217-318).  The K-cycle test
    [level % k_base == 0] is only evaluated for the two K-cycles; a zero
    [k_base] traps there. *)
Definition additional_work
    (rec : multigrid_cycle.t → nat → LinOp → ptr → ptr → M unit)
    (cycle : multigrid_cycle.t) (level total_level : nat) (matrix : LinOp)
    (rstr_prlg : RestrictProlong) (mid_smoother : option LinOp)
    (mid_relaxation : Dense) (b x r g e : ptr) : M unit :=
  st ← get_state;
  if multigrid_cycle.eqb cycle multigrid_cycle.f
     || multigrid_cycle.eqb cycle multigrid_cycle.w then
    second_cycle rec cycle level total_level matrix rstr_prlg mid_smoother
      mid_relaxation b x r g e
  else if is_kcycle cycle then
    if k_base st =? 0 then throw DivisionByZero
    else if level mod k_base st =? 0 then
      kcycle rec cycle level total_level rstr_prlg g e
    else mret ()
  else mret ().

(** One activation of [run_cycle] (lines 175-328); [rec] stands for the
    recursive calls. *)
Definition run_cycle_body
    (rec : multigrid_cycle.t → nat → LinOp → ptr → ptr → M unit)
    (cycle : multigrid_cycle.t) (level : nat) (matrix : LinOp) (b x : ptr)
    : M unit :=
  st ← get_state;
  let mg := multigrid st in
  r ← list_at r_list level;
  g ← list_at g_list level;
  e ← list_at e_list level;
  (* get rstr_prlg *)
  rstr_prlg ← vector_at (rstr_prlg_list_ mg) level;
  let total_level := length (rstr_prlg_list_ mg) in
  (* get the pre_smoother *)
  pre_smoother ← vector_at (pre_smoother_list_ mg) level;
  pre_relaxation ← vector_at (pre_relaxation_list_ mg) level;
  (* get the mid_smoother *)
  mid_smoother ← vector_at (mid_smoother_list_ mg) level;
  mid_relaxation ← vector_at (mid_relaxation_list_ mg) level;
  (* get the post_smoother *)
  post_smoother ← vector_at (post_smoother_list_ mg) level;
  post_relaxation ← vector_at (post_relaxation_list_ mg) level;
  (* move the residual computation in level zero to out-of-cycle *)
  (if negb (level =? 0) then compute_residual matrix b x r else mret ());;
  (* x += relaxation * Smoother(r) *)
  match pre_smoother with
  | Some smoother =>
    do_apply4 smoother pre_relaxation r (one st) x;;
    (* compute residual *)
    compute_residual matrix b x r
  | None => mret ()
  end;;
  (* first cycle *)
  do_restrict_apply rstr_prlg r g;;
  (* next level or solve it *)
  next_level_or_solve rec cycle level total_level rstr_prlg g e;;
  (* additional work for non-v_cycle *)
  additional_work rec cycle level total_level matrix rstr_prlg mid_smoother
    mid_relaxation b x r g e;;
  (* prolong *)
  do_prolong_applyadd rstr_prlg e x;;
  (* post-smooth *)
  match post_smoother with
  | Some smoother =>
    compute_residual matrix b x r;;
    do_apply4 smoother post_relaxation r (one st) x
  | None => mret ()
  end.

(** [MultigridState::run_cycle].  [fuel] bounds the depth of the
    recursion; the number of levels is always enough. *)
Fixpoint run_cycle (fuel : nat) (cycle : multigrid_cycle.t) (level : nat)
    (matrix : LinOp) (b x : ptr) : M unit :=
  match fuel with
  | O => throw OutOfFuel
  | S fuel => run_cycle_body (run_cycle fuel) cycle level matrix b x
  end.

End RunCycle.

(** ** The outer solve loop *)

Section Apply.
Context `{B : Backend}.

(** [constexpr uint8 RelativeStoppingId{1}] *)
Definition RelativeStoppingId : nat := 1.

(** The locals of [apply_impl] that live across the loop. *)
Record loop_state : Type := {
  ls_mem : memory;
  stop_status : list stopping_status;
  one_changed : bool;
  stop_criterion : Criterion;
  iter : Z
}.

(** The [for] loop of lines 468-473: zero every correction vector,
    [e_list.at(i)] for [i] from [i] on; [n] counts the elements left. *)
Fixpoint fill_e_list (n i : nat) : M unit :=
  match n with
  | O => mret ()
  | S n =>
    e ← list_at e_list i;
    ev ← load e;
    store e (fill_array_zero ev);;
    emit (ev_fill_array e);;
    fill_e_list n (i + 1)
  end.

(** The work of one pass of the loop after a negative check
    (lines 468-476). *)
Definition iteration_work (mg : Multigrid) : M unit :=
  st ← get_state;
  fill_e_list (length (lists st e_list)) 0;;
  nested (ev_run_cycle (cycle_ mg) 0 (system_matrix_ mg) dense_b dense_x)
    (run_cycle (length (rstr_prlg_list_ mg)) (cycle_ mg) 0
       (system_matrix_ mg) dense_b dense_x);;
  do_copy_from (elem r_list 0) dense_b;;
  do_apply4 (system_matrix_ mg) (neg_one_op_ mg) dense_x (one_op_ mg)
    (elem r_list 0).

(** The head of one pass (lines 458-467): count, log, ask the criterion.
    The flag tells whether the loop breaks.  [r] is the pointer
    [state.r_list.at(0)] taken before the loop. *)
Definition check_convergence (ls : loop_state)
    : outcome (bool * loop_state * list event) :=
  let iter := (iter ls + 1)%Z in
  let mem := ls_mem ls in
  match load (elem r_list 0) mem with
  | Ok (r, _, _) =>
    let '(all_converged, status, changed, criterion) :=
      criterion_check (stop_criterion ls) iter r (caller_x mem)
        RelativeStoppingId true (stop_status ls) (one_changed ls) in
    Ok (all_converged,
        {| ls_mem := mem; stop_status := status; one_changed := changed;
           stop_criterion := criterion; iter := iter |},
        [ev_log_iteration iter; ev_check iter all_converged])
  | Throw e => Throw e
  end.

(** The [while (true)] loop of lines 457-477.  [fuel] bounds the number of
    passes; the source has no bound. *)
Fixpoint solve_loop (fuel : nat) (mg : Multigrid) (ls : loop_state)
    : outcome (loop_state * list event) :=
  match fuel with
  | O => Throw OutOfFuel
  | S fuel =>
    '(all_converged, ls, tr1) ← check_convergence ls;
    if (all_converged : bool) then Ok (ls, tr1)
    else
      '(_, mem, tr2) ← iteration_work mg (ls_mem ls);
      let ls := {| ls_mem := mem; stop_status := stop_status ls;
                   one_changed := one_changed ls;
                   stop_criterion := stop_criterion ls;
                   iter := iter ls |} in
      '(ls, tr3) ← solve_loop fuel mg ls;
      Ok (ls, tr1 ++ tr2 ++ tr3)
  end.

(** Lines 439-456: everything [apply_impl] does before the loop. *)
Definition solve_prologue (mg : Multigrid) (b x : Dense)
    : outcome (loop_state * list event) :=
  let status := status_create (get_num_cols b) in
  let changed := false in
  state ← MultigridState_new (system_matrix_ mg) mg (get_num_cols b)
             (one_op_ mg) (neg_one_op_ mg)
             (kcycle_base (parameters_ mg))
             (kcycle_rel_tol (parameters_ mg));
  let status := ir_initialize status in
  let mem := {| caller_b := b; caller_x := x; state := state |} in
  (* compute the residual at the r_list(0) *)
  match (r ← list_at r_list 0;
         do_copy_from r dense_b;;
         do_apply4 (system_matrix_ mg) (neg_one_op_ mg) dense_x (one_op_ mg)
           r;;
         load r) mem with
  | Ok (rv, mem, tr) =>
    let criterion := criterion_generate (stop_criterion_factory_ mg)
                       (system_matrix_ mg) b (caller_x mem) rv in
    Ok ({| ls_mem := mem; stop_status := status; one_changed := changed;
           stop_criterion := criterion; iter := (-1)%Z |},
        [ev_initialize] ++ tr ++ [ev_criterion_generate])
  | Throw e => Throw e
  end.

(** [Multigrid::apply_impl(b, x)]: the state the loop ends in (its memory
    holds the new contents of [x]) and the events issued. *)
Definition apply_impl_run (fuel : nat) (mg : Multigrid) (b x : Dense)
    : outcome (loop_state * list event) :=
  '(ls, tr0) ← solve_prologue mg b x;
  '(ls, tr) ← solve_loop fuel mg ls;
  Ok (ls, tr0 ++ tr).

(** [Multigrid::apply_impl(b, x)]: the new contents of [x]. *)
Definition apply_impl (fuel : nat) (mg : Multigrid) (b x : Dense)
    : outcome Dense :=
  r ← apply_impl_run fuel mg b x;
  Ok (caller_x (ls_mem r.1)).

(** *** The scaled overload

    [apply_impl(alpha, b, beta, x)] receives pointers: [x] points to an
    object of the caller, [b] to a second object or to the same one, and
    [dense_x->clone()] creates a further object that lives until the
    function is left.  The scalars [alpha] and [beta] are only read and
    are taken by value, and [x] is taken to be dense, so that the cast
    [as<matrix::Dense<ValueType>>(x)] is the identity. *)

(** The objects of the caller: the one behind [x], and one apart from it
    that [b] may point to. *)
Inductive caller_object : Type :=
| object_of_x
| object_apart.

(** The objects of one call. *)
Inductive object : Type :=
| of_caller (o : caller_object)
| x_clone.

Definition object_eqb (o o' : object) : bool :=
  match o, o' with
  | of_caller object_of_x, of_caller object_of_x
  | of_caller object_apart, of_caller object_apart
  | x_clone, x_clone => true
  | _, _ => false
  end.

(** The contents of the objects.  [None]: there is no such object, or
    its contents are what an interrupted solve left in it. *)
Definition heap : Type := object → option Dense.

Definition heap_assign (h : heap) (o : object) (v : option Dense) : heap :=
  λ o', if object_eqb o' o then v else h o'.

(** A statement: the heap it leaves and the exception it ends with, if
    any. *)
Definition statement : Type := heap → heap * option exn.

(** [auto x_clone = dense_x->clone();] *)
Definition clone_into (src dst : object) : statement := λ h,
  match h src with
  | Some v => (heap_assign h dst (Some v), None)
  | None => (h, Some NullDereference)
  end.

(** [this->apply(b, x);], the plain overload on objects: it reads [b],
    and reads and writes [x].  When the solve throws, [x] is left with
    contents the model does not determine. *)
Definition apply_on (fuel : nat) (mg : Multigrid) (b x : object)
    : statement := λ h,
  match h b, h x with
  | Some vb, Some vx =>
    match apply_impl fuel mg vb vx with
    | Ok y => (heap_assign h x (Some y), None)
    | Throw e => (heap_assign h x None, Some e)
    end
  | _, _ => (h, Some NullDereference)
  end.

(** [x->scale(beta);] *)
Definition scale_on (beta : Dense) (x : object) : statement := λ h,
  match h x with
  | Some vx => (heap_assign h x (Some (dense_scale beta vx)), None)
  | None => (h, Some NullDereference)
  end.

(** [x->add_scaled(alpha, y);] *)
Definition add_scaled_on (alpha : Dense) (y x : object) : statement := λ h,
  match h y, h x with
  | Some vy, Some vx =>
    (heap_assign h x (Some (dense_add_scaled alpha vy vx)), None)
  | _, _ => (h, Some NullDereference)
  end.

(** The statements of a body, run in order from [h] until one throws: the
    heap after every statement that was run, and the exception. *)
Fixpoint run_statements (body : list statement) (h : heap)
    : list heap * option exn :=
  match body with
  | [] => ([], None)
  | stmt :: body =>
    let '(h', thrown) := stmt h in
    match thrown with
    | Some e => ([h'], Some e)
    | None =>
      let '(hs, thrown) := run_statements body h' in (h' :: hs, thrown)
    end
  end.

(** [Multigrid::apply_impl(alpha, b, beta, x)]: the heap after every
    statement, then the heap the caller finds, in which the local
    [x_clone] is gone, and the exception the call ends with, if any. *)
Definition apply_impl_scaled (fuel : nat) (mg : Multigrid)
    (alpha : Dense) (b : caller_object) (beta : Dense) (h : heap)
    : list heap * option exn :=
  let dense_x := of_caller object_of_x in
  let '(hs, thrown) :=
    run_statements
      [clone_into dense_x x_clone;
       apply_on fuel mg (of_caller b) x_clone;
       scale_on beta dense_x;
       add_scaled_on alpha x_clone dense_x] h in
  (hs ++ [heap_assign (default h (list.last hs)) x_clone None], thrown).

End Apply.

(** ** The CUDA executor: raw copies *)

Module Executor.

Inductive exception : Type :=
| NotSupported                 (* GKO_NOT_SUPPORTED *)
| CudaError (error_code : Z).  (* GKO_ASSERT_NO_CUDA_ERRORS *)

Definition cudaSuccess : Z := 0.

Record CudaExecutor : Type := {
  cuda_device_id : Z;
  cuda_stream : N
}.

Record HipExecutor : Type := { hip_device_id : Z }.

Record DpcppExecutor : Type := { dpcpp_device_id : Z }.

(** The destination of a copy, by its dynamic type; the overload of
    [raw_copy_to] is chosen by it. *)
Inductive Executor : Type :=
| Omp
| Cuda (e : CudaExecutor)
| Hip (e : HipExecutor)
| Dpcpp (e : DpcppExecutor).

Inductive cudaMemcpyKind : Type :=
| cudaMemcpyHostToDevice
| cudaMemcpyDeviceToHost.

(** Calls into the CUDA runtime; pointers are addresses. *)
Inductive cuda_call : Type :=
| cudaMemcpyAsync (dst src count : N) (kind : cudaMemcpyKind) (stream : N)
| cudaMemcpyPeerAsync (dst : N) (dst_device : Z) (src : N) (src_device : Z)
    (count : N) (stream : N)
| cudaStreamSynchronize (stream : N).

(** What a member function does, in order.  The scoped device-id guard is
    entered by its constructor and left by its destructor, also when an
    exception passes through. *)
Inductive event : Type :=
| guard_enter (device_id : Z)
| guard_leave (device_id : Z)
| call (c : cuda_call).

(** The events issued, and the exception the function ended with, if
    any. *)
Definition result : Type := list event * option exception.

Section Runtime.
(** The error code each runtime call returns. *)
Variable runtime : cuda_call → Z.
(** The build-time constant [GINKGO_HIP_PLATFORM_NVCC == 1]. *)
Variable hip_platform_nvcc : bool.

(** Modelled from the spec: the macro [GKO_NOT_SUPPORTED] is declared in
    [ginkgo/core/base/exception_helpers.hpp], a header outside the embedded
    files; it signals a Not-Supported error to the caller. *)
Definition GKO_NOT_SUPPORTED : result := ([], Some NotSupported).

(** Modelled from the spec: the macro [GKO_ASSERT_NO_CUDA_ERRORS] belongs
    to the same header; a failing runtime call is surfaced as a device
    error that carries the native error code.  [k] is what follows the
    call. *)
Definition GKO_ASSERT_NO_CUDA_ERRORS (c : cuda_call) (k : result) : result :=
  if (runtime c =? cudaSuccess)%Z then (call c :: k.1, k.2)
  else ([call c], Some (CudaError (runtime c))).

(** Modelled from the spec: [detail::cuda_scoped_device_id_guard] is defined
    in [cuda/base/scoped_device_id.hpp], outside the embedded files; the
    ambient device is switched for the duration of [body] and restored on
    every exit path. *)
Definition cuda_scoped_device_id_guard (device_id : Z) (body : result)
    : result :=
  (guard_enter device_id :: body.1 ++ [guard_leave device_id], body.2).

Definition no_error : result := ([], None).

(** [CudaExecutor::synchronize] followed by [k]. *)
Definition synchronize (this : CudaExecutor) (k : result) : result :=
  let r := cuda_scoped_device_id_guard (cuda_device_id this)
             (GKO_ASSERT_NO_CUDA_ERRORS
                (cudaStreamSynchronize (cuda_stream this)) no_error) in
  match r.2 with
  | None => (r.1 ++ k.1, k.2)
  | Some e => r
  end.

(** [OmpExecutor::raw_copy_to(const CudaExecutor*, ...)] *)
Definition OmpExecutor_raw_copy_to (dest : CudaExecutor)
    (num_bytes src_ptr dest_ptr : N) : result :=
  if (0 <? num_bytes)%N then
    cuda_scoped_device_id_guard (cuda_device_id dest)
      (GKO_ASSERT_NO_CUDA_ERRORS
         (cudaMemcpyAsync dest_ptr src_ptr num_bytes cudaMemcpyHostToDevice
            (cuda_stream dest))
         (synchronize dest no_error))
  else no_error.

(** [CudaExecutor::raw_copy_to(const OmpExecutor*, ...)] *)
Definition raw_copy_to_omp (this : CudaExecutor)
    (num_bytes src_ptr dest_ptr : N) : result :=
  if (0 <? num_bytes)%N then
    cuda_scoped_device_id_guard (cuda_device_id this)
      (GKO_ASSERT_NO_CUDA_ERRORS
         (cudaMemcpyAsync dest_ptr src_ptr num_bytes cudaMemcpyDeviceToHost
            (cuda_stream this))
         (synchronize this no_error))
  else no_error.

(** [CudaExecutor::raw_copy_to(const HipExecutor*, ...)] *)
Definition raw_copy_to_hip (this : CudaExecutor) (dest : HipExecutor)
    (num_bytes src_ptr dest_ptr : N) : result :=
  if hip_platform_nvcc then
    if (0 <? num_bytes)%N then
      cuda_scoped_device_id_guard (cuda_device_id this)
        (GKO_ASSERT_NO_CUDA_ERRORS
           (cudaMemcpyPeerAsync dest_ptr (hip_device_id dest) src_ptr
              (cuda_device_id this) num_bytes (cuda_stream this))
           (synchronize this no_error))
    else no_error
  else GKO_NOT_SUPPORTED.

(** [CudaExecutor::raw_copy_to(const DpcppExecutor*, ...)] *)
Definition raw_copy_to_dpcpp (this : CudaExecutor) (dest : DpcppExecutor)
    (num_bytes src_ptr dest_ptr : N) : result :=
  GKO_NOT_SUPPORTED.

(** [CudaExecutor::raw_copy_to(const CudaExecutor*, ...)] *)
Definition raw_copy_to_cuda (this dest : CudaExecutor)
    (num_bytes src_ptr dest_ptr : N) : result :=
  if (0 <? num_bytes)%N then
    cuda_scoped_device_id_guard (cuda_device_id this)
      (GKO_ASSERT_NO_CUDA_ERRORS
         (cudaMemcpyPeerAsync dest_ptr (cuda_device_id dest) src_ptr
            (cuda_device_id this) num_bytes (cuda_stream this))
         (synchronize this no_error))
  else no_error.

(** The overload set of [CudaExecutor::raw_copy_to]. *)
Definition raw_copy_to (this : CudaExecutor) (dest : Executor)
    (num_bytes src_ptr dest_ptr : N) : result :=
  match dest with
  | Omp => raw_copy_to_omp this num_bytes src_ptr dest_ptr
  | Cuda d => raw_copy_to_cuda this d num_bytes src_ptr dest_ptr
  | Hip d => raw_copy_to_hip this d num_bytes src_ptr dest_ptr
  | Dpcpp d => raw_copy_to_dpcpp this d num_bytes src_ptr dest_ptr
  end.

(** A destination is a device of the backend family of a CUDA executor
    when it is a CUDA device, or a HIP device of a build whose HIP platform
    is NVCC. *)
Definition same_family (dest : Executor) : bool :=
  match dest with
  | Cuda _ => true
  | Hip _ => hip_platform_nvcc
  | _ => false
  end.

(** A destination on a device of another backend family. *)
Definition other_family (dest : Executor) : bool :=
  match dest with
  | Hip _ => negb hip_platform_nvcc
  | Dpcpp _ => true
  | _ => false
  end.

(** The device identifier of a device destination. *)
Definition device_of (dest : Executor) : Z :=
  match dest with
  | Omp => 0
  | Cuda d => cuda_device_id d
  | Hip d => hip_device_id d
  | Dpcpp d => dpcpp_device_id d
  end.

End Runtime.
End Executor.

(** ** A small concrete backend

    Scalars stand for the dense vectors (a 1 x 1 system), an operator is
    its row count and a tag, a smoother factory is the tag it stamps on
    what it generates, a coarsening factory halves the row count, keeps it
    or adds one to it, and a stopping criterion is the number of
    iterations it allows.  The examples below run on it. *)

Module Example.

Inductive coarsening : Type := halve | keep | grow.

Definition coarsen (fac : coarsening) (n : nat) : nat :=
  match fac with
  | halve => n / 2
  | keep => n
  | grow => n + 1
  end.

(** The norm of a scalar, for the scalars the examples meet: 0, or 1 for
    anything else. *)
Definition norm_of (z : Z) : spec_float :=
  if (z =? 0)%Z then S754_zero false
  else S754_finite false 4503599627370496 (-52).

#[global] Instance backend : Backend := {|
  ValueType := Z;
  Dense := Z;
  LinOp := nat * nat;
  LinOpFactory := nat;
  RestrictProlong := nat;
  RestrictProlongFactory := coarsening;
  stopping_status := bool;
  Criterion := Z;
  CriterionFactory := Z;
  fp_prec := 53;
  fp_emax := 1024;
  get_size0 := fst;
  get_num_cols := λ _, 1;
  lf_generate := λ tag A, (A.1, tag);
  rp_generate := λ fac A, coarsen fac A.1;
  get_coarse_operator := λ rp, (rp, 0);
  identity_create := λ n, (n, 0);
  dense_view := λ z, z;
  lin_apply := λ _ b _, b;
  lin_apply4 := λ _ alpha b beta x, (alpha * b + beta * x)%Z;
  restrict_apply := λ _ r _, r;
  prolong_applyadd := λ _ e x, (x + e)%Z;
  compute_dot := λ t u, (t * u)%Z;
  compute_norm2 := λ g, [norm_of g];
  dense_scale := λ beta x, (beta * x)%Z;
  dense_add_scaled := λ alpha y x, (x + alpha * y)%Z;
  vec_create := λ _ _, 0%Z;
  norm_vec_create := λ _ _, [S754_zero false];
  fill_array_zero := λ _, 0%Z;
  kcycle_step_1 := λ alpha rho v g d e,
    ((g - (alpha / rho) * v)%Z, ((alpha / rho) * e)%Z, ((alpha / rho) * e)%Z);
  kcycle_step_2 := λ alpha rho gamma beta zeta d e, (e + d)%Z;
  status_create := λ n, replicate n false;
  ir_initialize := λ l, replicate (length l) false;
  criterion_generate := λ fac _ _ _ _, fac;
  criterion_check := λ c iter _ _ _ _ status changed,
    ((c <=? iter)%Z, status, changed, c)
|}.

(** Two coarsening strategies, the second one selected at every level, and
    two pre-smoother factories. *)
Definition two_strategies : parameters_type :=
  {| max_levels := 2; min_coarse_rows := 1;
     rstr_prlg := [halve; halve];
     pre_smoother := [Some 7; Some 8]; pre_relaxation := [3%Z; 4%Z];
     mid_case := multigrid_mid_uses.mid;
     mid_smoother := []; mid_relaxation := [];
     post_uses_pre := true;
     post_smoother := []; post_relaxation := [];
     coarsest_solver := [];
     kcycle_base := 1; kcycle_rel_tol := S754_zero false |}.

Definition always_second (level : nat) (matrix : nat * nat) : nat := 1.
Definition by_level (level : nat) (matrix : nat * nat) : nat := level.
Definition always_first (level : nat) (matrix : nat * nat) : nat := 0.

Definition two_strategies_solver (c : multigrid_cycle.t) : Multigrid :=
  unbuilt two_strategies (8, 0) 3%Z always_second always_first 1%Z (-1)%Z c.

(** One coarsening strategy with the given factory, no smoothers. *)
Definition plain (fac : coarsening) (levels : nat) (tol : spec_float)
    : parameters_type :=
  {| max_levels := levels; min_coarse_rows := 1;
     rstr_prlg := [fac];
     pre_smoother := []; pre_relaxation := [];
     mid_case := multigrid_mid_uses.mid;
     mid_smoother := []; mid_relaxation := [];
     post_uses_pre := true;
     post_smoother := []; post_relaxation := [];
     coarsest_solver := [];
     kcycle_base := 1; kcycle_rel_tol := tol |}.

Definition plain_solver (fac : coarsening) (levels : nat) (tol : spec_float)
    (max_iters : Z) (c : multigrid_cycle.t) : Multigrid :=
  unbuilt (plain fac levels tol) (8, 0) max_iters always_first always_first
    1%Z (-1)%Z c.

(** Three halving levels and a list of coarsest-solver factories, with a
    solver selector that always returns 7. *)
Definition with_coarsest_solver (cs : list (option nat)) : parameters_type :=
  {| max_levels := 3; min_coarse_rows := 1;
     rstr_prlg := [halve];
     pre_smoother := []; pre_relaxation := [];
     mid_case := multigrid_mid_uses.mid;
     mid_smoother := []; mid_relaxation := [];
     post_uses_pre := true;
     post_smoother := []; post_relaxation := [];
     coarsest_solver := cs;
     kcycle_base := 1; kcycle_rel_tol := fp_zero |}.

Definition always_seventh (level : nat) (matrix : nat * nat) : nat := 7.


(** The object [generate] leaves behind, or the object itself when
    [generate] fails. *)
Definition generated (mg : Multigrid) : Multigrid :=
  match generate mg with
  | Ok mg' => mg'
  | Throw _ => mg
  end.



Definition two_strategies_hierarchy : Multigrid :=
  Eval vm_compute in generated (two_strategies_solver multigrid_cycle.v).

(** Three levels, 8 -> 4 -> 2 -> 1 rows. *)
Definition halving_hierarchy : Multigrid :=
  Eval vm_compute in
    generated (plain_solver halve 3 fp_zero 3 multigrid_cycle.v).

(** One level, 8 -> 9 rows. *)
Definition growing_hierarchy : Multigrid :=
  Eval vm_compute in
    generated (plain_solver grow 1 fp_zero 3 multigrid_cycle.v).

(** The memory a solve starts from: the caller's [b] and [x] and the state
    the constructor builds for one right-hand side (an empty state if the
    constructor fails). *)
Definition memory_of (mg : Multigrid) (b x : Z) : memory :=
  {| caller_b := b; caller_x := x;
     state :=
       match MultigridState_new (system_matrix_ mg) mg 1 (one_op_ mg)
               (neg_one_op_ mg) (kcycle_base (parameters_ mg))
               (kcycle_rel_tol (parameters_ mg)) with
       | Ok st => st
       | Throw _ =>
         {| lists := λ _, []; norm_lists := λ _, [];
            system_matrix := system_matrix_ mg; multigrid := mg;
            nrhs := 1; one := one_op_ mg; neg_one := neg_one_op_ mg;
            k_base := kcycle_base (parameters_ mg);
            rel_tol := kcycle_rel_tol (parameters_ mg) |}
       end |}.

(** The tolerance -1. *)
Definition minus_one : spec_float :=
  S754_finite true 4503599627370496 (-52).

(** The three halving levels again, for an F-cycle and for the two
    K-cycles. *)
Definition f_hierarchy : Multigrid :=
  Eval vm_compute in
    generated (plain_solver halve 3 fp_zero 3 multigrid_cycle.f).

Definition kfcg_hierarchy : Multigrid :=
  Eval vm_compute in
    generated (plain_solver halve 3 minus_one 3 multigrid_cycle.kfcg).

Definition kgcr_hierarchy : Multigrid :=
  Eval vm_compute in
    generated (plain_solver halve 3 fp_zero 3 multigrid_cycle.kgcr).

(** Three halving levels for the GCR K-cycle with a stopping criterion that reports
    convergence from iteration 0 on. *)
Definition converged_hierarchy : Multigrid :=
  Eval vm_compute in
    generated (plain_solver halve 3 fp_zero 0 multigrid_cycle.kgcr).

(** The state of the loop of [apply_impl] at its start: the memory of
    [mg], one unconverged column, the criterion [c]. *)
Definition loop_start (mg : Multigrid) (b x c : Z) : loop_state :=
  {| ls_mem := memory_of mg b x; stop_status := [false];
     one_changed := false; stop_criterion := c; iter := (-1)%Z |}.

End Example.

(** ** Predicates on the memory of a cycle *)

Section CycleSpec.
Context `{B : Backend}.

(** Memories of one solve: the scratch lists keep their lengths and the
    constant members their values. *)
Record frame (mem mem' : memory) : Prop := {
  fr_lists : ∀ l, length (lists (state mem') l)
                  = length (lists (state mem) l);
  fr_norms : ∀ l, length (norm_lists (state mem') l)
                  = length (norm_lists (state mem) l);
  fr_multigrid : multigrid (state mem') = multigrid (state mem);
  fr_one : one (state mem') = one (state mem);
  fr_neg_one : neg_one (state mem') = neg_one (state mem);
  fr_k_base : k_base (state mem') = k_base (state mem);
  fr_rel_tol : rel_tol (state mem') = rel_tol (state mem)
}.

(** A pointer into a scratch list points to an element of it. *)
Definition ptr_valid (mem : memory) (p : ptr) : Prop :=
  match p with
  | elem l i => i < length (lists (state mem) l)
  | _ => True
  end.

Definition norm_ptr_valid (mem : memory) (p : norm_ptr) : Prop :=
  match p with
  | norm_elem l i => i < length (norm_lists (state mem) l)
  end.

(** [m] runs to completion from [mem], within the frame, and its result
    satisfies [Q]. *)
Definition safe {A} (m : M A) (mem : memory) (Q : A → Prop) : Prop :=
  ∃ a mem' tr, m mem = Ok (a, mem', tr) ∧ frame mem mem' ∧ Q a.

(** [multigrid->get_rstr_prlg_list().size()] *)
Definition total_level (mem : memory) : nat :=
  length (rstr_prlg_list_ (multigrid (state mem))).

(** The lists that only exist for the K-cycle. *)
Definition k_list (l : list_id) : bool :=
  match l with
  | r_list | g_list | e_list => false
  | _ => true
  end.

(** The memory a cycle of type [cycle] can run on: the solver object has
    its per-level lists and its coarsest solver, the scratch lists have
    one element per level, and for a K-cycle [k_base] is not zero and the
    K-cycle lists have an element for every level that is a multiple of
    [k_base]. *)
Record ready (cycle : multigrid_cycle.t) (mem : memory) : Prop := {
  rd_levels : ∀ l, k_list l = false →
                length (lists (state mem) l) = total_level mem;
  rd_pre_smoother :
    length (pre_smoother_list_ (multigrid (state mem))) = total_level mem;
  rd_pre_relaxation :
    length (pre_relaxation_list_ (multigrid (state mem))) = total_level mem;
  rd_mid_smoother :
    length (mid_smoother_list_ (multigrid (state mem))) = total_level mem;
  rd_mid_relaxation :
    length (mid_relaxation_list_ (multigrid (state mem))) = total_level mem;
  rd_post_smoother :
    length (post_smoother_list_ (multigrid (state mem))) = total_level mem;
  rd_post_relaxation :
    length (post_relaxation_list_ (multigrid (state mem))) = total_level mem;
  rd_solver : is_Some (coarsest_solver_ (multigrid (state mem)));
  rd_kcycle :
    is_kcycle cycle = true →
    k_base (state mem) ≠ 0 ∧
    ∀ level, level < total_level mem → level mod k_base (state mem) = 0 →
      (∀ l, k_list l = true →
         level / k_base (state mem) < length (lists (state mem) l)) ∧
      (∀ l, level / k_base (state mem) < length (norm_lists (state mem) l))
}.

(** The activations [rec] stands for run to completion on a ready memory
    when at most [n] levels remain. *)
Definition rec_safe
    (rec : multigrid_cycle.t → nat → LinOp → ptr → ptr → M unit) (n : nat)
    : Prop :=
  ∀ cycle level matrix b x mem,
    ready cycle mem → level < total_level mem →
    total_level mem - level ≤ n →
    ptr_valid mem b → ptr_valid mem x →
    safe (rec cycle level matrix b x) mem (λ _, True).

(** Counting the events of one activation (the events of the activations
    nested in it are not looked at). *)
Fixpoint count_events (p : event → bool) (tr : list event) : nat :=
  match tr with
  | [] => 0
  | ev :: tr => (if p ev then 1 else 0) + count_events p tr
  end.

Definition is_step_1 (ev : event) : bool :=
  match ev with ev_kcycle_step_1 _ _ _ _ _ _ => true | _ => false end.

Definition is_step_2 (ev : event) : bool :=
  match ev with ev_kcycle_step_2 _ _ _ _ _ _ _ => true | _ => false end.

Definition is_norm2 (ev : event) : bool :=
  match ev with ev_compute_norm2 _ _ _ => true | _ => false end.

(** The events of the residual idiom. *)
Definition residual_events (matrix : LinOp) (neg_one one : Dense)
    (b x r : ptr) : list event :=
  [ev_copy_from r b; ev_apply4 matrix neg_one x one r].

End CycleSpec.

(** ** The events of the phases of one activation *)

Section CycleShapes.
Context `{B : Backend}.

(** Lines 196-206: the residual below level 0, then the pre-smoother with
    its residual. *)
Definition pre_events (level : nat) (matrix : LinOp) (neg_one one : Dense)
    (pre_smoother : option LinOp) (pre_relaxation : Dense) (b x r : ptr)
    : list event :=
  (if negb (level =? 0) then residual_events matrix neg_one one b x r
   else []) ++
  match pre_smoother with
  | Some smoother =>
    ev_apply4 smoother pre_relaxation r one x
    :: residual_events matrix neg_one one b x r
  | None => []
  end.

(** Lines 225-230: the mid-smoother with its residual. *)
Definition mid_events (matrix : LinOp) (neg_one one : Dense)
    (mid_smoother : option LinOp) (mid_relaxation : Dense) (b x r : ptr)
    : list event :=
  match mid_smoother with
  | Some smoother =>
    ev_apply4 smoother mid_relaxation r one x
    :: residual_events matrix neg_one one b x r
  | None => []
  end.

(** Lines 323-327: the residual and the post-smoother. *)
Definition post_events (matrix : LinOp) (neg_one one : Dense)
    (post_smoother : option LinOp) (post_relaxation : Dense) (b x r : ptr)
    : list event :=
  match post_smoother with
  | Some smoother =>
    residual_events matrix neg_one one b x r ++
    [ev_apply4 smoother post_relaxation r one x]
  | None => []
  end.

(** An event that is a recursive activation of the given cycle type at the
    given level on the given operator and vectors. *)
Definition is_run_cycle (cycle : multigrid_cycle.t) (level : nat)
    (matrix : LinOp) (b x : ptr) (ev : event) : Prop :=
  ∃ inner, ev = ev_run_cycle cycle level matrix b x inner.

(** The first iteration of the K-cycle in events: [t] is [e] for the FCG
    variant and [v] for the GCR variant; the norm is recorded, with the
    value [norm], when [records] holds. *)
Definition first_iteration_events (is_fcg records : bool) (matrix : LinOp)
    (alpha rho v g d e : ptr) (old_norm : norm_ptr) (norm : norm_vec)
    : list event :=
  let t := if is_fcg then e else v in
  [ev_apply matrix e v; ev_compute_dot t v rho; ev_compute_dot t g alpha] ++
  (if records then [ev_compute_norm2 g old_norm norm] else []) ++
  [ev_kcycle_step_1 alpha rho v g d e].

(** The condition of line 295. *)
Definition runs_second_iteration (tol : spec_float) (is_stop : bool) : bool :=
  SFltb tol fp_zero || (SFleb fp_zero tol && negb is_stop).

(** [!std::isnan(rel_tol) && rel_tol >= 0] *)
Definition checks_norms (rel_tol : spec_float) : bool :=
  negb (std_isnan rel_tol) && SFleb fp_zero rel_tol.

End CycleShapes.

(** ** The scaled overload, as a specification *)

Section ApplySpec.
Context `{B : Backend}.

(** The scaled overload in the words of its description: solve with the
    plain overload on a copy [y] of the incoming [x], then set [x] to
    [beta * x_old + alpha * y]. *)
Definition apply_scaled_spec (fuel : nat) (mg : Multigrid)
    (alpha b beta x_old : Dense) : outcome Dense :=
  match apply_impl fuel mg b x_old with
  | Ok y => Ok (dense_add_scaled alpha y (dense_scale beta x_old))
  | Throw e => Throw e
  end.

End ApplySpec.

(** ** Errors of the hierarchy builder *)

Section BoundsErrors.
Context `{B : Backend}.

(** The sizes [generate] checks an index against: the size of the list of
    coarsening factories, of the smoother lists and relaxation arrays it
    passes to [handle_list], and of the list of coarsest solvers. *)
Definition checked_sizes (p : parameters_type) : list nat :=
  [length (rstr_prlg p); length (pre_smoother p);
   length (pre_relaxation p)] ++
  match mid_case p with
  | multigrid_mid_uses.mid =>
      [length (mid_smoother p); length (mid_relaxation p)]
  | _ => []
  end ++
  (if post_uses_pre p then []
   else [length (post_smoother p); length (post_relaxation p)]) ++
  [length (coarsest_solver p)].

(** An out-of-bounds error that carries an index and one of [sizes], with
    the index not below that size. *)
Definition is_bounds_error (sizes : list nat) (e : exn) : Prop :=
  ∃ index bound,
    e = OutOfBoundsError index bound ∧ bound ≤ index ∧ bound ∈ sizes.

End BoundsErrors.

(** ** The vectors the constructor allocates *)

Section AllocationSpec.
Context `{B : Backend}.

(** The vector the allocation loop appends to list [l] at a level: [rows]
    is the row count of the level's operator, [next_rows] the one of its
    coarse operator. *)
Definition level_vector (nrhs : nat) (l : list_id) (rows next_rows : nat)
    : Dense :=
  match l with
  | r_list => vec_create rows nrhs
  | g_list | e_list | v_list | w_list | d_list => vec_create next_rows nrhs
  | alpha_list | beta_list | gamma_list | rho_list | zeta_list =>
    vec_create 1 nrhs
  end.

(** What the allocation loop appends to list [l], level [i] onwards. *)
Fixpoint allocated (cycle : multigrid_cycle.t) (nrhs k_base : nat)
    (l : list_id) (rps : list RestrictProlong) (i rows : nat)
    : list Dense :=
  match rps with
  | [] => []
  | rp :: rps =>
    let next_rows := get_size0 (get_coarse_operator rp) in
    (if negb (k_list l) || (is_kcycle cycle && (i mod k_base =? 0))
     then [level_vector nrhs l rows next_rows] else []) ++
    allocated cycle nrhs k_base l rps (i + 1) next_rows
  end.

(** What it appends to each of the two lists of norms. *)
Fixpoint norm_allocated (cycle : multigrid_cycle.t) (nrhs k_base : nat)
    (rps : list RestrictProlong) (i : nat) : list norm_vec :=
  match rps with
  | [] => []
  | rp :: rps =>
    (if is_kcycle cycle && (i mod k_base =? 0)
     then [norm_vec_create 1 nrhs] else []) ++
    norm_allocated cycle nrhs k_base rps (i + 1)
  end.

(** [n] is the number of multiples of [kb] below [i]. *)
Definition multiples_below (kb i n : nat) : Prop :=
  i ≤ n * kb ∧ n * kb < i + kb.

End AllocationSpec.

(** ** Counting through nested activations *)

Section DeepCount.
Context `{B : Backend}.

(** The events that satisfy [p] in an activation and in every activation
    nested in it. *)
Fixpoint deep_count (p : event → bool) (ev : event) {struct ev} : nat :=
  (if p ev then 1 else 0) +
  match ev with
  | ev_run_cycle _ _ _ _ _ inner => list_sum (map (deep_count p) inner)
  | _ => 0
  end.

Definition deep_count_events (p : event → bool) (tr : list event) : nat :=
  list_sum (map (deep_count p) tr).

(** The two-argument [apply]; the V-, F- and W-cycle only call it on the
    coarsest solver. *)
Definition is_apply (ev : event) : bool :=
  match ev with ev_apply _ _ _ => true | _ => false end.

(** [restrict_apply] *)
Definition is_restrict (ev : event) : bool :=
  match ev with ev_restrict_apply _ _ _ => true | _ => false end.

(** The number of coarsest-solver applications of one activation of a
    cycle with [depth] levels from its level down to the last one. *)
Definition coarsest_solves (cycle : multigrid_cycle.t) (depth : nat) : nat :=
  match cycle with
  | multigrid_cycle.v => 1
  | multigrid_cycle.f => depth + 1
  | multigrid_cycle.w => 2 ^ depth
  | _ => 0
  end.

(** What an activation does between the restriction and the prolongation
    to reach the next level: the coarsest solver on the last level, one
    nested activation otherwise. *)
Definition descends (cycle : multigrid_cycle.t) (level total_level : nat)
    (mg : Multigrid) (rp : RestrictProlong) (b x : ptr) (ev : event)
    : Prop :=
  if level + 1 =? total_level
  then ∃ solver, coarsest_solver_ mg = Some solver ∧ ev = ev_apply solver b x
  else ∃ inner,
         ev = ev_run_cycle cycle (level + 1) (get_coarse_operator rp) b x
                inner.

End DeepCount.

(** ** Invariants and events of the outer solve loop *)

Section ApplyLoopSpec.
Context `{B : Backend}.

(** The memory of a solve with the solver object [mg]: the scratch state
    is ready for the cycle of [mg] and refers to [mg], which has at least
    one level. *)
Definition solving (mg : Multigrid) (mem : memory) : Prop :=
  ready (cycle_ mg) mem ∧ multigrid (state mem) = mg ∧
  1 ≤ length (rstr_prlg_list_ mg).

(** The events of the zero fill of [e_list.at(i)], ..., [e_list.at(i+n-1)]. *)
Definition fill_events (i n : nat) : list event :=
  (λ j, ev_fill_array (elem e_list j)) <$> seq i n.

(** The loop state [ls] with the memory [mem]. *)
Definition with_memory (ls : loop_state) (mem : memory) : loop_state :=
  {| ls_mem := mem; stop_status := stop_status ls;
     one_changed := one_changed ls; stop_criterion := stop_criterion ls;
     iter := iter ls |}.

(** The events of the part of [apply_impl] before the loop. *)
Definition prologue_events (mg : Multigrid) : list event :=
  [ev_initialize] ++
  residual_events (system_matrix_ mg) (neg_one_op_ mg) (one_op_ mg)
    dense_b dense_x (elem r_list 0) ++
  [ev_criterion_generate].

(** The events of the head of one pass. *)
Definition check_events (iter : Z) (all_converged : bool) : list event :=
  [ev_log_iteration iter; ev_check iter all_converged].

Definition is_cycle_event (ev : event) : bool :=
  match ev with ev_run_cycle _ _ _ _ _ _ => true | _ => false end.

Definition is_log_event (ev : event) : bool :=
  match ev with ev_log_iteration _ => true | _ => false end.

Definition is_check_event (ev : event) : bool :=
  match ev with ev_check _ _ => true | _ => false end.

End ApplyLoopSpec.

(** ** Traces of the CUDA executor *)

Module ExecutorTrace.
Import Executor.

(** The runtime calls of a trace, in order. *)
Definition calls (tr : list event) : list cuda_call :=
  omap (λ ev, match ev with call c => Some c | _ => None end) tr.

(** The guard discipline: every guard is a guard of [device], every guard
    that is entered is left, in nested order, and every runtime call is
    issued inside a guard.  [depth] counts the guards that are open. *)
Fixpoint guarded (device : Z) (depth : nat) (tr : list event) : bool :=
  match tr with
  | [] => depth =? 0
  | guard_enter d :: tr => (d =? device)%Z && guarded device (S depth) tr
  | guard_leave d :: tr =>
    (d =? device)%Z &&
    match depth with
    | O => false
    | S depth => guarded device depth tr
    end
  | call _ :: tr => (0 <? depth) && guarded device depth tr
  end.

(** A result stops at the first failing runtime call: without an
    exception every call succeeded; a device error carries the code of
    the last call, which is the only one that failed; nothing was done
    before a Not-Supported error. *)
Definition fail_fast (runtime : cuda_call → Z) (r : result) : Prop :=
  match r.2 with
  | None => Forall (λ c, runtime c = cudaSuccess) (calls r.1)
  | Some NotSupported => r.1 = []
  | Some (CudaError code) =>
    code ≠ cudaSuccess ∧
    ∃ cs c, calls r.1 = cs ++ [c] ∧
            Forall (λ c, runtime c = cudaSuccess) cs ∧ runtime c = code
  end.

(** A copy between the host and a CUDA device: the events of a copy of
    at least one byte, by the error codes of the two runtime calls. *)
Definition host_copy (runtime : cuda_call → Z) (exec : CudaExecutor)
    (kind : cudaMemcpyKind) (num_bytes src_ptr dest_ptr : N) : result :=
  let id := cuda_device_id exec in
  let copy := cudaMemcpyAsync dest_ptr src_ptr num_bytes kind
                (cuda_stream exec) in
  let sync := cudaStreamSynchronize (cuda_stream exec) in
  if (0 <? num_bytes)%N then
    if (runtime copy =? cudaSuccess)%Z then
      ([guard_enter id; call copy; guard_enter id; call sync;
        guard_leave id; guard_leave id],
       if (runtime sync =? cudaSuccess)%Z then None
       else Some (CudaError (runtime sync)))
    else ([guard_enter id; call copy; guard_leave id],
          Some (CudaError (runtime copy)))
  else ([], None).

End ExecutorTrace.

(** ** The batch stopping criteria of [common/cuda_hip/stop/batch_criteria.hpp]

    [real_type] values are [spec_float]s of precision [prec] and maximal
    exponent [emax]; an array is the list of its elements, and reading
    the element 0 of an empty array has no result. *)

Module batch_stop.
Section Criteria.
Variables prec emax : Z.

(** [class SimpleRelResidual]: the members set by the constructor. *)
Record SimpleRelResidual : Type := {
  rel_tol_ : spec_float;
  rhs_norms_ : list spec_float
}.

Definition SimpleRelResidual_new (rel_res_tol : spec_float)
    (rhs_b_norms : list spec_float) : SimpleRelResidual :=
  {| rel_tol_ := rel_res_tol; rhs_norms_ := rhs_b_norms |}.

(** [SimpleRelResidual::check_converged] *)
Definition SimpleRelResidual_check_converged (this : SimpleRelResidual)
    (residual_norms : list spec_float) : option bool :=
  r ← residual_norms !! 0;
  b ← rhs_norms_ this !! 0;
  Some (SFleb r (SFmul prec emax (rel_tol_ this) b)).

(** [class SimpleAbsResidual]; its constructor ignores the norms of the
    right-hand side. *)
Record SimpleAbsResidual : Type := {
  abs_tol_ : spec_float
}.

Definition SimpleAbsResidual_new (tol : spec_float)
    (rhs_b_norms : list spec_float) : SimpleAbsResidual :=
  {| abs_tol_ := tol |}.

(** [SimpleAbsResidual::check_converged] *)
Definition SimpleAbsResidual_check_converged (this : SimpleAbsResidual)
    (residual_norms : list spec_float) : option bool :=
  r ← residual_norms !! 0;
  Some (SFleb r (abs_tol_ this)).

(** A float that is [+0] or [-0]. *)
Definition is_zero (x : spec_float) : bool :=
  match x with S754_zero _ => true | _ => false end.

(** A float that is neither NaN nor an infinity. *)
Definition is_finite (x : spec_float) : bool :=
  match x with S754_zero _ | S754_finite _ _ _ => true | _ => false end.

End Criteria.
End batch_stop.

(** ** The kernels of [common/unified/multigrid/fixed_coarsening_kernels.cpp]

    A device array is the list of its elements.  [IndexType] values are
    modelled by [Z] and thread indices by [nat]: the values the kernels
    store are thread indices and loop counters below the size of an
    array, which [IndexType] holds without wrap-around.  A read or a
    write through a pointer outside its array has no result. *)

Module fixed_coarsening.

(** [run_kernel(exec, fn, size, args...)]: [fn] is called once for every
    thread index below [size].  The threads run in parallel; [schedule]
    is the order in which their effects take place. *)
Fixpoint run_kernel {S : Type} (fn : nat → S → option S)
    (schedule : list nat) (s : S) : option S :=
  match schedule with
  | [] => Some s
  | tidx :: schedule => s ← fn tidx s; run_kernel fn schedule s
  end.

(** The schedules of a kernel of the given size. *)
Definition schedule_of (size : nat) (schedule : list nat) : Prop :=
  schedule ≡ₚ seq 0 size.

(** [a[i] = x] *)
Definition store (a : list Z) (i : Z) (x : Z) : option (list Z) :=
  if (0 <=? i)%Z && (Z.to_nat i <? length a)
  then Some (<[Z.to_nat i := x]> a) else None.

(** The kernel of [fill_restrict_op]. *)
Definition fill_restrict_op_kernel (coarse_data : list Z) (tidx : nat)
    (restrict_col_idxs : list Z) : option (list Z) :=
  c ← coarse_data !! tidx;
  if (0 <=? c)%Z then store restrict_col_idxs c (Z.of_nat tidx)
  else Some restrict_col_idxs.

(** [fill_restrict_op]: the new contents of [restrict_op->get_col_idxs()]. *)
Definition fill_restrict_op (schedule : list nat) (coarse_rows : list Z)
    (restrict_col_idxs : list Z) : option (list Z) :=
  run_kernel (fill_restrict_op_kernel coarse_rows) schedule
    restrict_col_idxs.

(** The [for] loop of thread 0 of [fill_coarse_indices], from [i] on with
    [n] iterations left. *)
Fixpoint coarse_indices_loop (coarse_data : list Z) (n i idx : nat)
    (coarse_map_data : list Z) : option (list Z) :=
  match n with
  | O => Some coarse_map_data
  | S n =>
    c ← coarse_data !! idx;
    if (Z.of_nat i =? c)%Z then
      m ← store coarse_map_data (Z.of_nat i) (Z.of_nat idx);
      coarse_indices_loop coarse_data n (i + 1) (idx + 1) m
    else coarse_indices_loop coarse_data n (i + 1) idx coarse_map_data
  end.

(** The kernel of [fill_coarse_indices]; [c_size] is not used. *)
Definition fill_coarse_indices_kernel (coarse_data : list Z)
    (c_size f_size : nat) (tidx : nat) (coarse_map_data : list Z)
    : option (list Z) :=
  if tidx =? 0 then coarse_indices_loop coarse_data f_size 0 0 coarse_map_data
  else Some coarse_map_data.

(** [fill_coarse_indices]: the new contents of [coarse_row_map]. *)
Definition fill_coarse_indices (schedule : list nat) (coarse_rows : list Z)
    (coarse_row_map : list Z) : option (list Z) :=
  let num_elems := length coarse_row_map in
  run_kernel (fill_coarse_indices_kernel coarse_rows num_elems num_elems)
    schedule coarse_row_map.

(** The map from fine rows to coarse indices: the [j]-th of the coarse
    rows [rows] gets the index [idx + j], the other fine rows keep what
    they had. *)
Fixpoint coarse_map (rows : list nat) (idx : nat) (map : list Z) : list Z :=
  match rows with
  | [] => map
  | r :: rows => coarse_map rows (idx + 1) (<[r := Z.of_nat idx]> map)
  end.

(** The rows [rows] are strictly increasing and none is below [i]. *)
Fixpoint increasing_from (i : nat) (rows : list nat) : Prop :=
  match rows with
  | [] => True
  | r :: rows => i ≤ r ∧ increasing_from (r + 1) rows
  end.

(** The coarse rows [rows] end at the last of [f_size] fine rows, or there
    is no fine row. *)
Definition ends_at_last_row (rows : list nat) (f_size : nat) : bool :=
  (f_size =? 0) ||
  match list.last rows with
  | Some r => r + 1 =? f_size
  | None => false
  end.

End fixed_coarsening.

(** * Properties *)

(** ** The error monad *)

Lemma outcome_bind_Ok {A B} (m : outcome A) (k : A → outcome B) (b : B) :
  m ≫= k = Ok b ↔ ∃ a, m = Ok a ∧ k a = Ok b.
Proof.
  destruct m as [a|e]; simpl; split.
  - intros H; exists a; auto.
  - intros (a' & Ha & Hk); congruence.
  - discriminate.
  - intros (a' & Ha & _); discriminate.
Qed.

Lemma outcome_bind_Throw {A B} (m : outcome A) (k : A → outcome B) e :
  m ≫= k = Throw e ↔ m = Throw e ∨ ∃ a, m = Ok a ∧ k a = Throw e.
Proof.
  destruct m as [a|e']; simpl; split.
  - intros H; right; exists a; auto.
  - intros [H|(a' & Ha & Hk)]; congruence.
  - intros H; left; congruence.
  - intros [H|(a' & Ha & _)]; [congruence|discriminate].
Qed.

Lemma at_Ok {A} (l : list A) i a : at_ l i = Ok a ↔ l !! i = Some a.
Proof. unfold at_. destruct (l !! i); split; congruence. Qed.

Lemma at_lt {A} (l : list A) i : i < length l → ∃ a, at_ l i = Ok a.
Proof.
  intros H. destruct (lookup_lt_is_Some_2 l i H) as [a Ha].
  exists a. by apply at_Ok.
Qed.

Lemma ensure_in_bounds_Ok index bound u :
  GKO_ENSURE_IN_BOUNDS index bound = Ok u ↔ index < bound.
Proof.
  unfold GKO_ENSURE_IN_BOUNDS. destruct (Nat.ltb_spec index bound), u;
    split; (congruence || lia || auto).
Qed.

(** ** Facts about the hierarchy builder *)

Section HierarchyFacts.
Context `{B : Backend}.

Lemma level_operator_app A rps rp i :
  i ≤ length rps →
  level_operator A (rps ++ [rp]) i = level_operator A rps i.
Proof.
  destruct i as [|j]; simpl; [done|]. intros H.
  by rewrite lookup_app_l by lia.
Qed.

Lemma level_operator_last A rps rp :
  level_operator A (rps ++ [rp]) (S (length rps))
  = Some (get_coarse_operator rp).
Proof.
  simpl. rewrite lookup_app_r by lia.
  by replace (length rps - length rps) with 0 by lia.
Qed.

Lemma handle_list_Ok index matrix sl ra ss rs one ss' rs' :
  handle_list index matrix sl ra ss rs one = Ok (ss', rs') ↔
  ∃ s r, handle_list_smoother index matrix sl = Ok s ∧
         handle_list_relaxation index ra one = Ok r ∧
         ss' = ss ++ [s] ∧ rs' = rs ++ [r].
Proof.
  unfold handle_list. split.
  - intros H. apply outcome_bind_Ok in H as (s & Hs & H).
    apply outcome_bind_Ok in H as (r & Hr & H).
    injection H as <- <-. by exists s, r.
  - intros (s & r & -> & -> & -> & ->). reflexivity.
Qed.

Lemma resolved_snoc A rps rpi sl ra one ss rs rp Ai s r :
  resolved A rps rpi sl ra one ss rs →
  level_operator A rps (length rps) = Some Ai →
  handle_list_smoother (rpi (length rps) Ai) Ai sl = Ok s →
  handle_list_relaxation (rpi (length rps) Ai) ra one = Ok r →
  resolved A (rps ++ [rp]) rpi sl ra one (ss ++ [s]) (rs ++ [r]).
Proof.
  intros (Hls & Hlr & Hres) Hcur Hs Hr.
  split; [rewrite !length_app; simpl; lia|].
  split; [rewrite !length_app; simpl; lia|].
  intros i Ai'. rewrite length_app. simpl. intros Hi Hop.
  rewrite level_operator_app in Hop by lia.
  destruct (decide (i = length rps)) as [->|Hne].
  - rewrite Hcur in Hop. injection Hop as <-.
    exists s, r.
    rewrite (list_lookup_middle ss [] s (length rps)) by done.
    by rewrite (list_lookup_middle rs [] r (length rps)) by done.
  - destruct (Hres i Ai') as (s' & r' & Hs' & Hr' & H1 & H2); [lia|done|].
    exists s', r'. rewrite !lookup_app_l by lia. auto.
Qed.

Lemma committed_snoc p A rpi rps rp Ai fac :
  committed p A rpi rps →
  level_operator A rps (length rps) = Some Ai →
  rstr_prlg p !! rpi (length rps) Ai = Some fac →
  rp = rp_generate fac Ai →
  get_size0 (get_coarse_operator rp) ≠ get_size0 Ai →
  length rps < max_levels p → min_coarse_rows p < get_size0 Ai →
  committed p A rpi (rps ++ [rp]).
Proof.
  intros Hc Hcur Hfac Hrp Hrows Hlev Hmin i rp' Hi.
  destruct (decide (i < length rps)) as [Hlt|Hge].
  - rewrite lookup_app_l in Hi by done.
    destruct (Hc i rp' Hi) as (Ai' & fac' & H1 & H2).
    exists Ai', fac'. by rewrite level_operator_app by lia.
  - assert (i = length rps) as ->.
    { apply lookup_lt_Some in Hi. rewrite length_app in Hi. simpl in Hi. lia. }
    rewrite lookup_app_r in Hi by lia.
    replace (length rps - length rps) with 0 in Hi by lia.
    injection Hi as <-.
    exists Ai, fac. by rewrite level_operator_app by lia.
Qed.

(** What one run of the three guarded [handle_list] calls leaves behind. *)
Lemma generate_smoothers_Ok index matrix mg mg' :
  generate_smoothers index matrix mg = Ok mg' →
  config mg' = config mg ∧
  rstr_prlg_list_ mg' = rstr_prlg_list_ mg ∧
  coarsest_solver_ mg' = coarsest_solver_ mg ∧
  (∃ s r, handle_list_smoother index matrix (pre_smoother (parameters_ mg))
            = Ok s ∧
          handle_list_relaxation index (pre_relaxation (parameters_ mg))
            (one_op_ mg) = Ok r ∧
          pre_smoother_list_ mg' = pre_smoother_list_ mg ++ [s] ∧
          pre_relaxation_list_ mg' = pre_relaxation_list_ mg ++ [r]) ∧
  match mid_case (parameters_ mg) with
  | multigrid_mid_uses.mid =>
      ∃ s r, handle_list_smoother index matrix (mid_smoother (parameters_ mg))
               = Ok s ∧
             handle_list_relaxation index (mid_relaxation (parameters_ mg))
               (one_op_ mg) = Ok r ∧
             mid_smoother_list_ mg' = mid_smoother_list_ mg ++ [s] ∧
             mid_relaxation_list_ mg' = mid_relaxation_list_ mg ++ [r]
  | _ => mid_smoother_list_ mg' = mid_smoother_list_ mg ∧
         mid_relaxation_list_ mg' = mid_relaxation_list_ mg
  end ∧
  if post_uses_pre (parameters_ mg)
  then post_smoother_list_ mg' = post_smoother_list_ mg ∧
       post_relaxation_list_ mg' = post_relaxation_list_ mg
  else ∃ s r, handle_list_smoother index matrix
                (post_smoother (parameters_ mg)) = Ok s ∧
              handle_list_relaxation index (post_relaxation (parameters_ mg))
                (one_op_ mg) = Ok r ∧
              post_smoother_list_ mg' = post_smoother_list_ mg ++ [s] ∧
              post_relaxation_list_ mg' = post_relaxation_list_ mg ++ [r].
Proof.
  unfold generate_smoothers. intros H.
  apply outcome_bind_Ok in H as ([s1 r1] & H1 & H).
  apply handle_list_Ok in H1 as (s & r & Hs & Hr & -> & ->).
  apply outcome_bind_Ok in H as (mg1 & Hmid & H).
  assert (config mg1 = config mg ∧
          rstr_prlg_list_ mg1 = rstr_prlg_list_ mg ∧
          coarsest_solver_ mg1 = coarsest_solver_ mg ∧
          pre_smoother_list_ mg1 = pre_smoother_list_ mg ++ [s] ∧
          pre_relaxation_list_ mg1 = pre_relaxation_list_ mg ++ [r] ∧
          post_smoother_list_ mg1 = post_smoother_list_ mg ∧
          post_relaxation_list_ mg1 = post_relaxation_list_ mg ∧
          match mid_case (parameters_ mg) with
          | multigrid_mid_uses.mid =>
              ∃ s r, handle_list_smoother index matrix
                       (mid_smoother (parameters_ mg)) = Ok s ∧
                     handle_list_relaxation index
                       (mid_relaxation (parameters_ mg)) (one_op_ mg) = Ok r ∧
                     mid_smoother_list_ mg1 = mid_smoother_list_ mg ++ [s] ∧
                     mid_relaxation_list_ mg1 = mid_relaxation_list_ mg ++ [r]
          | _ => mid_smoother_list_ mg1 = mid_smoother_list_ mg ∧
                 mid_relaxation_list_ mg1 = mid_relaxation_list_ mg
          end) as (Hc1 & Hrp1 & Hcs1 & Hps1 & Hpr1 & Hqs1 & Hqr1 & Hm1).
  { destruct (mid_case (parameters_ mg)).
    - injection Hmid as <-. by repeat split.
    - apply outcome_bind_Ok in Hmid as ([s2 r2] & H2 & Hmid).
      apply handle_list_Ok in H2 as (s' & r' & Hs' & Hr' & -> & ->).
      injection Hmid as <-. repeat split; try done. by exists s', r'.
    - injection Hmid as <-. by repeat split. }
  assert (parameters_ mg1 = parameters_ mg ∧ one_op_ mg1 = one_op_ mg)
    as [Hp1 Ho1] by (by injection Hc1).
  destruct (post_uses_pre (parameters_ mg)); simpl in H.
  - injection H as <-.
    split; [done|]. split; [done|]. split; [done|].
    split; [by exists s, r|]. by split.
  - apply outcome_bind_Ok in H as ([s3 r3] & H3 & H).
    apply handle_list_Ok in H3 as (s' & r' & Hs' & Hr' & -> & ->).
    injection H as <-. simpl.
    split; [done|]. split; [done|]. split; [done|].
    split; [by exists s, r|]. split; [done|].
    exists s', r'. rewrite Ho1 in Hr'. by rewrite Hqs1, Hqr1.
Qed.

Lemma config_fields mg mg' :
  config mg' = config mg →
  parameters_ mg' = parameters_ mg ∧ system_matrix_ mg' = system_matrix_ mg ∧
  rstr_prlg_index_ mg' = rstr_prlg_index_ mg ∧
  solver_index_ mg' = solver_index_ mg ∧ one_op_ mg' = one_op_ mg ∧
  neg_one_op_ mg' = neg_one_op_ mg ∧ cycle_ mg' = cycle_ mg ∧
  stop_criterion_factory_ mg' = stop_criterion_factory_ mg.
Proof. unfold config. intros H. injection H. auto 10. Qed.

(** One committed level keeps the loop invariant. *)
Lemma loop_inv_step level matrix mg mg1 fac :
  loop_inv level (get_size0 matrix) matrix mg →
  level < max_levels (parameters_ mg) →
  min_coarse_rows (parameters_ mg) < get_size0 matrix →
  rstr_prlg (parameters_ mg) !! rstr_prlg_index_ mg level matrix = Some fac →
  get_size0 (get_coarse_operator (rp_generate fac matrix))
    ≠ get_size0 matrix →
  generate_smoothers (rstr_prlg_index_ mg level matrix) matrix
    (set_rstr_prlg_list mg (rstr_prlg_list_ mg ++ [rp_generate fac matrix]))
    = Ok mg1 →
  loop_inv (level + 1)
    (get_size0 (get_coarse_operator (rp_generate fac matrix)))
    (get_coarse_operator (rp_generate fac matrix)) mg1 ∧
  config mg1 = config mg ∧ coarsest_solver_ mg1 = coarsest_solver_ mg.
Proof.
  intros [Hlen _ Hcur Hcom Hpre Hmid Hpost] Hlev Hmin Hfac Hne Hgs.
  apply generate_smoothers_Ok in Hgs
    as (Hcfg & Hrps & Hcs & Hp & Hm & Hq). simpl in *.
  destruct (config_fields _ _ Hcfg) as (Ep & EA & Ei & _ & Eo & _).
  simpl in Ep, EA, Ei, Eo. subst level.
  split; [|done].
  destruct Hp as (s & r & Hs & Hr & Hps & Hpr).
  constructor; rewrite ?Ep, ?EA, ?Ei, ?Eo, ?Hrps.
  - rewrite length_app. simpl. lia.
  - done.
  - replace (length (rstr_prlg_list_ mg) + 1)
      with (S (length (rstr_prlg_list_ mg))) by lia.
    apply level_operator_last.
  - by eapply committed_snoc.
  - rewrite Hps, Hpr. by eapply resolved_snoc.
  - destruct (mid_case (parameters_ mg)).
    + destruct Hm as [-> ->]. done.
    + destruct Hm as (s' & r' & Hs' & Hr' & -> & ->).
      by eapply resolved_snoc.
    + destruct Hm as [-> ->]. done.
  - destruct (post_uses_pre (parameters_ mg)).
    + destruct Hq as [-> ->]. done.
    + destruct Hq as (s' & r' & Hs' & Hr' & -> & ->).
      by eapply resolved_snoc.
Qed.

(** The loop keeps its invariant, never writes the configuration, and only
    leaves through its condition or through the [break]. *)
Lemma generate_loop_inv fuel :
  ∀ level num_rows matrix mg level' matrix' mg',
    loop_inv level num_rows matrix mg →
    generate_loop fuel level num_rows matrix mg = Ok (level', matrix', mg') →
    loop_inv level' (get_size0 matrix') matrix' mg' ∧
    config mg' = config mg ∧ coarsest_solver_ mg' = coarsest_solver_ mg ∧
    level ≤ level'.
Proof.
  induction fuel as [|fuel IH]; intros level num_rows matrix mg level' matrix'
    mg' Hinv H; simpl in H; [discriminate|].
  pose proof (inv_rows _ _ _ _ Hinv) as ->.
  destruct (_ && _) eqn:Hcond.
  - apply andb_true_iff in Hcond as [Hlev Hmin].
    apply Nat.ltb_lt in Hlev, Hmin.
    apply outcome_bind_Ok in H as (u & Hb & H).
    apply outcome_bind_Ok in H as (fac & Hfac & H).
    apply at_Ok in Hfac.
    destruct (Nat.eqb_spec
      (get_size0 (get_coarse_operator (rp_generate fac matrix)))
      (get_size0 matrix)) as [Heq|Hne].
    + injection H as <- <- <-. split; [done|]. split; [done|]. split; [done|lia].
    + apply outcome_bind_Ok in H as (mg1 & Hgs & H).
      destruct (loop_inv_step _ _ _ _ _ Hinv Hlev Hmin Hfac Hne Hgs)
        as (Hinv1 & Hcfg1 & Hcs1).
      destruct (IH _ _ _ _ _ _ _ Hinv1 H) as (Hinv' & Hcfg' & Hcs' & Hle).
      split; [done|]. split; [congruence|]. split; [congruence|lia].
  - injection H as <- <- <-. split; [done|]. split; [done|]. split; [done|lia].
Qed.

Lemma loop_inv_unbuilt p A scf rpi si one neg_one c :
  loop_inv 0 (get_size0 A) A (unbuilt p A scf rpi si one neg_one c).
Proof.
  assert (∀ sl ra, resolved A [] rpi sl ra one [] []) as Hnil.
  { intros sl ra. repeat split; try done. simpl. lia. }
  constructor; simpl; try done.
  - by destruct (mid_case p).
  - by destruct (post_uses_pre p).
Qed.

Lemma ensure_in_bounds_fuel index bound :
  GKO_ENSURE_IN_BOUNDS index bound ≠ Throw OutOfFuel.
Proof. unfold GKO_ENSURE_IN_BOUNDS. by destruct (_ <? _). Qed.

Lemma at_fuel {A} (l : list A) i : at_ l i ≠ Throw OutOfFuel.
Proof. unfold at_. by destruct (_ !! _). Qed.

Lemma handle_list_fuel index matrix sl ra ss rs one :
  handle_list index matrix sl ra ss rs one ≠ Throw OutOfFuel.
Proof.
  unfold handle_list. intros H.
  apply outcome_bind_Throw in H as [H|(s & _ & H)].
  - unfold handle_list_smoother in H. destruct (negb _); [|done].
    apply outcome_bind_Throw in H as [H|(u & _ & H)];
      [by apply ensure_in_bounds_fuel in H|].
    apply outcome_bind_Throw in H as [H|(it & _ & H)];
      [by apply at_fuel in H|]. by destruct it.
  - apply outcome_bind_Throw in H as [H|(r & _ & H)]; [|done].
    unfold handle_list_relaxation in H. destruct (negb _); [|done].
    apply outcome_bind_Throw in H as [H|(u & _ & H)];
      [by apply ensure_in_bounds_fuel in H|]. by destruct (_ !! _).
Qed.

Lemma generate_smoothers_fuel index matrix mg :
  generate_smoothers index matrix mg ≠ Throw OutOfFuel.
Proof.
  unfold generate_smoothers. intros H.
  apply outcome_bind_Throw in H as [H|(sr & _ & H)];
    [by apply handle_list_fuel in H|].
  apply outcome_bind_Throw in H as [H|(mg1 & _ & H)].
  - destruct (mid_case _); try discriminate.
    apply outcome_bind_Throw in H as [H|(sr' & _ & H)];
      [by apply handle_list_fuel in H|discriminate].
  - destruct (negb _); try discriminate.
    apply outcome_bind_Throw in H as [H|(sr' & _ & H)];
      [by apply handle_list_fuel in H|discriminate].
Qed.

(** The loop of [generate] always comes to an end within
    [max_levels - level + 1] evaluations of its condition. *)
Lemma generate_loop_fuel fuel :
  ∀ level num_rows matrix mg,
    max_levels (parameters_ mg) - level < fuel →
    generate_loop fuel level num_rows matrix mg ≠ Throw OutOfFuel.
Proof.
  induction fuel as [|fuel IH]; intros level num_rows matrix mg Hf; [lia|].
  simpl. destruct (_ && _) eqn:Hcond; [|done].
  apply andb_true_iff in Hcond as [Hlev _]. apply Nat.ltb_lt in Hlev.
  intros H.
  apply outcome_bind_Throw in H as [H|(u & _ & H)].
  { by apply ensure_in_bounds_fuel in H. }
  apply outcome_bind_Throw in H as [H|(fac & _ & H)].
  { by apply at_fuel in H. }
  destruct (_ =? _); [done|].
  apply outcome_bind_Throw in H as [H|(mg1 & Hgs & H)].
  { by apply generate_smoothers_fuel in H. }
  revert H. apply IH. apply generate_smoothers_Ok in Hgs as (Hcfg & _).
  apply config_fields in Hcfg as (-> & _). simpl. lia.
Qed.

Lemma generate_coarsest_Ok level matrix mg mg' :
  generate_coarsest level matrix mg = Ok mg' →
  ∃ s, mg' = set_coarsest_solver mg s.
Proof.
  unfold generate_coarsest. destruct (_ =? _).
  - intros H. injection H as <-. eauto.
  - intros H. apply outcome_bind_Ok in H as (u & _ & H).
    apply outcome_bind_Ok in H as (solver & _ & H).
    destruct solver; injection H as <-; eauto.
Qed.

Lemma share_lists_ok level matrix mg :
  loop_inv level (get_size0 matrix) matrix mg → 0 < level →
  ∀ s, hierarchy_ok (set_coarsest_solver (share_lists mg) s).
Proof.
  intros [Hlen _ Hcur Hcom Hpre Hmid Hpost] Hpos s.
  unfold share_lists.
  destruct (post_uses_pre (parameters_ mg)) eqn:Ep,
    (mid_case (parameters_ mg)) eqn:Em;
    constructor;
    unfold eff_mid_smoother, eff_mid_relaxation, eff_post_smoother,
      eff_post_relaxation;
    simpl; rewrite ?Ep, ?Em; simpl; try done; try lia;
    by eexists.
Qed.

(** The shape of a successful run of [generate] on a fresh object. *)
Lemma generate_trace_Ok p A scf rpi si one neg_one c level matrix mg' :
  generate_trace (unbuilt p A scf rpi si one neg_one c)
    = Ok (level, matrix, mg') →
  ∃ mg1,
    generate_loop (S (max_levels p)) 0 (get_size0 A) A
      (unbuilt p A scf rpi si one neg_one c) = Ok (level, matrix, mg1) ∧
    loop_inv level (get_size0 matrix) matrix mg1 ∧
    config mg1 = config (unbuilt p A scf rpi si one neg_one c) ∧
    0 < level ∧
    generate_coarsest level matrix (share_lists mg1) = Ok mg'.
Proof.
  unfold generate_trace. intros H.
  apply outcome_bind_Ok in H as ([[level1 matrix1] mg1] & Hloop & H).
  apply outcome_bind_Ok in H as (u & Hassert & H).
  apply outcome_bind_Ok in H as (mg2 & Hco & H).
  injection H as -> -> ->.
  cbn [unbuilt parameters_ system_matrix_] in Hloop.
  destruct (generate_loop_inv _ _ _ _ _ _ _ _ (loop_inv_unbuilt _ _ _ _ _ _ _ _)
              Hloop) as (Hinv & Hcfg & _ & _).
  exists mg1. split; [done|]. split; [done|]. split; [done|]. split; [|done].
  unfold GKO_ASSERT_EQ in Hassert.
  destruct (Nat.ltb_spec 0 level); [done|discriminate].
Qed.

Lemma share_lists_config mg :
  config (share_lists mg) = config mg ∧
  rstr_prlg_list_ (share_lists mg) = rstr_prlg_list_ mg.
Proof.
  unfold share_lists.
  by destruct (post_uses_pre (parameters_ mg)), (mid_case (parameters_ mg)).
Qed.

Lemma generate_ok p A scf rpi si one neg_one c mg' :
  generate (unbuilt p A scf rpi si one neg_one c) = Ok mg' →
  hierarchy_ok mg' ∧
  config mg' = config (unbuilt p A scf rpi si one neg_one c).
Proof.
  unfold generate. intros H.
  apply outcome_bind_Ok in H as ([[level matrix] mg2] & H & E).
  injection E as <-. simpl.
  apply generate_trace_Ok in H as (mg1 & _ & Hinv & Hcfg & Hpos & Hco).
  apply generate_coarsest_Ok in Hco as (s & ->).
  split; [by eapply share_lists_ok|].
  destruct (share_lists_config mg1) as [Hc _].
  rewrite <- Hcfg, <- Hc. reflexivity.
Qed.

End HierarchyFacts.

(** ** Claims on the hierarchy builder *)

Section HierarchyClaims.
Context `{B : Backend}.

Lemma handle_list_smoother_cases index matrix
    (sl : list (option LinOpFactory)) :
  handle_list_smoother index matrix sl =
  match sl with
  | [] => Ok None
  | [item] => Ok ((λ fac, lf_generate fac matrix) <$> item)
  | _ =>
    match sl !! index with
    | Some item => Ok ((λ fac, lf_generate fac matrix) <$> item)
    | None => Throw (OutOfBoundsError index (length sl))
    end
  end.
Proof.
  unfold handle_list_smoother.
  destruct sl as [|item [|item' sl]]; [done|by destruct item|].
  cbn [length negb Nat.eqb].
  unfold GKO_ENSURE_IN_BOUNDS, at_.
  destruct (Nat.ltb_spec index (S (S (length sl)))) as [Hlt|Hge].
  - destruct (lookup_lt_is_Some_2 (item :: item' :: sl) index Hlt)
      as [it Hit]. rewrite Hit.
    simpl. by destruct it.
  - by rewrite (lookup_ge_None_2 (item :: item' :: sl) index Hge).
Qed.

Lemma handle_list_relaxation_cases index (ra : list ValueType) one :
  handle_list_relaxation index ra one =
  match ra with
  | [] => Ok one
  | [a] => Ok (dense_view a)
  | _ =>
    match ra !! index with
    | Some a => Ok (dense_view a)
    | None => Throw (OutOfBoundsError index (length ra))
    end
  end.
Proof.
  unfold handle_list_relaxation.
  destruct ra as [|a [|a' ra]]; [done|done|].
  cbn [length negb Nat.eqb].
  unfold GKO_ENSURE_IN_BOUNDS.
  destruct (Nat.ltb_spec index (S (S (length ra)))) as [Hlt|Hge].
  - destruct (lookup_lt_is_Some_2 (a :: a' :: ra) index Hlt) as [it Hit].
    by rewrite Hit.
  - by rewrite (lookup_ge_None_2 (a :: a' :: ra) index Hge).
Qed.

(** Leaving the loop through the [break]: nothing is committed. *)
Lemma generate_loop_break fuel level matrix mg fac :
  level < max_levels (parameters_ mg) →
  min_coarse_rows (parameters_ mg) < get_size0 matrix →
  rstr_prlg (parameters_ mg) !! rstr_prlg_index_ mg level matrix = Some fac →
  get_size0 (get_coarse_operator (rp_generate fac matrix))
    = get_size0 matrix →
  generate_loop (S fuel) level (get_size0 matrix) matrix mg
    = Ok (level, matrix, mg).
Proof.
  intros Hlev Hmin Hfac Heq. simpl.
  apply Nat.ltb_lt in Hlev, Hmin. rewrite Hlev, Hmin. simpl.
  unfold GKO_ENSURE_IN_BOUNDS.
  apply lookup_lt_Some in Hfac as Hlt. apply Nat.ltb_lt in Hlt.
  rewrite Hlt. simpl. unfold at_. rewrite Hfac. simpl.
  apply Nat.eqb_eq in Heq. by rewrite Heq.
Qed.

(** C2 (amended).  [handle_list] resolves a factory list and a relaxation
    array as follows: an empty list gives the neutral default (no smoother,
    the relaxation [one]); a list of exactly one entry gives entry 0
    whatever the index argument is; a longer list gives the entry at the
    index argument and raises an out-of-bounds error, without clamping,
    when that index is not below the size.  The index argument that
    [generate] passes for a level is the index its coarsening selector
    returned for that level, not the level itself: in every generated
    hierarchy the pre-, mid- and post-smoother entries of each level are
    the ones [handle_list] resolves at that selector index. *)
Theorem handle_list_resolution p A scf rpi si one neg_one c mg' :
  generate (unbuilt p A scf rpi si one neg_one c) = Ok mg' →
  (∀ index matrix (sl : list (option LinOpFactory)),
     handle_list_smoother index matrix sl =
     match sl with
     | [] => Ok None
     | [item] => Ok ((λ fac, lf_generate fac matrix) <$> item)
     | _ =>
       match sl !! index with
       | Some item => Ok ((λ fac, lf_generate fac matrix) <$> item)
       | None => Throw (OutOfBoundsError index (length sl))
       end
     end) ∧
  (∀ index (ra : list ValueType) one',
     handle_list_relaxation index ra one' =
     match ra with
     | [] => Ok one'
     | [a] => Ok (dense_view a)
     | _ =>
       match ra !! index with
       | Some a => Ok (dense_view a)
       | None => Throw (OutOfBoundsError index (length ra))
       end
     end) ∧
  resolved A (rstr_prlg_list_ mg') rpi (pre_smoother p) (pre_relaxation p)
    one (pre_smoother_list_ mg') (pre_relaxation_list_ mg') ∧
  resolved A (rstr_prlg_list_ mg') rpi (eff_mid_smoother p)
    (eff_mid_relaxation p) one
    (mid_smoother_list_ mg') (mid_relaxation_list_ mg') ∧
  resolved A (rstr_prlg_list_ mg') rpi (eff_post_smoother p)
    (eff_post_relaxation p) one
    (post_smoother_list_ mg') (post_relaxation_list_ mg').
Proof.
  intros Hgen.
  split; [apply handle_list_smoother_cases|].
  split; [apply handle_list_relaxation_cases|].
  apply generate_ok in Hgen as [Hok Hcfg].
  apply config_fields in Hcfg as (Ep & EA & Ei & _ & Eo & _).
  simpl in Ep, EA, Ei, Eo.
  destruct Hok as [_ _ Hpre Hmid Hpost _].
  rewrite Ep, EA, Ei, Eo in Hpre, Hmid, Hpost. done.
Qed.

(** C3 (amended).  In every hierarchy produced by [generate], the coarse
    operator of each committed level has a row count different from that
    of the operator of its level, and a strictly smaller one when no
    configured coarsening factory ever returns more rows than it is given;
    and when, inside the loop, the produced coarse operator has exactly the
    current row count, the loop ends at once and leaves the object as it
    was: the level is not added. *)
Theorem coarse_rows_change p A scf rpi si one neg_one c mg' :
  generate (unbuilt p A scf rpi si one neg_one c) = Ok mg' →
  (∀ i rp Ai,
     rstr_prlg_list_ mg' !! i = Some rp →
     level_operator A (rstr_prlg_list_ mg') i = Some Ai →
     get_size0 (get_coarse_operator rp) ≠ get_size0 Ai ∧
     ((∀ fac M, fac ∈ rstr_prlg p →
         get_size0 (get_coarse_operator (rp_generate fac M)) ≤ get_size0 M) →
      get_size0 (get_coarse_operator rp) < get_size0 Ai)) ∧
  (∀ fuel level matrix mg fac,
     level < max_levels (parameters_ mg) →
     min_coarse_rows (parameters_ mg) < get_size0 matrix →
     rstr_prlg (parameters_ mg) !! rstr_prlg_index_ mg level matrix
       = Some fac →
     get_size0 (get_coarse_operator (rp_generate fac matrix))
       = get_size0 matrix →
     generate_loop (S fuel) level (get_size0 matrix) matrix mg
       = Ok (level, matrix, mg)).
Proof.
  intros Hgen. split.
  - apply generate_ok in Hgen as [Hok Hcfg].
    apply config_fields in Hcfg as (Ep & EA & Ei & _).
    simpl in Ep, EA, Ei.
    destruct Hok as [_ Hcom _ _ _ _]. rewrite Ep, EA, Ei in Hcom.
    intros i rp Ai Hrp HAi.
    destruct (Hcom i rp Hrp) as (Ai' & fac & HAi' & Hfac & -> & Hne & _).
    rewrite HAi in HAi'. injection HAi' as <-.
    split; [done|]. intros Hmono.
    assert (fac ∈ rstr_prlg p) as Hin by (by eapply list_elem_of_lookup_2).
    specialize (Hmono fac Ai Hin). lia.
  - intros fuel level matrix mg fac. apply generate_loop_break.
Qed.

(** C8.  When the loop of [generate] ends with no level generated,
    [generate] fails with the assertion's error instead of returning an
    empty hierarchy; this is the case when [max_levels] is zero, when the
    system matrix has no more than [min_coarse_rows] rows, and when the
    first coarsening does not change the row count.  Every hierarchy that
    [generate] returns has at least one level. *)
Theorem generate_at_least_one_level p A scf rpi si one neg_one c :
  let mg := unbuilt p A scf rpi si one neg_one c in
  (∀ mg', generate mg = Ok mg' → 1 ≤ length (rstr_prlg_list_ mg')) ∧
  (∀ matrix mg1,
     generate_loop (S (max_levels p)) 0 (get_size0 A) A mg
       = Ok (0, matrix, mg1) →
     generate mg = Throw ValueMismatch) ∧
  (max_levels p = 0 → generate mg = Throw ValueMismatch) ∧
  (get_size0 A ≤ min_coarse_rows p → generate mg = Throw ValueMismatch) ∧
  (∀ fac, 0 < max_levels p → min_coarse_rows p < get_size0 A →
     rstr_prlg p !! rpi 0 A = Some fac →
     get_size0 (get_coarse_operator (rp_generate fac A)) = get_size0 A →
     generate mg = Throw ValueMismatch).
Proof.
  intros mg.
  assert (∀ matrix mg1,
    generate_loop (S (max_levels p)) 0 (get_size0 A) A mg
      = Ok (0, matrix, mg1) →
    generate mg = Throw ValueMismatch) as Hzero.
  { intros matrix mg1 Hloop. unfold generate, generate_trace.
    cbn [mg unbuilt parameters_ system_matrix_]. fold mg.
    by rewrite Hloop. }
  split; [|split; [exact Hzero|split; [|split]]].
  - intros mg' Hgen. apply generate_ok in Hgen as [Hok _]. by destruct Hok.
  - intros H0. apply (Hzero A mg). simpl. by rewrite H0.
  - intros Hrows. apply (Hzero A mg). simpl.
    apply Nat.ltb_ge in Hrows. rewrite Hrows.
    by rewrite andb_false_r.
  - intros fac Hlev Hmin Hfac Heq. apply (Hzero A mg).
    assert (S (max_levels p) = S (max_levels (parameters_ mg))) as ->
      by done.
    by apply (generate_loop_break _ 0 A mg fac).
Qed.

End HierarchyClaims.

Section CoarsestSolverClaims.
Context `{B : Backend}.



End CoarsestSolverClaims.

(** ** The hierarchy claims on the example backend *)

Module HierarchyExamples.
Import Example.

(** C2, at a concrete input: with two coarsening strategies, the selector
    choosing the second at every level, and two pre-smoother factories,
    every level gets the smoother of the second factory. *)
Lemma handle_list_resolution_witness :
  generate (two_strategies_solver multigrid_cycle.v)
    = Ok two_strategies_hierarchy ∧
  resolved (8, 0) (rstr_prlg_list_ two_strategies_hierarchy) always_second
    (pre_smoother two_strategies) (pre_relaxation two_strategies) 1%Z
    (pre_smoother_list_ two_strategies_hierarchy)
    (pre_relaxation_list_ two_strategies_hierarchy).
Proof.
  split; [reflexivity|].
  refine (proj1 (proj2 (proj2
    (handle_list_resolution two_strategies (8, 0) 3%Z always_second
       always_first 1%Z (-1)%Z multigrid_cycle.v two_strategies_hierarchy
       _)))).
  reflexivity.
Defined.

(** C2 as stated fails: in the same hierarchy the pre-smoother of level 0
    was generated by the factory at index 1, which the selector returned,
    and not by the factory at the level's own index 0. *)
Lemma handle_list_not_at_level_index :
  generate (two_strategies_solver multigrid_cycle.v)
    = Ok two_strategies_hierarchy ∧
  1 < length (pre_smoother two_strategies) ∧
  pre_smoother_list_ two_strategies_hierarchy !! 0 = Some (Some (8, 8)) ∧
  handle_list_smoother 0 (8, 0) (pre_smoother two_strategies)
    = Ok (Some (8, 7)) ∧
  ¬ resolved (8, 0) (rstr_prlg_list_ two_strategies_hierarchy) by_level
      (pre_smoother two_strategies) (pre_relaxation two_strategies) 1%Z
      (pre_smoother_list_ two_strategies_hierarchy)
      (pre_relaxation_list_ two_strategies_hierarchy).
Proof.
  split; [reflexivity|].
  split; [simpl; lia|]. split; [reflexivity|]. split; [reflexivity|].
  intros (_ & _ & H).
  destruct (H 0 (8, 0)) as (s & r & Hs & _ & H1 & _);
    [simpl; lia|reflexivity|].
  vm_compute in Hs, H1. congruence.
Qed.

(** C3, at a concrete input: halving from 8 rows, three levels. *)
Lemma coarse_rows_change_witness :
  generate (plain_solver halve 3 fp_zero 3 multigrid_cycle.v)
    = Ok halving_hierarchy ∧
  rstr_prlg_list_ halving_hierarchy !! 2 = Some 1 ∧
  get_size0 (get_coarse_operator (1 : RestrictProlong)) ≠ 2 ∧
  get_size0 (get_coarse_operator (1 : RestrictProlong)) < 2.
Proof.
  split; [reflexivity|]. split; [reflexivity|].
  pose proof (proj1 (coarse_rows_change (plain halve 3 fp_zero) (8, 0) 3%Z
    always_first always_first 1%Z (-1)%Z multigrid_cycle.v halving_hierarchy
    ltac:(reflexivity)) 2 1 (2, 0)
    ltac:(reflexivity) ltac:(reflexivity)) as [Hne Hlt].
  split; [exact Hne|]. apply Hlt.
  intros fac M Hin. apply list_elem_of_singleton in Hin as ->.
  change (M.1 / 2 ≤ M.1). apply Nat.Div0.div_le_upper_bound. lia.
Defined.

(** C3 as stated fails: a coarsening factory that returns one row more
    than it is given has its level committed, with 9 rows under 8. *)
Lemma coarse_rows_may_grow :
  generate (plain_solver grow 1 fp_zero 3 multigrid_cycle.v)
    = Ok growing_hierarchy ∧
  rstr_prlg_list_ growing_hierarchy !! 0 = Some 9 ∧
  level_operator (system_matrix_ growing_hierarchy)
    (rstr_prlg_list_ growing_hierarchy) 0 = Some (8, 0) ∧
  get_size0 (get_coarse_operator (9 : RestrictProlong)) = 9 ∧
  ¬ get_size0 (get_coarse_operator (9 : RestrictProlong))
      < get_size0 ((8, 0) : LinOp).
Proof.
  split; [reflexivity|].
  split; [reflexivity|]. split; [reflexivity|]. split; [reflexivity|].
  simpl. lia.
Qed.


(** C8, at concrete inputs: a coarsening that keeps the row count leaves
    no level and [generate] fails; halving gives three levels. *)
Lemma generate_at_least_one_level_witness :
  generate (plain_solver keep 3 fp_zero 3 multigrid_cycle.v)
    = Throw ValueMismatch ∧
  generate (plain_solver halve 0 fp_zero 3 multigrid_cycle.v)
    = Throw ValueMismatch ∧
  generate (plain_solver halve 3 fp_zero 3 multigrid_cycle.v)
    = Ok halving_hierarchy ∧
  1 ≤ length (rstr_prlg_list_ halving_hierarchy).
Proof.
  split; [|split; [|split; [reflexivity|]]].
  - refine (proj2 (proj2 (proj2 (proj2
      (generate_at_least_one_level (plain keep 3 fp_zero) (8, 0) 3%Z
         always_first always_first 1%Z (-1)%Z multigrid_cycle.v))))
      keep _ _ _ _); [simpl; lia|simpl; lia|reflexivity|reflexivity].
  - refine (proj1 (proj2 (proj2
      (generate_at_least_one_level (plain halve 0 fp_zero) (8, 0) 3%Z
         always_first always_first 1%Z (-1)%Z multigrid_cycle.v))) _).
    reflexivity.
  - refine (proj1
      (generate_at_least_one_level (plain halve 3 fp_zero) (8, 0) 3%Z
         always_first always_first 1%Z (-1)%Z multigrid_cycle.v)
      halving_hierarchy _).
    reflexivity.
Defined.

End HierarchyExamples.

(** ** Claims on the scaled overload and on raw copies *)

Section ScaledApplyClaims.
Context `{B : Backend}.

Lemma heap_assign_same (h : heap) o v : heap_assign h o v o = v.
Proof. unfold heap_assign. by destruct o as [[]|]. Qed.

Lemma heap_assign_caller (h : heap) v o :
  heap_assign h x_clone v (of_caller o) = h (of_caller o).
Proof. unfold heap_assign. by destruct o. Qed.

(** C10.  For every [alpha], [b], [beta] and [x], with [b] pointing to
    the object of [x] or to another one, the scaled overload
    [apply_impl(alpha, b, beta, x)] first makes a clone [y] of the incoming
    [x] and runs the plain [apply(b, y)] on it.  The solve so starts from
    the same initial guess, and when it is over the objects of the caller,
    [x] among them, hold what they held at the call, whether the solve
    returned or threw.  After a solve that returned, [x] is set to
    [beta * x_old + alpha * y], which is the result of the description
    [apply_scaled_spec], and an object apart from [x] is never written;
    after a solve that threw, the call ends with the same exception and
    [x] is never written.  The clone is gone when the call is left. *)
Theorem apply_impl_scaled_refines fuel mg (alpha beta : Dense)
    (b : caller_object) (h : heap) (vb x_old : Dense) :
  h (of_caller b) = Some vb →
  h (of_caller object_of_x) = Some x_old →
  let run := apply_impl_scaled fuel mg alpha b beta h in
  ∃ cloned solved rest final,
    run.1 = cloned :: solved :: rest ++ [final] ∧
    (* the clone holds the incoming [x]; nothing of the caller is
       written by the clone or by the solve *)
    cloned x_clone = Some x_old ∧
    (∀ o, cloned (of_caller o) = h (of_caller o)) ∧
    (∀ o, solved (of_caller o) = h (of_caller o)) ∧
    final x_clone = None ∧
    match apply_impl fuel mg vb x_old with
    | Ok y =>
      solved x_clone = Some y ∧
      run.2 = None ∧
      final (of_caller object_of_x)
        = Some (dense_add_scaled alpha y (dense_scale beta x_old)) ∧
      final (of_caller object_apart) = h (of_caller object_apart) ∧
      apply_scaled_spec fuel mg alpha vb beta x_old
        = Ok (dense_add_scaled alpha y (dense_scale beta x_old))
    | Throw e =>
      run.2 = Some e ∧ rest = [] ∧
      (∀ o, final (of_caller o) = h (of_caller o)) ∧
      apply_scaled_spec fuel mg alpha vb beta x_old = Throw e
    end.
Proof.
  intros Hb Hx run.
  set (h1 := heap_assign h x_clone (Some x_old)).
  assert (∀ o, h1 (of_caller o) = h (of_caller o)) as Hframe1
    by (intros o; apply heap_assign_caller).
  assert (h1 x_clone = Some x_old) as Hclone by apply heap_assign_same.
  unfold apply_scaled_spec.
  destruct (apply_impl fuel mg vb x_old) as [y|e] eqn:Esolve.
  - set (h2 := heap_assign h1 x_clone (Some y)).
    assert (∀ o, h2 (of_caller o) = h (of_caller o)) as Hframe2.
    { intros o. unfold h2. by rewrite heap_assign_caller. }
    assert (h2 x_clone = Some y) as Hy by apply heap_assign_same.
    set (h3 := heap_assign h2 (of_caller object_of_x)
                 (Some (dense_scale beta x_old))).
    assert (h3 x_clone = Some y) as Hy3 by done.
    assert (h3 (of_caller object_of_x) = Some (dense_scale beta x_old))
      as Hx3 by apply heap_assign_same.
    set (h4 := heap_assign h3 (of_caller object_of_x)
                 (Some (dense_add_scaled alpha y (dense_scale beta x_old)))).
    assert (run = ([h1; h2; h3; h4; heap_assign h4 x_clone None], None))
      as ->.
    { subst run. unfold apply_impl_scaled. cbn [run_statements].
      unfold clone_into. rewrite Hx. fold h1.
      unfold apply_on. rewrite Hframe1, Hb, Hclone, Esolve. fold h2.
      unfold scale_on. rewrite Hframe2, Hx. fold h3.
      unfold add_scaled_on. rewrite Hy3, Hx3. fold h4. done. }
    exists h1, h2, [h3; h4], (heap_assign h4 x_clone None).
    split; [done|]. split; [done|]. split; [done|]. split; [done|].
    split; [apply heap_assign_same|].
    split; [done|]. split; [done|]. split; [done|].
    split; [|done]. rewrite heap_assign_caller.
    change (h4 (of_caller object_apart)) with (h2 (of_caller object_apart)).
    apply Hframe2.
  - set (h2 := heap_assign h1 x_clone None).
    assert (∀ o, h2 (of_caller o) = h (of_caller o)) as Hframe2.
    { intros o. unfold h2. by rewrite heap_assign_caller. }
    assert (run = ([h1; h2; heap_assign h2 x_clone None], Some e)) as ->.
    { subst run. unfold apply_impl_scaled. cbn [run_statements].
      unfold clone_into. rewrite Hx. fold h1.
      unfold apply_on. rewrite Hframe1, Hb, Hclone, Esolve. by fold h2. }
    exists h1, h2, [], (heap_assign h2 x_clone None).
    split; [done|]. split; [done|]. split; [done|]. split; [done|].
    split; [apply heap_assign_same|].
    split; [done|]. split; [done|]. split; [|done].
    intros o. by rewrite heap_assign_caller.
Qed.

End ScaledApplyClaims.

Module ScaledApplyExamples.
Import Example.

(** C10, at a concrete input: [x = 4] and a separate [b = 5] on a
    hierarchy whose criterion converges at once, with [alpha = 2] and
    [beta = 3]. *)
Lemma apply_impl_scaled_refines_witness :
  let h : heap := λ o,
    match o with
    | of_caller object_of_x => Some 4%Z
    | of_caller object_apart => Some 5%Z
    | x_clone => None
    end in
  let run := apply_impl_scaled 1 converged_hierarchy 2%Z object_apart 3%Z h in
  ∃ cloned solved rest final,
    run.1 = cloned :: solved :: rest ++ [final] ∧
    cloned x_clone = Some 4%Z ∧
    solved (of_caller object_of_x) = Some 4%Z ∧
    final x_clone = None.
Proof.
  intros h run.
  destruct (apply_impl_scaled_refines (B := backend) 1 converged_hierarchy
              2%Z 3%Z object_apart h 5%Z 4%Z eq_refl eq_refl)
    as (cloned & solved & rest & final & Hrun & Hc & _ & Hs & Hf & _).
  exists cloned, solved, rest, final.
  split; [exact Hrun|]. split; [exact Hc|].
  split; [exact (Hs object_of_x)|exact Hf].
Defined.

End ScaledApplyExamples.

Module ExecutorClaims.
Import Executor.

(** C9.  A copy from a CUDA executor to a device of another
    backend family (a DPC++ device, or a HIP device unless HIP is built on
    the NVCC platform) fails with the Not-Supported error before any
    runtime call, whatever the byte count: it is never a silent no-op.  A
    copy of at least one byte to a device of the same family is performed
    as a peer copy on the source's stream inside the source's device
    scope, followed by a synchronize of that stream, and a failing runtime
    call is surfaced with its error code; a copy of zero bytes to such a
    device issues no runtime call and succeeds. *)
Theorem raw_copy_to_families (runtime : cuda_call → Z) (nvcc : bool)
    (this : CudaExecutor) (dest : Executor) (num_bytes src_ptr dest_ptr : N) :
  (other_family nvcc dest = true →
   raw_copy_to runtime nvcc this dest num_bytes src_ptr dest_ptr
     = ([], Some NotSupported)) ∧
  (same_family nvcc dest = true →
   let id := cuda_device_id this in
   let copy := cudaMemcpyPeerAsync dest_ptr (device_of dest) src_ptr id
                 num_bytes (cuda_stream this) in
   let sync := cudaStreamSynchronize (cuda_stream this) in
   raw_copy_to runtime nvcc this dest num_bytes src_ptr dest_ptr =
   if (0 <? num_bytes)%N then
     if (runtime copy =? cudaSuccess)%Z then
       ([guard_enter id; call copy; guard_enter id; call sync;
         guard_leave id; guard_leave id],
        if (runtime sync =? cudaSuccess)%Z then None
        else Some (CudaError (runtime sync)))
     else ([guard_enter id; call copy; guard_leave id],
           Some (CudaError (runtime copy)))
   else ([], None)).
Proof.
  split.
  - destruct dest as [|d|d|d]; simpl; try discriminate.
    + unfold raw_copy_to_hip. by destruct nvcc.
    + reflexivity.
  - assert (∀ dev,
      (if (0 <? num_bytes)%N then
         cuda_scoped_device_id_guard (cuda_device_id this)
           (GKO_ASSERT_NO_CUDA_ERRORS runtime
              (cudaMemcpyPeerAsync dest_ptr dev src_ptr (cuda_device_id this)
                 num_bytes (cuda_stream this))
              (synchronize runtime this no_error))
       else no_error)
      = if (0 <? num_bytes)%N then
          if (runtime (cudaMemcpyPeerAsync dest_ptr dev src_ptr
                         (cuda_device_id this) num_bytes (cuda_stream this))
              =? cudaSuccess)%Z then
            ([guard_enter (cuda_device_id this);
              call (cudaMemcpyPeerAsync dest_ptr dev src_ptr
                      (cuda_device_id this) num_bytes (cuda_stream this));
              guard_enter (cuda_device_id this);
              call (cudaStreamSynchronize (cuda_stream this));
              guard_leave (cuda_device_id this);
              guard_leave (cuda_device_id this)],
             if (runtime (cudaStreamSynchronize (cuda_stream this))
                 =? cudaSuccess)%Z then None
             else Some (CudaError
                          (runtime (cudaStreamSynchronize (cuda_stream this)))))
          else ([guard_enter (cuda_device_id this);
                 call (cudaMemcpyPeerAsync dest_ptr dev src_ptr
                         (cuda_device_id this) num_bytes (cuda_stream this));
                 guard_leave (cuda_device_id this)],
                Some (CudaError
                        (runtime (cudaMemcpyPeerAsync dest_ptr dev src_ptr
                                    (cuda_device_id this) num_bytes
                                    (cuda_stream this)))))
        else ([], None)) as Hpeer.
    { intros dev. destruct (0 <? num_bytes)%N; [|reflexivity].
      unfold cuda_scoped_device_id_guard, GKO_ASSERT_NO_CUDA_ERRORS,
        synchronize, no_error.
      destruct (runtime (cudaMemcpyPeerAsync _ _ _ _ _ _) =? cudaSuccess)%Z;
        [|reflexivity].
      unfold cuda_scoped_device_id_guard, GKO_ASSERT_NO_CUDA_ERRORS.
      by destruct (runtime (cudaStreamSynchronize _) =? cudaSuccess)%Z. }
    destruct dest as [|d|d|d]; simpl; try discriminate.
    + intros _. apply Hpeer.
    + intros ->. unfold raw_copy_to_hip. apply Hpeer.
Qed.

(** C9, at a concrete input: eight bytes from device 0 to device 1 with a
    runtime that reports success. *)
Lemma raw_copy_to_families_witness :
  let this := {| cuda_device_id := 0; cuda_stream := 7 |} in
  let dest := Cuda {| cuda_device_id := 1; cuda_stream := 9 |} in
  same_family false dest = true ∧
  raw_copy_to (λ _, cudaSuccess) false this dest 8 100 200
  = ([guard_enter 0; call (cudaMemcpyPeerAsync 200 1 100 0 8 7);
      guard_enter 0; call (cudaStreamSynchronize 7);
      guard_leave 0; guard_leave 0], None) ∧
  other_family false (Dpcpp {| dpcpp_device_id := 0 |}) = true ∧
  raw_copy_to (λ _, cudaSuccess) false this
    (Dpcpp {| dpcpp_device_id := 0 |}) 0 100 200 = ([], Some NotSupported).
Proof.
  intros this dest.
  split; [reflexivity|]. split.
  - exact (proj2 (raw_copy_to_families (λ _, cudaSuccess) false this dest
                    8 100 200) eq_refl).
  - split; [reflexivity|].
    exact (proj1 (raw_copy_to_families (λ _, cudaSuccess) false this
                    (Dpcpp {| dpcpp_device_id := 0 |}) 0 100 200) eq_refl).
Defined.

(** The empty request: between two CUDA devices a copy of zero bytes is
    nothing to perform, and issues no peer copy and no other call. *)
Lemma raw_copy_to_zero_bytes_no_peer_copy :
  let this := {| cuda_device_id := 0; cuda_stream := 7 |} in
  let dest := Cuda {| cuda_device_id := 1; cuda_stream := 9 |} in
  same_family false dest = true ∧
  raw_copy_to (λ _, cudaSuccess) false this dest 0 100 200 = ([], None) ∧
  ¬ (∃ c, In (call c)
            (raw_copy_to (λ _, cudaSuccess) false this dest 0 100 200).1).
Proof.
  intros this dest. split; [reflexivity|]. split; [reflexivity|].
  intros (c & Hin). exact Hin.
Qed.

End ExecutorClaims.

(** ** The cycle monad *)

Section MonadFacts.
Context `{B : Backend}.

Lemma M_bind_Ok {A C} (m : M A) (k : A → M C) mem c mem2 tr :
  (m ≫= k) mem = Ok (c, mem2, tr) ↔
  ∃ a mem1 tr1 tr2, m mem = Ok (a, mem1, tr1) ∧
    k a mem1 = Ok (c, mem2, tr2) ∧ tr = tr1 ++ tr2.
Proof.
  unfold mbind, M_bind. split.
  - destruct (m mem) as [[[a mem1] tr1]|e] eqn:Hm; [|discriminate].
    destruct (k a mem1) as [[[c' mem2'] tr2]|e] eqn:Hk; [|discriminate].
    intros H. injection H as <- <- <-. by exists a, mem1, tr1, tr2.
  - intros (a & mem1 & tr1 & tr2 & -> & -> & ->). reflexivity.
Qed.

Lemma M_ret_Ok {A} (a a' : A) mem mem' tr :
  (mret a : M A) mem = Ok (a', mem', tr) ↔ a' = a ∧ mem' = mem ∧ tr = [].
Proof.
  unfold mret, M_ret. split.
  - intros H. by injection H as <- <- <-.
  - intros (-> & -> & ->). reflexivity.
Qed.

Lemma nested_Ok wrap (m : M unit) mem u mem' tr :
  nested wrap m mem = Ok (u, mem', tr) ↔
  ∃ inner, m mem = Ok (u, mem', inner) ∧ tr = [wrap inner].
Proof.
  unfold nested. split.
  - destruct (m mem) as [[[a mem1] tr1]|e] eqn:Hm; [|discriminate].
    intros H. injection H as <- <- <-. by exists tr1.
  - intros (inner & -> & ->). reflexivity.
Qed.

Lemma frame_refl mem : frame mem mem.
Proof. by constructor. Qed.

Lemma frame_trans mem1 mem2 mem3 :
  frame mem1 mem2 → frame mem2 mem3 → frame mem1 mem3.
Proof.
  intros [] []. constructor; intros; congruence.
Qed.

Lemma ptr_valid_frame mem mem' p :
  frame mem mem' → ptr_valid mem p → ptr_valid mem' p.
Proof. intros [Hl _ _ _ _ _ _]. destruct p; simpl; [done|done|]. by rewrite Hl. Qed.

Lemma norm_ptr_valid_frame mem mem' p :
  frame mem mem' → norm_ptr_valid mem p → norm_ptr_valid mem' p.
Proof. intros [_ Hn _ _ _ _ _]. destruct p; simpl. by rewrite Hn. Qed.

Lemma safe_ret {A} (a : A) mem (Q : A → Prop) : Q a → safe (mret a) mem Q.
Proof. intros H. exists a, mem, []. split; [done|]. split; [apply frame_refl|done]. Qed.

Lemma safe_bind {A C} (m : M A) (k : A → M C) mem (Q1 : A → Prop)
    (Q2 : C → Prop) :
  safe m mem Q1 →
  (∀ a mem1, Q1 a → frame mem mem1 → safe (k a) mem1 Q2) →
  safe (m ≫= k) mem Q2.
Proof.
  intros (a & mem1 & tr1 & Hm & Hf1 & Hq) Hk.
  destruct (Hk a mem1 Hq Hf1) as (c & mem2 & tr2 & Hk' & Hf2 & Hq2).
  exists c, mem2, (tr1 ++ tr2). split; [|split; [|done]].
  - apply M_bind_Ok. by exists a, mem1, tr1, tr2.
  - by eapply frame_trans.
Qed.

Lemma safe_mono {A} (m : M A) mem (Q Q' : A → Prop) :
  safe m mem Q → (∀ a, Q a → Q' a) → safe m mem Q'.
Proof.
  intros (a & mem1 & tr1 & Hm & Hf1 & Hq) HQ. exists a, mem1, tr1. auto.
Qed.

Lemma safe_nested wrap (m : M unit) mem (Q : unit → Prop) :
  safe m mem Q → safe (nested wrap m) mem Q.
Proof.
  intros (a & mem1 & tr1 & Hm & Hf1 & Hq).
  exists a, mem1, [wrap tr1]. split; [|done].
  apply nested_Ok. by exists tr1.
Qed.

Lemma safe_get_state mem :
  safe get_state mem (λ st, st = state mem).
Proof. exists (state mem), mem, []. split; [done|]. split; [apply frame_refl|done]. Qed.

Lemma safe_emit ev mem : safe (emit ev) mem (λ _, True).
Proof. exists (), mem, [ev]. split; [done|]. split; [apply frame_refl|done]. Qed.

Lemma safe_list_at l i mem :
  i < length (lists (state mem) l) →
  safe (list_at l i) mem (λ p, p = elem l i).
Proof.
  intros H. exists (elem l i), mem, []. unfold list_at.
  apply Nat.ltb_lt in H. rewrite H.
  split; [done|]. split; [apply frame_refl|done].
Qed.

Lemma safe_norm_list_at l i mem :
  i < length (norm_lists (state mem) l) →
  safe (norm_list_at l i) mem (λ p, p = norm_elem l i).
Proof.
  intros H. exists (norm_elem l i), mem, []. unfold norm_list_at.
  apply Nat.ltb_lt in H. rewrite H.
  split; [done|]. split; [apply frame_refl|done].
Qed.

Lemma safe_vector_at {A} (l : list A) i mem :
  i < length l → safe (vector_at l i) mem (λ a, l !! i = Some a).
Proof.
  intros H. destruct (lookup_lt_is_Some_2 l i H) as [a Ha].
  exists a, mem, []. unfold vector_at, at_. rewrite Ha.
  split; [done|]. split; [apply frame_refl|done].
Qed.

Lemma read_valid mem p : ptr_valid mem p → is_Some (read mem p).
Proof.
  destruct p as [| |l i]; simpl; [by eexists|by eexists|].
  apply lookup_lt_is_Some_2.
Qed.

Lemma norm_read_valid mem p :
  norm_ptr_valid mem p → is_Some (norm_read mem p).
Proof. destruct p as [l i]; simpl. apply lookup_lt_is_Some_2. Qed.

Lemma frame_write p d mem : frame mem (write p d mem).
Proof.
  destruct p as [| |l i]; constructor; simpl; try done.
  intros l'. destruct (list_id_eqb l' l); [by rewrite length_insert|done].
Qed.

Lemma frame_norm_write p d mem : frame mem (norm_write p d mem).
Proof.
  destruct p as [l i]; constructor; simpl; try done.
  intros l'. destruct (norm_list_id_eqb l' l); [by rewrite length_insert|done].
Qed.

Lemma safe_load p mem : ptr_valid mem p → safe (load p) mem (λ _, True).
Proof.
  intros H. destruct (read_valid _ _ H) as [d Hd].
  exists d, mem, []. unfold load. rewrite Hd.
  split; [done|]. split; [apply frame_refl|done].
Qed.

Lemma safe_norm_load p mem :
  norm_ptr_valid mem p → safe (norm_load p) mem (λ _, True).
Proof.
  intros H. destruct (norm_read_valid _ _ H) as [d Hd].
  exists d, mem, []. unfold norm_load. rewrite Hd.
  split; [done|]. split; [apply frame_refl|done].
Qed.

Lemma safe_store p d mem : safe (store p d) mem (λ _, True).
Proof.
  exists (), (write p d mem), []. split; [done|].
  split; [apply frame_write|done].
Qed.

Lemma safe_norm_store p d mem : safe (norm_store p d) mem (λ _, True).
Proof.
  exists (), (norm_write p d mem), []. split; [done|].
  split; [apply frame_norm_write|done].
Qed.

(** Computations are functions: a run that is known to be safe and known
    to end in some memory ends within the frame. *)
Lemma safe_Ok {A} (m : M A) mem (Q : A → Prop) a mem' tr :
  safe m mem Q → m mem = Ok (a, mem', tr) → frame mem mem' ∧ Q a.
Proof.
  intros (a' & mem1 & tr1 & Hm & Hf & Hq) H. rewrite Hm in H.
  injection H as <- <- <-. done.
Qed.

Lemma safe_frame {A} (m : M A) mem (Q : A → Prop) a mem' tr :
  m mem = Ok (a, mem', tr) → safe m mem Q → frame mem mem'.
Proof. intros H Hs. by destruct (safe_Ok _ _ _ _ _ _ Hs H). Qed.

End MonadFacts.

(** ** The collaborator calls never fail on valid pointers *)

Ltac valid :=
  solve [ eauto using ptr_valid_frame, norm_ptr_valid_frame ].

Ltac prim :=
  first
    [ apply safe_get_state
    | apply safe_emit
    | apply safe_store
    | apply safe_norm_store
    | apply safe_load; valid
    | apply safe_norm_load; valid ].

Ltac bind_prim :=
  match goal with
  | Hf : frame ?mem0 ?mem |- safe (_ ≫= _) ?mem _ =>
    eapply safe_bind;
    [ prim
    | let a := fresh "a" in
      let mem1 := fresh "mem" in
      let Hq := fresh "Hq" in
      let Hf' := fresh "Hf" in
      intros a mem1 Hq Hf';
      pose proof (frame_trans _ _ _ Hf Hf');
      clear Hf Hf' ]
  end.

Ltac run_prims :=
  repeat bind_prim;
  try (eapply safe_mono; [prim|done]).

Section SafeCalls.
Context `{B : Backend}.

Lemma safe_do_copy_from dst src mem :
  ptr_valid mem src → safe (do_copy_from dst src) mem (λ _, True).
Proof.
  intros Hs. pose proof (frame_refl mem) as Hf.
  unfold do_copy_from. run_prims.
Qed.

Lemma safe_do_apply op b x mem :
  ptr_valid mem b → ptr_valid mem x → safe (do_apply op b x) mem (λ _, True).
Proof.
  intros Hb Hx. pose proof (frame_refl mem) as Hf.
  unfold do_apply. run_prims.
Qed.

Lemma safe_do_apply4 op alpha b beta x mem :
  ptr_valid mem b → ptr_valid mem x →
  safe (do_apply4 op alpha b beta x) mem (λ _, True).
Proof.
  intros Hb Hx. pose proof (frame_refl mem) as Hf.
  unfold do_apply4. run_prims.
Qed.

Lemma safe_do_restrict_apply rp r g mem :
  ptr_valid mem r → ptr_valid mem g →
  safe (do_restrict_apply rp r g) mem (λ _, True).
Proof.
  intros Hr Hg. pose proof (frame_refl mem) as Hf.
  unfold do_restrict_apply. run_prims.
Qed.

Lemma safe_do_prolong_applyadd rp e x mem :
  ptr_valid mem e → ptr_valid mem x →
  safe (do_prolong_applyadd rp e x) mem (λ _, True).
Proof.
  intros He Hx. pose proof (frame_refl mem) as Hf.
  unfold do_prolong_applyadd. run_prims.
Qed.

Lemma safe_do_compute_dot t u result mem :
  ptr_valid mem t → ptr_valid mem u →
  safe (do_compute_dot t u result) mem (λ _, True).
Proof.
  intros Ht Hu. pose proof (frame_refl mem) as Hf.
  unfold do_compute_dot. run_prims.
Qed.

Lemma safe_do_compute_norm2 g result mem :
  ptr_valid mem g → safe (do_compute_norm2 g result) mem (λ _, True).
Proof.
  intros Hg. pose proof (frame_refl mem) as Hf.
  unfold do_compute_norm2. run_prims.
Qed.

Lemma safe_do_kcycle_step_1 alpha rho v g d e mem :
  ptr_valid mem alpha → ptr_valid mem rho → ptr_valid mem v →
  ptr_valid mem g → ptr_valid mem d → ptr_valid mem e →
  safe (do_kcycle_step_1 alpha rho v g d e) mem (λ _, True).
Proof.
  intros Ha Hr Hv Hg Hd He. pose proof (frame_refl mem) as Hf.
  unfold do_kcycle_step_1. repeat bind_prim.
  destruct (kcycle_step_1 _ _ _ _ _ _) as [[g' d'] e']. run_prims.
Qed.

Lemma safe_do_kcycle_check_stop old_norm new_norm mem :
  norm_ptr_valid mem old_norm → norm_ptr_valid mem new_norm →
  safe (do_kcycle_check_stop old_norm new_norm) mem (λ _, True).
Proof.
  intros Ho Hn. pose proof (frame_refl mem) as Hf.
  unfold do_kcycle_check_stop. repeat bind_prim. by apply safe_ret.
Qed.

Lemma safe_do_kcycle_step_2 alpha rho gamma beta zeta d e mem :
  ptr_valid mem alpha → ptr_valid mem rho → ptr_valid mem gamma →
  ptr_valid mem beta → ptr_valid mem zeta → ptr_valid mem d →
  ptr_valid mem e →
  safe (do_kcycle_step_2 alpha rho gamma beta zeta d e) mem (λ _, True).
Proof.
  intros Ha Hr Hg Hb Hz Hd He. pose proof (frame_refl mem) as Hf.
  unfold do_kcycle_step_2. run_prims.
Qed.

Lemma safe_compute_residual matrix b x r mem :
  ptr_valid mem b → ptr_valid mem x → ptr_valid mem r →
  safe (compute_residual matrix b x r) mem (λ _, True).
Proof.
  intros Hb Hx Hr. unfold compute_residual.
  eapply safe_bind; [apply safe_get_state|]. intros st mem1 -> Hf1.
  eapply safe_bind; [apply safe_do_copy_from; valid|].
  intros _ mem2 _ Hf2.
  pose proof (frame_trans _ _ _ Hf1 Hf2) as Hf.
  apply safe_do_apply4; valid.
Qed.

Lemma safe_coarsest_solve b x mem :
  is_Some (coarsest_solver_ (multigrid (state mem))) →
  ptr_valid mem b → ptr_valid mem x →
  safe (coarsest_solve b x) mem (λ _, True).
Proof.
  intros [s Hs] Hb Hx. unfold coarsest_solve.
  eapply safe_bind; [apply safe_get_state|]. intros st mem1 -> Hf1.
  rewrite Hs. apply safe_do_apply; valid.
Qed.

End SafeCalls.

(** ** A cycle on a ready memory runs to completion *)

Ltac chain_frame :=
  match goal with
  | Hf : frame ?mem0 ?mem1, Hf' : frame ?mem1 ?mem2 |- _ =>
    let Hn := fresh "Hfr" in
    pose proof (frame_trans _ _ _ Hf Hf') as Hn;
    clear Hf Hf'; rename Hn into Hf
  end.

(** One bind: the first computation is discharged by [tac], the frame is
    extended to the memory it leaves. *)
Ltac step_with tac :=
  match goal with
  | Hf : frame ?mem0 ?mem |- safe (_ ≫= _) ?mem _ =>
    eapply safe_bind;
    [ tac
    | let a := fresh "a" in
      let mem1 := fresh "mem" in
      let Hq := fresh "Hq" in
      let Hf' := fresh "Hf" in
      let Hn := fresh "Hfr" in
      intros a mem1 Hq Hf';
      cbv beta in Hq; try subst a;
      pose proof (frame_trans _ _ _ Hf Hf') as Hn;
      clear Hf Hf'; rename Hn into Hf ]
  end.

Section CycleTotal.
Context `{B : Backend}.

Lemma total_level_frame mem mem' :
  frame mem mem' → total_level mem' = total_level mem.
Proof. intros Hf. unfold total_level. by rewrite (fr_multigrid _ _ Hf). Qed.

Lemma ready_frame cycle mem mem' :
  frame mem mem' → ready cycle mem → ready cycle mem'.
Proof.
  intros Hf Hr. pose proof (total_level_frame _ _ Hf) as HL.
  destruct Hf as [Hl Hn Hm Ho Hno Hk Ht], Hr as [R1 R2 R3 R4 R5 R6 R7 R8 R9].
  constructor; rewrite ?Hm, ?HL, ?Hk; try done.
  - intros l Hl'. rewrite Hl. by apply R1.
  - intros Hc. destruct (R9 Hc) as [Hk0 Hlev]. split; [done|].
    intros level Hlt Hmod. destruct (Hlev level Hlt Hmod) as [H1 H2].
    split; intros l; rewrite ?Hl, ?Hn; auto.
Qed.

Lemma ready_not_kcycle cycle cycle' mem :
  is_kcycle cycle' = false → ready cycle mem → ready cycle' mem.
Proof.
  intros Hc [R1 R2 R3 R4 R5 R6 R7 R8 R9]. constructor; try done.
  intros Hc'. congruence.
Qed.

Lemma safe_next_level_or_solve rec n cycle level rp b x mem :
  rec_safe rec n → ready cycle mem → level < total_level mem →
  total_level mem - level ≤ S n →
  ptr_valid mem b → ptr_valid mem x →
  safe (next_level_or_solve rec cycle level (total_level mem) rp b x) mem
    (λ _, True).
Proof.
  intros Hrec Hr Hlev Hn Hb Hx. unfold next_level_or_solve.
  destruct (Nat.eqb_spec (level + 1) (total_level mem)) as [Heq|Hne].
  - apply safe_coarsest_solve; [apply Hr|done|done].
  - apply safe_nested. apply Hrec; try done; lia.
Qed.

Lemma safe_second_cycle rec n cycle level matrix rp mid_smoother
    mid_relaxation b x r g e mem :
  rec_safe rec n → ready cycle mem → level < total_level mem →
  total_level mem - level ≤ S n →
  ptr_valid mem b → ptr_valid mem x → ptr_valid mem r → ptr_valid mem g →
  ptr_valid mem e →
  safe (second_cycle rec cycle level (total_level mem) matrix rp mid_smoother
          mid_relaxation b x r g e) mem (λ _, True).
Proof.
  intros Hrec Hr Hlev Hn Hb Hx Hpr Hg He. unfold second_cycle.
  pose proof (frame_refl mem) as Hf.
  step_with ltac:(apply safe_get_state).
  step_with ltac:(apply safe_do_prolong_applyadd; valid).
  step_with ltac:(apply safe_compute_residual; valid).
  step_with ltac:(
    destruct mid_smoother as [smoother|];
    [ eapply safe_bind;
      [ apply safe_do_apply4; valid
      | intros ? ? _ Hf'; chain_frame; apply safe_compute_residual; valid ]
    | by apply safe_ret ]).
  step_with ltac:(apply safe_do_restrict_apply; valid).
  rewrite <- (total_level_frame _ _ Hf).
  eapply safe_next_level_or_solve; try done.
  - destruct (multigrid_cycle.eqb cycle multigrid_cycle.f).
    + eapply ready_not_kcycle; [done|]. by eapply ready_frame.
    + by eapply ready_frame.
  - by rewrite (total_level_frame _ _ Hf).
  - by rewrite (total_level_frame _ _ Hf).
  - valid.
  - valid.
Qed.

Lemma safe_kcycle_first_iteration is_fcg matrix alpha rho v g d e old_norm
    mem :
  ptr_valid mem alpha → ptr_valid mem rho → ptr_valid mem v →
  ptr_valid mem g → ptr_valid mem d → ptr_valid mem e →
  safe (kcycle_first_iteration is_fcg matrix alpha rho v g d e old_norm) mem
    (λ _, True).
Proof.
  intros Ha Hr Hv Hg Hd He. unfold kcycle_first_iteration.
  pose proof (frame_refl mem) as Hf.
  step_with ltac:(apply safe_get_state).
  step_with ltac:(apply safe_do_apply; valid).
  step_with ltac:(apply safe_do_compute_dot; destruct is_fcg; valid).
  step_with ltac:(apply safe_do_compute_dot; destruct is_fcg; valid).
  step_with ltac:(
    destruct (_ && _);
    [apply safe_do_compute_norm2; valid|by apply safe_ret]).
  apply safe_do_kcycle_step_1; valid.
Qed.

Lemma safe_kcycle_stop_check g old_norm new_norm mem :
  ptr_valid mem g → norm_ptr_valid mem old_norm →
  norm_ptr_valid mem new_norm →
  safe (kcycle_stop_check g old_norm new_norm) mem (λ _, True).
Proof.
  intros Hg Ho Hn. unfold kcycle_stop_check.
  pose proof (frame_refl mem) as Hf.
  step_with ltac:(apply safe_get_state).
  destruct (_ && _); [|by apply safe_ret].
  step_with ltac:(apply safe_do_compute_norm2; valid).
  apply safe_do_kcycle_check_stop; valid.
Qed.

Lemma safe_kcycle_second_iteration rec n cycle level is_fcg matrix rp
    alpha rho gamma beta zeta v w d g e mem :
  rec_safe rec n → ready cycle mem → level < total_level mem →
  total_level mem - level ≤ S n →
  ptr_valid mem alpha → ptr_valid mem rho → ptr_valid mem gamma →
  ptr_valid mem beta → ptr_valid mem zeta → ptr_valid mem v →
  ptr_valid mem w → ptr_valid mem d → ptr_valid mem g → ptr_valid mem e →
  safe (kcycle_second_iteration rec cycle level (total_level mem) is_fcg
          matrix rp alpha rho gamma beta zeta v w d g e) mem (λ _, True).
Proof.
  intros Hrec Hrd Hlev Hn Ha Hr Hga Hb Hz Hv Hw Hd Hg He.
  unfold kcycle_second_iteration.
  pose proof (frame_refl mem) as Hf.
  step_with ltac:(eapply safe_next_level_or_solve; done).
  step_with ltac:(apply safe_do_apply; valid).
  step_with ltac:(apply safe_do_compute_dot; destruct is_fcg; valid).
  step_with ltac:(apply safe_do_compute_dot; destruct is_fcg; valid).
  step_with ltac:(apply safe_do_compute_dot; destruct is_fcg; valid).
  apply safe_do_kcycle_step_2; valid.
Qed.

Lemma safe_kcycle rec n cycle level rp g e mem :
  rec_safe rec n → ready cycle mem → is_kcycle cycle = true →
  level < total_level mem → level mod k_base (state mem) = 0 →
  total_level mem - level ≤ S n →
  ptr_valid mem g → ptr_valid mem e →
  safe (kcycle rec cycle level (total_level mem) rp g e) mem (λ _, True).
Proof.
  intros Hrec Hrd Hk Hlev Hmod Hn Hg He. unfold kcycle.
  destruct (rd_kcycle _ _ Hrd Hk) as [Hk0 Hidx].
  destruct (Hidx level Hlev Hmod) as [Hls Hns].
  pose proof (frame_refl mem) as Hf.
  step_with ltac:(apply safe_get_state).
  do 8 step_with ltac:(
    apply safe_list_at; rewrite (fr_lists _ _ Hf); by apply Hls).
  do 2 step_with ltac:(
    apply safe_norm_list_at; rewrite (fr_norms _ _ Hf); by apply Hns).
  assert (∀ l, k_list l = true →
            ptr_valid mem (elem l (level / k_base (state mem)))) as Hkv.
  { intros l Hl. by apply Hls. }
  assert (∀ l, norm_ptr_valid mem
                 (norm_elem l (level / k_base (state mem)))) as Hnv.
  { intros l. by apply Hns. }
  step_with ltac:(
    apply safe_kcycle_first_iteration;
    solve [valid | eapply ptr_valid_frame; [done|by apply Hkv]]).
  step_with ltac:(
    apply safe_kcycle_stop_check;
    solve [valid | eapply norm_ptr_valid_frame; [done|by apply Hnv]]).
  destruct (_ || _); [|by apply safe_ret].
  rewrite <- (total_level_frame _ _ Hf).
  eapply safe_kcycle_second_iteration; try done;
    try (rewrite (total_level_frame _ _ Hf); done);
    try solve [by eapply ready_frame | valid
              | eapply ptr_valid_frame; [done|by apply Hkv]].
Qed.

Lemma safe_additional_work rec n cycle level matrix rp mid_smoother
    mid_relaxation b x r g e mem :
  rec_safe rec n → ready cycle mem → level < total_level mem →
  total_level mem - level ≤ S n →
  ptr_valid mem b → ptr_valid mem x → ptr_valid mem r → ptr_valid mem g →
  ptr_valid mem e →
  safe (additional_work rec cycle level (total_level mem) matrix rp
          mid_smoother mid_relaxation b x r g e) mem (λ _, True).
Proof.
  intros Hrec Hrd Hlev Hn Hb Hx Hpr Hg He. unfold additional_work.
  eapply safe_bind; [apply safe_get_state|]. intros st mem1 -> Hf.
  rewrite <- (total_level_frame _ _ Hf).
  destruct (_ || _).
  { eapply safe_second_cycle; try done;
      try (rewrite (total_level_frame _ _ Hf); done);
      solve [by eapply ready_frame | valid]. }
  destruct (is_kcycle cycle) eqn:Hk; [|by apply safe_ret].
  destruct (rd_kcycle _ _ Hrd Hk) as [Hk0 _].
  destruct (Nat.eqb_spec (k_base (state mem)) 0) as [|_]; [done|].
  destruct (Nat.eqb_spec (level mod k_base (state mem)) 0) as [Hmod|_];
    [|by apply safe_ret].
  eapply safe_kcycle; try done;
    try (rewrite (total_level_frame _ _ Hf); done);
    try solve [by eapply ready_frame | valid].
  by rewrite (fr_k_base _ _ Hf).
Qed.

Lemma safe_run_cycle_body rec n cycle level matrix b x mem :
  rec_safe rec n → ready cycle mem → level < total_level mem →
  total_level mem - level ≤ S n →
  ptr_valid mem b → ptr_valid mem x →
  safe (run_cycle_body rec cycle level matrix b x) mem (λ _, True).
Proof.
  intros Hrec Hrd Hlev Hn Hb Hx. unfold run_cycle_body.
  pose proof (frame_refl mem) as Hf.
  step_with ltac:(apply safe_get_state).
  do 3 step_with ltac:(
    apply safe_list_at; rewrite (fr_lists _ _ Hf);
    by rewrite (rd_levels _ _ Hrd)).
  assert (ptr_valid mem (elem r_list level)) as Hvr
    by (simpl; by rewrite (rd_levels _ _ Hrd)).
  assert (ptr_valid mem (elem g_list level)) as Hvg
    by (simpl; by rewrite (rd_levels _ _ Hrd)).
  assert (ptr_valid mem (elem e_list level)) as Hve
    by (simpl; by rewrite (rd_levels _ _ Hrd)).
  step_with ltac:(apply safe_vector_at; exact Hlev).
  step_with ltac:(apply safe_vector_at;
                  by rewrite (rd_pre_smoother _ _ Hrd)).
  step_with ltac:(apply safe_vector_at;
                  by rewrite (rd_pre_relaxation _ _ Hrd)).
  step_with ltac:(apply safe_vector_at;
                  by rewrite (rd_mid_smoother _ _ Hrd)).
  step_with ltac:(apply safe_vector_at;
                  by rewrite (rd_mid_relaxation _ _ Hrd)).
  step_with ltac:(apply safe_vector_at;
                  by rewrite (rd_post_smoother _ _ Hrd)).
  step_with ltac:(apply safe_vector_at;
                  by rewrite (rd_post_relaxation _ _ Hrd)).
  step_with ltac:(
    destruct (negb _);
    [apply safe_compute_residual; valid|by apply safe_ret]).
  step_with ltac:(
    match goal with
    | |- safe (match ?o with _ => _ end) _ _ => destruct o
    end;
    [ eapply safe_bind;
      [ apply safe_do_apply4; valid
      | intros ? ? _ Hf'; chain_frame; apply safe_compute_residual; valid ]
    | by apply safe_ret ]).
  step_with ltac:(apply safe_do_restrict_apply; valid).
  change (length (rstr_prlg_list_ (multigrid (state mem))))
    with (total_level mem).
  step_with ltac:(
    rewrite <- (total_level_frame _ _ Hf);
    eapply safe_next_level_or_solve; try done;
    try (rewrite (total_level_frame _ _ Hf); done);
    solve [by eapply ready_frame | valid]).
  step_with ltac:(
    rewrite <- (total_level_frame _ _ Hf);
    eapply safe_additional_work; try done;
    try (rewrite (total_level_frame _ _ Hf); done);
    solve [by eapply ready_frame | valid]).
  step_with ltac:(apply safe_do_prolong_applyadd; valid).
  match goal with
  | |- safe (match ?o with _ => _ end) _ _ => destruct o
  end; [|by apply safe_ret].
  eapply safe_bind;
    [ apply safe_compute_residual; valid
    | intros ? ? _ Hf'; chain_frame; apply safe_do_apply4; valid ].
Qed.

(** The recursion of [run_cycle] ends: from a ready memory and a level of
    the hierarchy, with the number of levels below as fuel, a cycle runs
    to completion and leaves a memory of the same frame. *)
Lemma run_cycle_total fuel : rec_safe (run_cycle fuel) fuel.
Proof.
  induction fuel as [|fuel IH];
    intros cycle level matrix b x mem Hrd Hlev Hn Hb Hx; [lia|].
  simpl. by eapply safe_run_cycle_body.
Qed.

End CycleTotal.

(** ** The constructor of the scratch state *)

Section Allocation.
Context `{B : Backend}.

Lemma length_emplace_back l x st l' :
  length (lists (emplace_back l x st) l')
  = length (lists st l') + (if list_id_eqb l' l then 1 else 0).
Proof.
  unfold emplace_back. simpl. destruct (list_id_eqb l' l).
  - by rewrite length_app.
  - lia.
Qed.

Lemma length_norm_emplace_back l x st l' :
  length (norm_lists (norm_emplace_back l x st) l')
  = length (norm_lists st l') + (if norm_list_id_eqb l' l then 1 else 0).
Proof.
  unfold norm_emplace_back. simpl. destruct (norm_list_id_eqb l' l).
  - by rewrite length_app.
  - lia.
Qed.

Lemma lists_norm_emplace_back l x st l' :
  lists (norm_emplace_back l x st) l' = lists st l'.
Proof. reflexivity. Qed.

Lemma norm_lists_emplace_back l x st l' :
  norm_lists (emplace_back l x st) l' = norm_lists st l'.
Proof. reflexivity. Qed.

(** The constant members and the lengths of the lists after the
    allocation loop.  For a K-cycle the K-cycle lists share one length,
    [n] before and [n'] after, which covers every level handled so far. *)
Lemma allocate_spec cycle nr kb rps :
  ∀ i rows st,
    let st' := allocate cycle nr kb rps i rows st in
    multigrid st' = multigrid st ∧ one st' = one st ∧
    neg_one st' = neg_one st ∧ k_base st' = k_base st ∧
    rel_tol st' = rel_tol st ∧
    (∀ l, k_list l = false →
       length (lists st' l) = length (lists st l) + length rps) ∧
    (is_kcycle cycle = true → kb ≠ 0 →
     ∀ n, (∀ l, k_list l = true → length (lists st l) = n) →
          (∀ l, length (norm_lists st l) = n) →
          i ≤ n * kb →
          ∃ n', (∀ l, k_list l = true → length (lists st' l) = n') ∧
                (∀ l, length (norm_lists st' l) = n') ∧
                i + length rps ≤ n' * kb).
Proof.
  induction rps as [|rp rps IH]; intros i rows st; cbn [allocate].
  { simpl. do 5 (split; [done|]). split; [intros l _; lia|].
    intros _ _ n Hl Hn Hi. exists n.
    split; [done|]. split; [done|]. lia. }
  match goal with
  | |- context [allocate cycle nr kb rps (i + 1) ?rows' ?st1] =>
    specialize (IH (i + 1) rows' st1); set (s1 := st1) in *
  end.
  destruct IH as (Em & Eo & Eno & Ek & Et & Hlev & Hk).
  assert (multigrid s1 = multigrid st ∧ one s1 = one st ∧
          neg_one s1 = neg_one st ∧ k_base s1 = k_base st ∧
          rel_tol s1 = rel_tol st)
    as (Em1 & Eo1 & Eno1 & Ek1 & Et1).
  { subst s1. by destruct (_ && _). }
  assert (∀ l, k_list l = false →
            length (lists s1 l) = length (lists st l) + 1) as Hlev1.
  { intros l Hl. subst s1.
    destruct (_ && _);
      rewrite ?lists_norm_emplace_back, ?length_emplace_back;
      destruct l; simpl in *; try discriminate; lia. }
  split; [congruence|]. split; [congruence|]. split; [congruence|].
  split; [congruence|]. split; [congruence|]. split.
  { intros l Hl. rewrite (Hlev l Hl), (Hlev1 l Hl). simpl. lia. }
  intros Hc Hk0 n Hl Hn Hi.
  assert (∃ n1, (∀ l, k_list l = true → length (lists s1 l) = n1) ∧
                (∀ l, length (norm_lists s1 l) = n1) ∧
                i + 1 ≤ n1 * kb) as (n1 & Hl1 & Hn1 & Hi1).
  { subst s1. rewrite Hc. cbn [andb].
    destruct (Nat.eqb_spec (i mod kb) 0) as [Hmod|Hmod].
    - exists (n + 1). split; [|split].
      + intros l Hl'.
        rewrite ?lists_norm_emplace_back, ?length_emplace_back.
        rewrite (Hl l Hl'). destruct l; simpl in *; try discriminate; lia.
      + intros l.
        rewrite ?length_norm_emplace_back, ?norm_lists_emplace_back.
        rewrite (Hn l). destruct l; simpl; lia.
      + nia.
    - exists n. split; [|split].
      + intros l Hl'. rewrite ?length_emplace_back.
        rewrite (Hl l Hl'). destruct l; simpl in *; try discriminate; lia.
      + intros l. rewrite ?norm_lists_emplace_back. apply Hn.
      + assert (i ≠ n * kb); [|lia].
        intros ->. by rewrite Nat.Div0.mod_mul in Hmod. }
  destruct (Hk Hc Hk0 n1 Hl1 Hn1 Hi1) as (n' & Hl' & Hn' & Hi').
  exists n'. split; [done|]. split; [done|]. simpl. lia.
Qed.

(** The state the constructor builds for a generated solver object is
    ready for a cycle of the solver's type. *)
Lemma MultigridState_new_ready mg nrhs_in st b x :
  hierarchy_ok mg →
  MultigridState_new (system_matrix_ mg) mg nrhs_in (one_op_ mg)
    (neg_one_op_ mg) (kcycle_base (parameters_ mg))
    (kcycle_rel_tol (parameters_ mg)) = Ok st →
  ready (cycle_ mg) {| caller_b := b; caller_x := x; state := st |} ∧
  multigrid st = mg ∧ one st = one_op_ mg ∧ neg_one st = neg_one_op_ mg ∧
  k_base st = kcycle_base (parameters_ mg) ∧
  rel_tol st = kcycle_rel_tol (parameters_ mg).
Proof.
  intros Hok Hnew. unfold MultigridState_new in Hnew.
  apply outcome_bind_Ok in Hnew as (u & Hdiv & Hnew).
  injection Hnew as <-.
  match goal with
  | |- context [allocate ?c ?nr ?kb ?rps 0 ?rows ?st0] =>
    pose proof (allocate_spec c nr kb rps 0 rows st0) as Hspec;
    set (st' := allocate c nr kb rps 0 rows st0) in *
  end.
  cbv zeta in Hspec. cbn [multigrid one neg_one k_base rel_tol lists
    norm_lists] in Hspec.
  destruct Hspec as (Em & Eo & Eno & Ek & Et & Hlev & Hk).
  split; [|done].
  destruct Hok as [Hlv _ (Hps & Hpr & _) (Hms & Hmr & _) (Hqs & Hqr & _) Hs].
  constructor; unfold total_level; cbn [state]; rewrite ?Em; try done;
    try (intros l Hl; by rewrite (Hlev l Hl)).
  intros Hc. rewrite Ek.
  assert (kcycle_base (parameters_ mg) ≠ 0) as Hk0.
  { intros H0. rewrite Hc, H0 in Hdiv. discriminate. }
  split; [done|]. intros level Hlt Hmod.
  destruct (Hk Hc Hk0 0) as (n' & Hl' & Hn' & Hi'); [done|done|lia|].
  assert (level / kcycle_base (parameters_ mg) < n') as Hidx.
  { apply Nat.Div0.div_lt_upper_bound.
    simpl in Hi'. lia. }
  split; intros l; [intros Hl; by rewrite (Hl' l Hl)|by rewrite Hn'].
Qed.

End Allocation.

(** ** What a successful call did *)

Ltac bind_inv H :=
  let a := fresh "a" in
  let m := fresh "mem" in
  let t1 := fresh "tr" in
  let t2 := fresh "tr" in
  let H1 := fresh "Hm" in
  let H2 := fresh "Hk" in
  let E := fresh "Etr" in
  apply M_bind_Ok in H;
  destruct H as (a & m & t1 & t2 & H1 & H2 & E);
  rename H2 into H.

Tactic Notation "bind_inv_as" hyp(H) ident(a) ident(m) ident(t1)
    ident(t2) ident(H1) ident(E) :=
  let H2 := fresh "Hk" in
  apply M_bind_Ok in H;
  destruct H as (a & m & t1 & t2 & H1 & H2 & E);
  rename H2 into H.

Section CallInversion.
Context `{B : Backend}.

Lemma get_state_Ok mem st mem' tr :
  get_state mem = Ok (st, mem', tr) → st = state mem ∧ mem' = mem ∧ tr = [].
Proof. unfold get_state. intros H. by injection H as <- <- <-. Qed.

Lemma emit_Ok ev mem u mem' tr :
  emit ev mem = Ok (u, mem', tr) → mem' = mem ∧ tr = [ev].
Proof. unfold emit. intros H. by injection H as <- <- <-. Qed.

Lemma load_Ok p mem d mem' tr :
  load p mem = Ok (d, mem', tr) → read mem p = Some d ∧ mem' = mem ∧ tr = [].
Proof.
  unfold load. destruct (read mem p); [|discriminate].
  intros H. by injection H as <- <- <-.
Qed.

Lemma store_Ok p d mem u mem' tr :
  store p d mem = Ok (u, mem', tr) → mem' = write p d mem ∧ tr = [].
Proof. unfold store. intros H. by injection H as <- <- <-. Qed.

Lemma norm_load_Ok p mem d mem' tr :
  norm_load p mem = Ok (d, mem', tr) →
  norm_read mem p = Some d ∧ mem' = mem ∧ tr = [].
Proof.
  unfold norm_load. destruct (norm_read mem p); [|discriminate].
  intros H. by injection H as <- <- <-.
Qed.

Lemma norm_store_Ok p d mem u mem' tr :
  norm_store p d mem = Ok (u, mem', tr) →
  mem' = norm_write p d mem ∧ tr = [].
Proof. unfold norm_store. intros H. by injection H as <- <- <-. Qed.

Lemma list_at_Ok l i mem p mem' tr :
  list_at l i mem = Ok (p, mem', tr) →
  p = elem l i ∧ mem' = mem ∧ tr = [] ∧ i < length (lists (state mem) l).
Proof.
  unfold list_at.
  destruct (Nat.ltb_spec i (length (lists (state mem) l))) as [Hlt|Hge];
    [|discriminate].
  intros H. by injection H as <- <- <-.
Qed.

Lemma norm_list_at_Ok l i mem p mem' tr :
  norm_list_at l i mem = Ok (p, mem', tr) →
  p = norm_elem l i ∧ mem' = mem ∧ tr = [] ∧
  i < length (norm_lists (state mem) l).
Proof.
  unfold norm_list_at.
  destruct (Nat.ltb_spec i (length (norm_lists (state mem) l)))
    as [Hlt|Hge]; [|discriminate].
  intros H. by injection H as <- <- <-.
Qed.

Lemma vector_at_Ok {A} (l : list A) i mem a mem' tr :
  vector_at l i mem = Ok (a, mem', tr) →
  l !! i = Some a ∧ mem' = mem ∧ tr = [].
Proof.
  unfold vector_at, at_. destruct (l !! i); [|discriminate].
  intros H. by injection H as <- <- <-.
Qed.

Lemma do_copy_from_Ok dst src mem u mem' tr :
  do_copy_from dst src mem = Ok (u, mem', tr) →
  ∃ d, read mem src = Some d ∧ mem' = write dst d mem ∧
       tr = [ev_copy_from dst src].
Proof.
  unfold do_copy_from. intros H.
  bind_inv H. apply load_Ok in Hm as (Hr & -> & ->).
  bind_inv H. apply store_Ok in Hm as (-> & ->).
  apply emit_Ok in H as (-> & ->). subst. by exists a.
Qed.

Lemma do_apply_Ok op b x mem u mem' tr :
  do_apply op b x mem = Ok (u, mem', tr) →
  ∃ bv xv, read mem b = Some bv ∧ read mem x = Some xv ∧
           mem' = write x (lin_apply op bv xv) mem ∧
           tr = [ev_apply op b x].
Proof.
  unfold do_apply. intros H.
  bind_inv H. apply load_Ok in Hm as (Hb & -> & ->).
  bind_inv H. apply load_Ok in Hm as (Hx & -> & ->).
  bind_inv H. apply store_Ok in Hm as (-> & ->).
  apply emit_Ok in H as (-> & ->). subst. by exists a, a0.
Qed.

Lemma do_apply4_Ok op alpha b beta x mem u mem' tr :
  do_apply4 op alpha b beta x mem = Ok (u, mem', tr) →
  ∃ bv xv, read mem b = Some bv ∧ read mem x = Some xv ∧
           mem' = write x (lin_apply4 op alpha bv beta xv) mem ∧
           tr = [ev_apply4 op alpha b beta x].
Proof.
  unfold do_apply4. intros H.
  bind_inv H. apply load_Ok in Hm as (Hb & -> & ->).
  bind_inv H. apply load_Ok in Hm as (Hx & -> & ->).
  bind_inv H. apply store_Ok in Hm as (-> & ->).
  apply emit_Ok in H as (-> & ->). subst. by exists a, a0.
Qed.

Lemma do_restrict_apply_Ok rp r g mem u mem' tr :
  do_restrict_apply rp r g mem = Ok (u, mem', tr) →
  ∃ rv gv, read mem r = Some rv ∧ read mem g = Some gv ∧
           mem' = write g (restrict_apply rp rv gv) mem ∧
           tr = [ev_restrict_apply rp r g].
Proof.
  unfold do_restrict_apply. intros H.
  bind_inv H. apply load_Ok in Hm as (Hb & -> & ->).
  bind_inv H. apply load_Ok in Hm as (Hx & -> & ->).
  bind_inv H. apply store_Ok in Hm as (-> & ->).
  apply emit_Ok in H as (-> & ->). subst. by exists a, a0.
Qed.

Lemma do_prolong_applyadd_Ok rp e x mem u mem' tr :
  do_prolong_applyadd rp e x mem = Ok (u, mem', tr) →
  ∃ ev xv, read mem e = Some ev ∧ read mem x = Some xv ∧
           mem' = write x (prolong_applyadd rp ev xv) mem ∧
           tr = [ev_prolong_applyadd rp e x].
Proof.
  unfold do_prolong_applyadd. intros H.
  bind_inv H. apply load_Ok in Hm as (Hb & -> & ->).
  bind_inv H. apply load_Ok in Hm as (Hx & -> & ->).
  bind_inv H. apply store_Ok in Hm as (-> & ->).
  apply emit_Ok in H as (-> & ->). subst. by exists a, a0.
Qed.

Lemma do_compute_dot_Ok t u result mem un mem' tr :
  do_compute_dot t u result mem = Ok (un, mem', tr) →
  ∃ tv uv, read mem t = Some tv ∧ read mem u = Some uv ∧
           mem' = write result (compute_dot tv uv) mem ∧
           tr = [ev_compute_dot t u result].
Proof.
  unfold do_compute_dot. intros H.
  bind_inv H. apply load_Ok in Hm as (Hb & -> & ->).
  bind_inv H. apply load_Ok in Hm as (Hx & -> & ->).
  bind_inv H. apply store_Ok in Hm as (-> & ->).
  apply emit_Ok in H as (-> & ->). subst. by exists a, a0.
Qed.

Lemma do_compute_norm2_Ok g result mem u mem' tr :
  do_compute_norm2 g result mem = Ok (u, mem', tr) →
  ∃ gv, read mem g = Some gv ∧
        mem' = norm_write result (compute_norm2 gv) mem ∧
        tr = [ev_compute_norm2 g result (compute_norm2 gv)].
Proof.
  unfold do_compute_norm2. intros H.
  bind_inv H. apply load_Ok in Hm as (Hb & -> & ->).
  bind_inv H. apply norm_store_Ok in Hm as (-> & ->).
  apply emit_Ok in H as (-> & ->). subst. by exists a.
Qed.

Lemma do_kcycle_step_1_Ok alpha rho v g d e mem u mem' tr :
  do_kcycle_step_1 alpha rho v g d e mem = Ok (u, mem', tr) →
  ∃ av rv vv gv dv ev,
    read mem alpha = Some av ∧ read mem rho = Some rv ∧
    read mem v = Some vv ∧ read mem g = Some gv ∧ read mem d = Some dv ∧
    read mem e = Some ev ∧
    mem' = write e (kcycle_step_1 av rv vv gv dv ev).2
             (write d (kcycle_step_1 av rv vv gv dv ev).1.2
                (write g (kcycle_step_1 av rv vv gv dv ev).1.1 mem)) ∧
    tr = [ev_kcycle_step_1 alpha rho v g d e].
Proof.
  unfold do_kcycle_step_1. intros H.
  bind_inv H. apply load_Ok in Hm as (Ha & -> & ->).
  bind_inv H. apply load_Ok in Hm as (Hr & -> & ->).
  bind_inv H. apply load_Ok in Hm as (Hv & -> & ->).
  bind_inv H. apply load_Ok in Hm as (Hg & -> & ->).
  bind_inv H. apply load_Ok in Hm as (Hd & -> & ->).
  bind_inv H. apply load_Ok in Hm as (He & -> & ->).
  exists a, a0, a1, a2, a3, a4.
  destruct (kcycle_step_1 a a0 a1 a2 a3 a4) as [[g' d'] e'].
  bind_inv H. apply store_Ok in Hm as (-> & ->).
  bind_inv H. apply store_Ok in Hm as (-> & ->).
  bind_inv H. apply store_Ok in Hm as (-> & ->).
  apply emit_Ok in H as (-> & ->). subst. by repeat split.
Qed.

Lemma do_kcycle_check_stop_Ok old_norm new_norm mem is_stop mem' tr :
  do_kcycle_check_stop old_norm new_norm mem = Ok (is_stop, mem', tr) →
  ∃ ov nv, norm_read mem old_norm = Some ov ∧
           norm_read mem new_norm = Some nv ∧
           is_stop = kcycle_check_stop ov nv (rel_tol (state mem)) ∧
           mem' = mem ∧
           tr = [ev_kcycle_check_stop old_norm new_norm is_stop].
Proof.
  unfold do_kcycle_check_stop. intros H.
  bind_inv H. apply get_state_Ok in Hm as (-> & -> & ->).
  bind_inv H. apply norm_load_Ok in Hm as (Ho & -> & ->).
  bind_inv H. apply norm_load_Ok in Hm as (Hn & -> & ->).
  bind_inv H. apply emit_Ok in Hm as (-> & ->).
  apply M_ret_Ok in H as (-> & -> & ->). subst. by exists a, a0.
Qed.

Lemma do_kcycle_step_2_Ok alpha rho gamma beta zeta d e mem u mem' tr :
  do_kcycle_step_2 alpha rho gamma beta zeta d e mem = Ok (u, mem', tr) →
  frame mem mem' ∧ tr = [ev_kcycle_step_2 alpha rho gamma beta zeta d e].
Proof.
  unfold do_kcycle_step_2. intros H.
  do 7 (bind_inv H; apply load_Ok in Hm as (_ & -> & ->)).
  bind_inv H. apply store_Ok in Hm as (-> & ->).
  apply emit_Ok in H as (-> & ->). subst.
  split; [apply frame_write|done].
Qed.

Lemma compute_residual_Ok matrix b x r mem u mem' tr :
  compute_residual matrix b x r mem = Ok (u, mem', tr) →
  frame mem mem' ∧
  tr = residual_events matrix (neg_one (state mem)) (one (state mem)) b x r.
Proof.
  unfold compute_residual. intros H.
  bind_inv H. apply get_state_Ok in Hm as (-> & -> & ->).
  bind_inv H. apply do_copy_from_Ok in Hm as (d & _ & -> & ->).
  apply do_apply4_Ok in H as (bv & xv & _ & _ & -> & ->). subst.
  split; [|done].
  eapply frame_trans; [apply frame_write|apply frame_write].
Qed.

End CallInversion.

(** ** The shape of one activation *)

Section ActivationShape.
Context `{B : Backend}.

Lemma count_events_app p tr1 tr2 :
  count_events p (tr1 ++ tr2) = count_events p tr1 + count_events p tr2.
Proof. induction tr1 as [|ev tr1 IH]; simpl; [done|]. rewrite IH. lia. Qed.

(** The coarse solve of an activation is one event: the coarsest solver
    below the last level, a nested activation otherwise. *)
Lemma next_level_or_solve_Ok rec cycle level total rp b x mem u mem' tr :
  next_level_or_solve rec cycle level total rp b x mem = Ok (u, mem', tr) →
  (level + 1 = total ∧
   ∃ solver, coarsest_solver_ (multigrid (state mem)) = Some solver ∧
             tr = [ev_apply solver b x]) ∨
  (level + 1 ≠ total ∧
   ∃ inner,
     rec cycle (level + 1) (get_coarse_operator rp) b x mem
       = Ok (u, mem', inner) ∧
     tr = [ev_run_cycle cycle (level + 1) (get_coarse_operator rp) b x
             inner]).
Proof.
  unfold next_level_or_solve.
  destruct (Nat.eqb_spec (level + 1) total) as [Heq|Hne]; intros H.
  - left. split; [done|]. unfold coarsest_solve in H.
    bind_inv H. apply get_state_Ok in Hm as (-> & -> & ->).
    destruct (coarsest_solver_ _) as [solver|]; [|discriminate].
    apply do_apply_Ok in H as (bv & xv & _ & _ & _ & ->).
    exists solver. by subst.
  - right. split; [done|]. by apply nested_Ok in H.
Qed.

Lemma next_level_or_solve_count p rec cycle level total rp b x mem u mem' tr :
  next_level_or_solve rec cycle level total rp b x mem = Ok (u, mem', tr) →
  (p = is_step_1 ∨ p = is_step_2 ∨ p = is_norm2) →
  count_events p tr = 0.
Proof.
  intros H Hp.
  apply next_level_or_solve_Ok in H
    as [(_ & s & _ & ->)|(_ & inner & _ & ->)];
    destruct Hp as [->|[->| ->]]; reflexivity.
Qed.

(** One activation, phase by phase. *)
Lemma run_cycle_body_Ok rec n cycle level matrix b x mem mem' tr :
  rec_safe rec n → ready cycle mem → level < total_level mem →
  total_level mem - level ≤ S n →
  ptr_valid mem b → ptr_valid mem x →
  run_cycle_body rec cycle level matrix b x mem = Ok ((), mem', tr) →
  let mg := multigrid (state mem) in
  let r := elem r_list level in
  let g := elem g_list level in
  let e := elem e_list level in
  ∃ rp pre_s pre_r mid_s mid_r post_s post_r mem1 mem2 mem3 tr1 tr2,
    rstr_prlg_list_ mg !! level = Some rp ∧
    pre_smoother_list_ mg !! level = Some pre_s ∧
    pre_relaxation_list_ mg !! level = Some pre_r ∧
    mid_smoother_list_ mg !! level = Some mid_s ∧
    mid_relaxation_list_ mg !! level = Some mid_r ∧
    post_smoother_list_ mg !! level = Some post_s ∧
    post_relaxation_list_ mg !! level = Some post_r ∧
    frame mem mem1 ∧ frame mem mem2 ∧ frame mem mem3 ∧
    next_level_or_solve rec cycle level (total_level mem) rp g e mem1
      = Ok ((), mem2, tr1) ∧
    additional_work rec cycle level (total_level mem) matrix rp mid_s mid_r
      b x r g e mem2 = Ok ((), mem3, tr2) ∧
    tr = pre_events level matrix (neg_one (state mem)) (one (state mem))
           pre_s pre_r b x r ++
         [ev_restrict_apply rp r g] ++ tr1 ++ tr2 ++
         [ev_prolong_applyadd rp e x] ++
         post_events matrix (neg_one (state mem)) (one (state mem))
           post_s post_r b x r.
Proof.
  intros Hrec Hrd Hlev Hn Hb Hx H mg r g e.
  assert (ptr_valid mem r) as Hvr
    by (simpl; by rewrite (rd_levels _ _ Hrd)).
  assert (ptr_valid mem g) as Hvg
    by (simpl; by rewrite (rd_levels _ _ Hrd)).
  assert (ptr_valid mem e) as Hve
    by (simpl; by rewrite (rd_levels _ _ Hrd)).
  unfold run_cycle_body in H.
  bind_inv H. apply get_state_Ok in Hm as (-> & -> & ->).
  bind_inv H. apply list_at_Ok in Hm as (-> & -> & -> & _).
  bind_inv H. apply list_at_Ok in Hm as (-> & -> & -> & _).
  bind_inv H. apply list_at_Ok in Hm as (-> & -> & -> & _).
  bind_inv H. apply vector_at_Ok in Hm as (Hrp & -> & ->).
  bind_inv H. apply vector_at_Ok in Hm as (Hps & -> & ->).
  bind_inv H. apply vector_at_Ok in Hm as (Hpr & -> & ->).
  bind_inv H. apply vector_at_Ok in Hm as (Hms & -> & ->).
  bind_inv H. apply vector_at_Ok in Hm as (Hmr & -> & ->).
  bind_inv H. apply vector_at_Ok in Hm as (Hqs & -> & ->).
  bind_inv H. apply vector_at_Ok in Hm as (Hqr & -> & ->).
  fold mg r g e in H |- *. rename a into rp, a0 into pre_s, a1 into pre_r,
    a2 into mid_s, a3 into mid_r, a4 into post_s, a5 into post_r.
  (* the residual below level 0 *)
  bind_inv_as H u0 m0 t0 t0' H0 E0. subst tr9.
  assert (frame mem m0 ∧
          t0 = if negb (level =? 0)
               then residual_events matrix (neg_one (state mem))
                      (one (state mem)) b x r
               else []) as [Hf0 ->].
  { destruct (negb (level =? 0)).
    - by apply compute_residual_Ok in H0.
    - apply M_ret_Ok in H0 as (_ & -> & ->). split; [apply frame_refl|done]. }
  (* the pre-smoother *)
  bind_inv_as H u1 m1 t1 t1' H1 E1. subst t0'.
  assert (frame mem m1 ∧
          t1 = match pre_s with
               | Some smoother =>
                 ev_apply4 smoother pre_r r (one (state mem)) x
                 :: residual_events matrix (neg_one (state mem))
                      (one (state mem)) b x r
               | None => []
               end) as [Hf1 ->].
  { destruct pre_s as [smoother|].
    - bind_inv_as H1 u m t t' Hs Es.
      apply do_apply4_Ok in Hs as (bv & xv & _ & _ & Em & ->).
      apply compute_residual_Ok in H1 as [Hf ->].
      assert (frame mem m) as Hfw
        by (rewrite Em; eapply frame_trans; [exact Hf0|apply frame_write]).
      split; [by eapply frame_trans|].
      by rewrite Es, (fr_neg_one _ _ Hfw), (fr_one _ _ Hfw).
    - apply M_ret_Ok in H1 as (_ & -> & ->). done. }
  (* restriction *)
  bind_inv_as H u2 m2 t2 t2' H2 E2. subst t1'.
  apply do_restrict_apply_Ok in H2 as (rv & gv & _ & _ & -> & ->).
  pose proof (frame_trans _ _ _ Hf1
                (frame_write g (restrict_apply rp rv gv) m1)) as Hf2.
  (* the coarse solve *)
  bind_inv_as H u3 m3 t3 t3' H3 E3. subst t2'. destruct u3.
  change (length (rstr_prlg_list_ mg)) with (total_level mem) in *.
  assert (frame (write g (restrict_apply rp rv gv) m1) m3) as Hf3.
  { eapply (safe_frame _ _ _ _ _ _ H3).
    rewrite <- (total_level_frame _ _ Hf2).
    eapply safe_next_level_or_solve; try done;
      try (rewrite (total_level_frame _ _ Hf2); done);
      solve [by eapply ready_frame | by eapply ptr_valid_frame]. }
  pose proof (frame_trans _ _ _ Hf2 Hf3) as Hf4.
  (* the additional work *)
  bind_inv_as H u4 m4 t4 t4' H4 E4. subst t3'. destruct u4.
  assert (frame m3 m4) as Hf5.
  { eapply (safe_frame _ _ _ _ _ _ H4).
    rewrite <- (total_level_frame _ _ Hf4).
    eapply safe_additional_work; try done;
      try (rewrite (total_level_frame _ _ Hf4); done);
      solve [by eapply ready_frame | by eapply ptr_valid_frame]. }
  pose proof (frame_trans _ _ _ Hf4 Hf5) as Hf6.
  (* prolongation and the post-smoother *)
  bind_inv_as H u5 m5 t5 t5' H5 E5. subst t4'.
  apply do_prolong_applyadd_Ok in H5 as (ev & xv & _ & _ & -> & ->).
  pose proof (frame_trans _ _ _ Hf6
                (frame_write x (prolong_applyadd rp ev xv) m4)) as Hf7.
  assert (t5' = post_events matrix (neg_one (state mem)) (one (state mem))
                  post_s post_r b x r) as ->.
  { unfold post_events. destruct post_s as [smoother|].
    - bind_inv_as H u m t t' Hs Es.
      apply compute_residual_Ok in Hs as [Hf ->].
      apply do_apply4_Ok in H as (bv & xv' & _ & _ & _ & ->).
      by rewrite Es, (fr_neg_one _ _ Hf7), (fr_one _ _ Hf7).
    - by apply M_ret_Ok in H as (_ & _ & ->). }
  exists rp, pre_s, pre_r, mid_s, mid_r, post_s, post_r,
    (write g (restrict_apply rp rv gv) m1), m3, m4, t3, t4.
  do 7 (split; [done|]).
  split; [done|]. split; [done|]. split; [done|].
  split; [done|]. split; [done|].
  subst. unfold pre_events. simpl. by rewrite <- !app_assoc.
Qed.

End ActivationShape.

(** ** Reading what was written *)

Section ReadWrite.
Context `{B : Backend}.

Lemma read_write_same l i d mem :
  i < length (lists (state mem) l) →
  read (write (elem l i) d mem) (elem l i) = Some d.
Proof.
  intros Hi. simpl.
  replace (list_id_eqb l l) with true by (by destruct l).
  by apply list_lookup_insert_eq.
Qed.

Lemma read_write_other l i d mem l' j :
  list_id_eqb l' l = false →
  read (write (elem l i) d mem) (elem l' j) = read mem (elem l' j).
Proof. intros Hl. simpl. by rewrite Hl. Qed.

Lemma norm_read_write p d mem q :
  norm_read (write p d mem) q = norm_read mem q.
Proof. by destruct p, q. Qed.

Lemma read_norm_write q d mem p :
  read (norm_write q d mem) p = read mem p.
Proof. by destruct p, q. Qed.

Lemma norm_read_norm_write_same l i d mem :
  i < length (norm_lists (state mem) l) →
  norm_read (norm_write (norm_elem l i) d mem) (norm_elem l i) = Some d.
Proof.
  intros Hi. simpl.
  replace (norm_list_id_eqb l l) with true by (by destruct l).
  by apply list_lookup_insert_eq.
Qed.

Lemma norm_read_norm_write_other l i d mem l' j :
  norm_list_id_eqb l' l = false →
  norm_read (norm_write (norm_elem l i) d mem) (norm_elem l' j)
  = norm_read mem (norm_elem l' j).
Proof. intros Hl. simpl. by rewrite Hl. Qed.

Lemma length_lists_write p d mem l :
  length (lists (state (write p d mem)) l) = length (lists (state mem) l).
Proof. apply (fr_lists _ _ (frame_write p d mem)). Qed.

Lemma length_lists_norm_write p d mem l :
  length (lists (state (norm_write p d mem)) l)
  = length (lists (state mem) l).
Proof. apply (fr_lists _ _ (frame_norm_write p d mem)). Qed.

Lemma length_norm_lists_write p d mem l :
  length (norm_lists (state (write p d mem)) l)
  = length (norm_lists (state mem) l).
Proof. apply (fr_norms _ _ (frame_write p d mem)). Qed.

End ReadWrite.

(** Reads through nested writes, for pointers into named lists. *)
Ltac simpl_reads :=
  repeat first
    [ rewrite read_norm_write
    | rewrite norm_read_write
    | rewrite read_write_same
        by (rewrite ?length_lists_write, ?length_lists_norm_write; assumption)
    | rewrite read_write_other by reflexivity
    | rewrite norm_read_norm_write_same
        by (rewrite ?length_norm_lists_write; assumption)
    | rewrite norm_read_norm_write_other by reflexivity ].

(** ** The K-cycle, step by step *)

Section KCycleShape.
Context `{B : Backend}.

(** Comparisons of the tolerance with zero. *)
Lemma tolerance_negative (tol : spec_float) :
  SFltb tol fp_zero = true →
  checks_norms tol = false ∧ SFleb fp_zero tol = false.
Proof.
  unfold checks_norms, fp_zero.
  destruct tol as [s|s| |s m e]; try destruct s; by cbv.
Qed.

Lemma tolerance_nan (tol : spec_float) :
  std_isnan tol = true →
  checks_norms tol = false ∧ SFltb tol fp_zero = false ∧
  SFleb fp_zero tol = false.
Proof. destruct tol; try discriminate. by cbv. Qed.

Lemma tolerance_not_negative (tol : spec_float) :
  SFleb fp_zero tol = true →
  checks_norms tol = true ∧ SFltb tol fp_zero = false.
Proof.
  unfold checks_norms, fp_zero.
  destruct tol as [s|s| |s m e]; try destruct s; by cbv.
Qed.

(** Step 1 of the K-cycle: the events it issues and what it leaves in
    [v], [rho], [alpha] and [old_norm]. *)
Lemma kcycle_first_iteration_Ok is_fcg matrix level k mem u mem' tr :
  let alpha := elem alpha_list k in
  let rho := elem rho_list k in
  let v := elem v_list k in
  let d := elem d_list k in
  let g := elem g_list level in
  let e := elem e_list level in
  let old_norm := norm_elem old_norm_list k in
  k < length (lists (state mem) alpha_list) →
  k < length (lists (state mem) rho_list) →
  k < length (lists (state mem) v_list) →
  k < length (norm_lists (state mem) old_norm_list) →
  kcycle_first_iteration is_fcg matrix alpha rho v g d e old_norm mem
    = Ok (u, mem', tr) →
  ∃ e1 v1 g1,
    read mem e = Some e1 ∧ read mem v = Some v1 ∧ read mem g = Some g1 ∧
    let v2 := lin_apply matrix e1 v1 in
    let t1 := if is_fcg then e1 else v2 in
    let records := checks_norms (rel_tol (state mem)) in
    tr = first_iteration_events is_fcg records matrix alpha rho v g d e
           old_norm (compute_norm2 g1) ∧
    read mem' v = Some v2 ∧
    read mem' rho = Some (compute_dot t1 v2) ∧
    read mem' alpha = Some (compute_dot t1 g1) ∧
    norm_read mem' old_norm
      = (if records then Some (compute_norm2 g1) else norm_read mem old_norm) ∧
    frame mem mem'.
Proof.
  intros alpha rho v d g e old_norm Ha Hr Hv Ho H.
  subst alpha rho v d g e old_norm.
  unfold kcycle_first_iteration in H.
  bind_inv_as H st m0 t0 t0' H0 E0.
  apply get_state_Ok in H0 as (-> & -> & ->).
  bind_inv_as H u1 m1 t1 t1' H1 E1.
  apply do_apply_Ok in H1 as (e1 & v1 & He1 & Hv1 & -> & ->).
  bind_inv_as H u2 m2 t2 t2' H2 E2.
  apply do_compute_dot_Ok in H2 as (tv & vv & Htv & Hvv & -> & ->).
  bind_inv_as H u3 m3 t3 t3' H3 E3.
  apply do_compute_dot_Ok in H3 as (tv' & gv & Htv' & Hgv & -> & ->).
  bind_inv_as H u4 m4 t4 t4' H4 E4.
  apply do_kcycle_step_1_Ok in H
    as (av & rv & vv' & gv' & dv & ev & _ & _ & _ & _ & _ & _ & -> & ->).
  fold (checks_norms (rel_tol (state mem))) in H4.
  (* the values read along the way *)
  revert Hvv. simpl_reads. intros Hvv. injection Hvv as <-.
  assert (tv = if is_fcg then e1 else lin_apply matrix e1 v1) as ->.
  { revert Htv. destruct is_fcg; simpl_reads; congruence. }
  assert (tv' = if is_fcg then e1 else lin_apply matrix e1 v1) as ->.
  { revert Htv'. destruct is_fcg; simpl_reads; congruence. }
  revert Hgv. simpl_reads. intros Hgv.
  exists e1, v1, gv. split; [done|]. split; [done|]. split; [done|].
  cbv zeta.
  destruct (checks_norms (rel_tol (state mem))).
  - apply do_compute_norm2_Ok in H4 as (gv2 & Hg2 & -> & ->).
    revert Hg2. simpl_reads. intros Hg2.
    assert (gv2 = gv) as -> by congruence.
    split; [by subst|]. simpl_reads.
    split; [done|]. split; [done|]. split; [done|]. split; [done|].
    repeat (eapply frame_trans;
            [|first [apply frame_write|apply frame_norm_write]]).
    apply frame_refl.
  - apply M_ret_Ok in H4 as (_ & -> & ->).
    split; [by subst|]. simpl_reads.
    split; [done|]. split; [done|]. split; [done|]. split; [done|].
    repeat (eapply frame_trans; [|apply frame_write]).
    apply frame_refl.
Qed.

End KCycleShape.

Section KCycleSteps.
Context `{B : Backend}.

(** The stop check: without norms the flag stays [true]; with norms the
    new norm of [g] is recorded and the flag is the kernel's answer on the
    recorded old norm and the new one. *)
Lemma kcycle_stop_check_Ok g k mem is_stop mem' tr :
  let old_norm := norm_elem old_norm_list k in
  let new_norm := norm_elem new_norm_list k in
  k < length (norm_lists (state mem) new_norm_list) →
  kcycle_stop_check g old_norm new_norm mem = Ok (is_stop, mem', tr) →
  frame mem mem' ∧
  if checks_norms (rel_tol (state mem)) then
    ∃ gv ov, read mem g = Some gv ∧ norm_read mem old_norm = Some ov ∧
      is_stop = kcycle_check_stop ov (compute_norm2 gv)
                  (rel_tol (state mem)) ∧
      tr = [ev_compute_norm2 g new_norm (compute_norm2 gv);
            ev_kcycle_check_stop old_norm new_norm is_stop]
  else is_stop = true ∧ tr = [].
Proof.
  intros old_norm new_norm Hn H. subst old_norm new_norm.
  unfold kcycle_stop_check in H.
  bind_inv_as H st m0 t0 t0' H0 E0.
  apply get_state_Ok in H0 as (-> & -> & ->).
  fold (checks_norms (rel_tol (state mem))) in H.
  destruct (checks_norms (rel_tol (state mem))).
  - bind_inv_as H u1 m1 t1 t1' H1 E1.
    apply do_compute_norm2_Ok in H1 as (gv & Hg & -> & ->).
    apply do_kcycle_check_stop_Ok in H
      as (ov & nv & Hov & Hnv & Hstop & -> & ->).
    revert Hov Hnv. simpl_reads. intros Hov Hnv. injection Hnv as <-.
    split; [apply frame_norm_write|].
    exists gv, ov. by subst.
  - apply M_ret_Ok in H as (-> & -> & ->).
    split; [apply frame_refl|]. by subst.
Qed.

(** Step 2 of the K-cycle: one coarse solve into [d], then the operator,
    three dot products and the update kernel. *)
Lemma kcycle_second_iteration_Ok rec cycle level total is_fcg matrix rp
    alpha rho gamma beta zeta v w d g e mem u mem' tr :
  kcycle_second_iteration rec cycle level total is_fcg matrix rp
    alpha rho gamma beta zeta v w d g e mem = Ok (u, mem', tr) →
  ∃ mem1 tr1,
    next_level_or_solve rec cycle level total rp g d mem
      = Ok ((), mem1, tr1) ∧
    let t := if is_fcg then d else w in
    tr = tr1 ++ [ev_apply matrix d w; ev_compute_dot t v gamma;
                 ev_compute_dot t w beta; ev_compute_dot t g zeta;
                 ev_kcycle_step_2 alpha rho gamma beta zeta d e].
Proof.
  unfold kcycle_second_iteration. intros H.
  bind_inv_as H u0 m0 t0 t0' H0 E0. destruct u0.
  bind_inv_as H u1 m1 t1 t1' H1 E1.
  apply do_apply_Ok in H1 as (bv & xv & _ & _ & -> & ->).
  bind_inv_as H u2 m2 t2 t2' H2 E2.
  apply do_compute_dot_Ok in H2 as (? & ? & _ & _ & -> & ->).
  bind_inv_as H u3 m3 t3 t3' H3 E3.
  apply do_compute_dot_Ok in H3 as (? & ? & _ & _ & -> & ->).
  bind_inv_as H u4 m4 t4 t4' H4 E4.
  apply do_compute_dot_Ok in H4 as (? & ? & _ & _ & -> & ->).
  apply do_kcycle_step_2_Ok in H as [_ ->].
  exists m0, t0. split; [done|]. by subst.
Qed.

(** The K-cycle branch of one activation. *)
Lemma kcycle_Ok rec cycle level total rp mem mem' tr :
  let k := level / k_base (state mem) in
  let tol := rel_tol (state mem) in
  let is_fcg := multigrid_cycle.eqb cycle multigrid_cycle.kfcg in
  let matrix := get_coarse_operator rp in
  let g := elem g_list level in
  let e := elem e_list level in
  kcycle rec cycle level total rp g e mem = Ok ((), mem', tr) →
  ∃ mem1 mem2 tr1 tr2 tr3 is_stop,
    kcycle_first_iteration is_fcg matrix (elem alpha_list k)
      (elem rho_list k) (elem v_list k) g (elem d_list k) e
      (norm_elem old_norm_list k) mem = Ok ((), mem1, tr1) ∧
    kcycle_stop_check g (norm_elem old_norm_list k)
      (norm_elem new_norm_list k) mem1 = Ok (is_stop, mem2, tr2) ∧
    (if runs_second_iteration tol is_stop then
       kcycle_second_iteration rec cycle level total is_fcg matrix rp
         (elem alpha_list k) (elem rho_list k) (elem gamma_list k)
         (elem beta_list k) (elem zeta_list k) (elem v_list k)
         (elem w_list k) (elem d_list k) g e mem2 = Ok ((), mem', tr3)
     else mem' = mem2 ∧ tr3 = []) ∧
    tr = tr1 ++ tr2 ++ tr3 ∧
    k < length (lists (state mem) alpha_list) ∧
    k < length (lists (state mem) rho_list) ∧
    k < length (lists (state mem) v_list) ∧
    k < length (norm_lists (state mem) old_norm_list) ∧
    k < length (norm_lists (state mem) new_norm_list).
Proof.
  intros k tol is_fcg matrix g e H. subst k tol is_fcg matrix g e.
  unfold kcycle in H.
  bind_inv_as H st m0 t0 t0' H0 E0.
  apply get_state_Ok in H0 as (-> & -> & ->).
  bind_inv_as H p1 m1 t1 t1' H1 E1.
  apply list_at_Ok in H1 as (-> & -> & -> & Hla).
  bind_inv_as H p2 m2 t2 t2' H2 E2.
  apply list_at_Ok in H2 as (-> & -> & -> & _).
  bind_inv_as H p3 m3 t3 t3' H3 E3.
  apply list_at_Ok in H3 as (-> & -> & -> & _).
  bind_inv_as H p4 m4 t4 t4' H4 E4.
  apply list_at_Ok in H4 as (-> & -> & -> & Hlr).
  bind_inv_as H p5 m5 t5 t5' H5 E5.
  apply list_at_Ok in H5 as (-> & -> & -> & _).
  bind_inv_as H p6 m6 t6 t6' H6 E6.
  apply list_at_Ok in H6 as (-> & -> & -> & Hlv).
  bind_inv_as H p7 m7 t7 t7' H7 E7.
  apply list_at_Ok in H7 as (-> & -> & -> & _).
  bind_inv_as H p8 m8 t8 t8' H8 E8.
  apply list_at_Ok in H8 as (-> & -> & -> & _).
  bind_inv_as H p9 m9 t9 t9' H9 E9.
  apply norm_list_at_Ok in H9 as (-> & -> & -> & Hlo).
  bind_inv_as H p10 m10 t10 t10' H10 E10.
  apply norm_list_at_Ok in H10 as (-> & -> & -> & Hln).
  bind_inv_as H u11 m11 t11 t11' H11 E11. destruct u11.
  bind_inv_as H is_stop m12 t12 t12' H12 E12.
  fold (runs_second_iteration (rel_tol (state mem)) is_stop) in H.
  exists m11, m12, t11, t12, t12', is_stop.
  split; [done|]. split; [done|]. split.
  { destruct (runs_second_iteration _ _); [done|].
    by apply M_ret_Ok in H as (_ & -> & ->). }
  split; [by subst|]. done.
Qed.

End KCycleSteps.

(** ** Claims on the cycle engine *)

Section SecondCycle.
Context `{B : Backend}.

(** The second pass of the W- and F-cycle, phase by phase. *)
Lemma second_cycle_Ok rec cycle level total matrix rp mid_s mid_r b x r g e
    mem mem' tr :
  second_cycle rec cycle level total matrix rp mid_s mid_r b x r g e mem
    = Ok ((), mem', tr) →
  ∃ mem1 tr1,
    frame mem mem1 ∧
    next_level_or_solve rec
      (if multigrid_cycle.eqb cycle multigrid_cycle.f then multigrid_cycle.v
       else cycle) level total rp g e mem1 = Ok ((), mem', tr1) ∧
    tr = [ev_prolong_applyadd rp e x] ++
         residual_events matrix (neg_one (state mem)) (one (state mem))
           b x r ++
         mid_events matrix (neg_one (state mem)) (one (state mem))
           mid_s mid_r b x r ++
         [ev_restrict_apply rp r g] ++ tr1.
Proof.
  unfold second_cycle. intros H.
  bind_inv_as H st m0 t0 t0' H0 E0.
  apply get_state_Ok in H0 as (-> & -> & ->).
  bind_inv_as H u1 m1 t1 t1' H1 E1.
  apply do_prolong_applyadd_Ok in H1 as (ev & xv & _ & _ & Em1 & ->).
  assert (frame mem m1) as Hf1 by (rewrite Em1; apply frame_write).
  bind_inv_as H u2 m2 t2 t2' H2 E2.
  apply compute_residual_Ok in H2 as [Hf2' ->].
  pose proof (frame_trans _ _ _ Hf1 Hf2') as Hf2.
  bind_inv_as H u3 m3 t3 t3' H3 E3.
  assert (frame mem m3 ∧
          t3 = mid_events matrix (neg_one (state mem)) (one (state mem))
                 mid_s mid_r b x r) as [Hf3 ->].
  { unfold mid_events. destruct mid_s as [smoother|].
    - bind_inv_as H3 u m t t' Hs Es.
      apply do_apply4_Ok in Hs as (bv & xv' & _ & _ & Em & ->).
      apply compute_residual_Ok in H3 as [Hf ->].
      assert (frame mem m) as Hfw
        by (rewrite Em; eapply frame_trans; [exact Hf2|apply frame_write]).
      split; [by eapply frame_trans|].
      by rewrite Es, (fr_neg_one _ _ Hfw), (fr_one _ _ Hfw).
    - by apply M_ret_Ok in H3 as (_ & -> & ->). }
  bind_inv_as H u4 m4 t4 t4' H4 E4.
  apply do_restrict_apply_Ok in H4 as (rv & gv & _ & _ & Em4 & ->).
  assert (frame mem m4) as Hf4
    by (rewrite Em4; eapply frame_trans; [exact Hf3|apply frame_write]).
  exists m4, t4'. split; [done|]. split; [done|].
  rewrite E0, E1, E2, E3, E4,
    (fr_neg_one _ _ Hf1), (fr_one _ _ Hf1). simpl.
  by rewrite <- ?app_assoc.
Qed.

(** X23 (C5).  In a W-cycle or F-cycle at a level that is not the last one,
    an activation runs to completion and, right after its first recursive
    sub-solve, prolongs [e] into [x], recomputes the residual, applies the
    mid-smoother with a further residual when there is one, restricts again
    into [g] and recurses a second time on the same level, operator and
    vectors; the second activation is a V-cycle in an F-cycle and a W-cycle
    again in a W-cycle.  It ends with the prolongation and the
    post-smoothing. *)
Theorem second_cycle_of_w_and_f fuel cycle level matrix b x mem :
  cycle = multigrid_cycle.w ∨ cycle = multigrid_cycle.f →
  ready cycle mem → level + 1 < total_level mem →
  total_level mem - level ≤ fuel →
  ptr_valid mem b → ptr_valid mem x →
  let mg := multigrid (state mem) in
  let neg_one := neg_one (state mem) in
  let one := one (state mem) in
  let r := elem r_list level in
  let g := elem g_list level in
  let e := elem e_list level in
  ∃ mem' tr rp pre_s pre_r mid_s mid_r post_s post_r inner1 inner2,
    run_cycle fuel cycle level matrix b x mem = Ok ((), mem', tr) ∧
    rstr_prlg_list_ mg !! level = Some rp ∧
    pre_smoother_list_ mg !! level = Some pre_s ∧
    pre_relaxation_list_ mg !! level = Some pre_r ∧
    mid_smoother_list_ mg !! level = Some mid_s ∧
    mid_relaxation_list_ mg !! level = Some mid_r ∧
    post_smoother_list_ mg !! level = Some post_s ∧
    post_relaxation_list_ mg !! level = Some post_r ∧
    tr = pre_events level matrix neg_one one pre_s pre_r b x r ++
         [ev_restrict_apply rp r g;
          ev_run_cycle cycle (level + 1) (get_coarse_operator rp) g e
            inner1;
          ev_prolong_applyadd rp e x] ++
         residual_events matrix neg_one one b x r ++
         mid_events matrix neg_one one mid_s mid_r b x r ++
         [ev_restrict_apply rp r g;
          ev_run_cycle
            (match cycle with
             | multigrid_cycle.f => multigrid_cycle.v
             | _ => multigrid_cycle.w
             end)
            (level + 1) (get_coarse_operator rp) g e inner2;
          ev_prolong_applyadd rp e x] ++
         post_events matrix neg_one one post_s post_r b x r.
Proof.
  intros Hc Hrd Hlev Hn Hb Hx mg neg_one one r g e.
  destruct fuel as [|fuel]; [lia|].
  destruct (run_cycle_total (S fuel) cycle level matrix b x mem)
    as ([] & mem' & tr & Hrun & _ & _); try done; [lia|].
  pose proof Hrun as Hbody. simpl in Hbody.
  apply (run_cycle_body_Ok _ fuel) in Hbody; try done;
    [|apply run_cycle_total|lia].
  destruct Hbody as (rp & pre_s & pre_r & mid_s & mid_r & post_s & post_r &
    mem1 & mem2 & mem3 & tr1 & tr2 & Hrp & Hps & Hpr & Hms & Hmr & Hqs &
    Hqr & Hf1 & Hf2 & Hf3 & Hfirst & Hadd & ->).
  (* the first sub-solve recurses *)
  apply next_level_or_solve_Ok in Hfirst
    as [(Heq & _)|(_ & inner1 & _ & ->)]; [lia|].
  (* the additional work is the second pass *)
  unfold additional_work in Hadd.
  bind_inv_as Hadd st m0 t0 t0' H0 E0.
  apply get_state_Ok in H0 as (-> & -> & ->).
  assert (multigrid_cycle.eqb cycle multigrid_cycle.f
          || multigrid_cycle.eqb cycle multigrid_cycle.w = true) as Hfw
    by (by destruct Hc as [-> | ->]).
  rewrite Hfw in Hadd.
  apply second_cycle_Ok in Hadd as (mem4 & tr4 & Hf4 & Hsecond & ->).
  apply next_level_or_solve_Ok in Hsecond
    as [(Heq & _)|(_ & inner2 & _ & ->)]; [lia|].
  exists mem'. eexists.
  exists rp, pre_s, pre_r, mid_s, mid_r, post_s, post_r, inner1, inner2.
  split; [exact Hrun|]. do 7 (split; [done|]).
  rewrite E0, (fr_neg_one _ _ Hf2), (fr_one _ _ Hf2).
  fold neg_one one r g e. simpl.
  rewrite <- !app_assoc. simpl.
  by destruct Hc as [-> | ->].
Qed.

End SecondCycle.

Section KCycleClaims.
Context `{B : Backend}.

Lemma count_pre_events p level matrix neg_one one pre_s pre_r b x r :
  p = is_step_1 ∨ p = is_step_2 ∨ p = is_norm2 →
  count_events p (pre_events level matrix neg_one one pre_s pre_r b x r) = 0.
Proof.
  intros [->|[->| ->]]; unfold pre_events;
    by destruct (negb (level =? 0)), pre_s.
Qed.

Lemma count_post_events p matrix neg_one one post_s post_r b x r :
  p = is_step_1 ∨ p = is_step_2 ∨ p = is_norm2 →
  count_events p (post_events matrix neg_one one post_s post_r b x r) = 0.
Proof. intros [->|[->| ->]]; unfold post_events; by destruct post_s. Qed.

(** At a level that is a multiple of [k_base], the additional work of a
    K-cycle is the K-cycle branch. *)
Lemma additional_work_kcycle rec cycle level total matrix rp mid_s mid_r
    b x r g e mem :
  is_kcycle cycle = true → k_base (state mem) ≠ 0 →
  level mod k_base (state mem) = 0 →
  additional_work rec cycle level total matrix rp mid_s mid_r b x r g e mem
  = kcycle rec cycle level total rp g e mem.
Proof.
  intros Hk Hk0 Hmod. unfold additional_work, mbind, M_bind, get_state.
  assert (multigrid_cycle.eqb cycle multigrid_cycle.f
          || multigrid_cycle.eqb cycle multigrid_cycle.w = false) as ->
    by (by destruct cycle).
  rewrite Hk.
  destruct (Nat.eqb_spec (k_base (state mem)) 0) as [|_]; [done|].
  rewrite Hmod. simpl.
  destruct (kcycle rec cycle level total rp g e mem) as [[[u m] t]|err];
    [|done].
  reflexivity.
Qed.

(** The K-cycle branch of an activation whose first coarse solve left the
    memory [mem]: the events of step 1, of the stop check and of step 2. *)
Lemma kcycle_events rec cycle level total rp mem mem' tr :
  let k := level / k_base (state mem) in
  let tol := rel_tol (state mem) in
  let is_fcg := multigrid_cycle.eqb cycle multigrid_cycle.kfcg in
  let matrix := get_coarse_operator rp in
  let g := elem g_list level in
  let e := elem e_list level in
  let alpha := elem alpha_list k in
  let rho := elem rho_list k in
  let v := elem v_list k in
  let d := elem d_list k in
  let old_norm := norm_elem old_norm_list k in
  let new_norm := norm_elem new_norm_list k in
  kcycle rec cycle level total rp g e mem = Ok ((), mem', tr) →
  ∃ g1 g2 is_stop tr3,
    tr = first_iteration_events is_fcg (checks_norms tol) matrix alpha rho v
           g d e old_norm (compute_norm2 g1) ++
         (if checks_norms tol
          then [ev_compute_norm2 g new_norm (compute_norm2 g2);
                ev_kcycle_check_stop old_norm new_norm is_stop]
          else []) ++ tr3 ∧
    is_stop = (if checks_norms tol
               then kcycle_check_stop (compute_norm2 g1) (compute_norm2 g2)
                      tol
               else true) ∧
    count_events is_step_1 tr3 = 0 ∧
    count_events is_norm2 tr3 = 0 ∧
    count_events is_step_2 tr3
      = (if runs_second_iteration tol is_stop then 1 else 0).
Proof.
  intros k tol is_fcg matrix g e alpha rho v d old_norm new_norm H.
  subst k tol is_fcg matrix g e alpha rho v d old_norm new_norm.
  apply kcycle_Ok in H as (mem1 & mem2 & tr1 & tr2 & tr3 & is_stop & H1 &
    H2 & H3 & -> & Hla & Hlr & Hlv & Hlo & Hln).
  apply kcycle_first_iteration_Ok in H1; try done.
  destruct H1 as (e1 & v1 & g1 & _ & _ & _ & H1). cbv zeta in H1.
  destruct H1 as (-> & _ & _ & _ & Hold & Hf1).
  apply kcycle_stop_check_Ok in H2;
    [|by rewrite (fr_norms _ _ Hf1)].
  destruct H2 as [Hf2 H2]. rewrite (fr_rel_tol _ _ Hf1) in H2.
  assert (count_events is_step_1 tr3 = 0 ∧
          count_events is_norm2 tr3 = 0 ∧
          count_events is_step_2 tr3
          = (if runs_second_iteration (rel_tol (state mem)) is_stop
             then 1 else 0)) as Hcount.
  { destruct (runs_second_iteration (rel_tol (state mem)) is_stop).
    - apply kcycle_second_iteration_Ok in H3 as (m & t & Hsub & ->).
      rewrite !count_events_app.
      rewrite !(next_level_or_solve_count _ _ _ _ _ _ _ _ _ _ _ _ Hsub)
        by auto.
      by destruct (multigrid_cycle.eqb cycle multigrid_cycle.kfcg).
    - by destruct H3 as [_ ->]. }
  destruct (checks_norms (rel_tol (state mem))).
  - destruct H2 as (gv & ov & _ & Hov & Hstop & ->).
    rewrite Hold in Hov. injection Hov as <-.
    by exists g1, gv, is_stop, tr3.
  - destruct H2 as [-> ->].
    by exists g1, g1, true, tr3.
Qed.

(** The columns the stop kernel looks at. *)
Lemma kcycle_check_stop_columns (old_norm new_norm : norm_vec) tol :
  kcycle_check_stop old_norm new_norm tol = true ↔
  ∀ j o n, old_norm !! j = Some o → new_norm !! j = Some n →
    SFleb n (SFmul fp_prec fp_emax tol o) = true.
Proof.
  unfold kcycle_check_stop. rewrite forallb_forall. split.
  - intros H j o n Ho Hn. apply (H (o, n)).
    apply list_elem_of_In. apply list_elem_of_lookup. exists j.
    apply lookup_zip_with_Some. by exists o, n.
  - intros H [o n] Hin.
    apply list_elem_of_In, list_elem_of_lookup in Hin as [j Hj].
    apply lookup_zip_with_Some in Hj as (o' & n' & E & Ho & Hn).
    injection E as -> ->. by eapply H.
Qed.

End KCycleClaims.

Section KCycleTheorems.
Context `{B : Backend}.

(** An activation of a K-cycle at a level that is a multiple of [k_base]:
    it runs to completion, and its events are those of the phases before
    the K-cycle branch, of that branch, and of the phases after it. *)
Lemma kcycle_activation fuel cycle level matrix b x mem :
  is_kcycle cycle = true → ready cycle mem → level < total_level mem →
  level mod k_base (state mem) = 0 → total_level mem - level ≤ fuel →
  ptr_valid mem b → ptr_valid mem x →
  ∃ mem' tr rp mem2 mem3 head tr2 tail,
    run_cycle fuel cycle level matrix b x mem = Ok ((), mem', tr) ∧
    rstr_prlg_list_ (multigrid (state mem)) !! level = Some rp ∧
    frame mem mem2 ∧
    kcycle (run_cycle (fuel - 1)) cycle level (total_level mem) rp
      (elem g_list level) (elem e_list level) mem2 = Ok ((), mem3, tr2) ∧
    tr = head ++ tr2 ++ tail ∧
    (∀ p, p = is_step_1 ∨ p = is_step_2 ∨ p = is_norm2 →
          count_events p head = 0 ∧ count_events p tail = 0).
Proof.
  intros Hk Hrd Hlev Hmod Hn Hb Hx.
  destruct fuel as [|fuel]; [lia|].
  destruct (run_cycle_total (S fuel) cycle level matrix b x mem)
    as ([] & mem' & tr & Hrun & _ & _); try done.
  pose proof Hrun as Hbody. simpl in Hbody.
  apply (run_cycle_body_Ok _ fuel) in Hbody; try done;
    [|apply run_cycle_total].
  destruct Hbody as (rp & pre_s & pre_r & mid_s & mid_r & post_s & post_r &
    mem1 & mem2 & mem3 & tr1 & tr2 & Hrp & Hps & Hpr & Hms & Hmr & Hqs &
    Hqr & Hf1 & Hf2 & Hf3 & Hfirst & Hadd & ->).
  destruct (rd_kcycle _ _ Hrd Hk) as [Hk0 _].
  rewrite additional_work_kcycle in Hadd;
    [|done|by rewrite (fr_k_base _ _ Hf2)|by rewrite (fr_k_base _ _ Hf2)].
  exists mem'. eexists. exists rp, mem2, mem3.
  exists (pre_events level matrix (neg_one (state mem)) (one (state mem))
            pre_s pre_r b x (elem r_list level) ++
          [ev_restrict_apply rp (elem r_list level) (elem g_list level)] ++
          tr1), tr2,
         ([ev_prolong_applyadd rp (elem e_list level) x] ++
          post_events matrix (neg_one (state mem)) (one (state mem))
            post_s post_r b x (elem r_list level)).
  split; [exact Hrun|]. split; [done|]. split; [done|].
  split; [by replace (S fuel - 1) with fuel by lia|].
  split; [by rewrite <- !app_assoc|].
  intros p Hp. rewrite !count_events_app.
  rewrite (count_pre_events p), (count_post_events p) by done.
  rewrite (next_level_or_solve_count p _ _ _ _ _ _ _ _ _ _ _ Hfirst)
    by done.
  by destruct Hp as [->|[->| ->]].
Qed.

(** X22 (C1).  In a K-cycle (FCG or GCR) at a level with [level mod k_base = 0],
    an activation runs to completion and executes the update kernel of
    step 1 exactly once; the number of times it executes step 2 is decided
    by [rel_tol]: once, with no norm computed, when [rel_tol < 0]; never,
    with no norm computed, when [rel_tol] is NaN; and when [rel_tol >= 0]
    the norm of [g] is recorded before and after the update of step 1,
    the stop kernel is asked on these two norms, and step 2 is executed
    if and only if its answer is negative, that is if and only if not
    every right-hand-side column has [new_norm <= rel_tol * old_norm]. *)
Theorem kcycle_step_selection fuel cycle level matrix b x mem :
  is_kcycle cycle = true → ready cycle mem → level < total_level mem →
  level mod k_base (state mem) = 0 → total_level mem - level ≤ fuel →
  ptr_valid mem b → ptr_valid mem x →
  let tol := rel_tol (state mem) in
  let k := level / k_base (state mem) in
  let g := elem g_list level in
  ∃ mem' tr,
    run_cycle fuel cycle level matrix b x mem = Ok ((), mem', tr) ∧
    count_events is_step_1 tr = 1 ∧
    (SFltb tol fp_zero = true →
     count_events is_step_2 tr = 1 ∧ count_events is_norm2 tr = 0) ∧
    (std_isnan tol = true →
     count_events is_step_2 tr = 0 ∧ count_events is_norm2 tr = 0) ∧
    (SFleb fp_zero tol = true →
     ∃ head tail old_norm new_norm,
       tr = head ++
            [ev_compute_norm2 g (norm_elem old_norm_list k) old_norm;
             ev_kcycle_step_1 (elem alpha_list k) (elem rho_list k)
               (elem v_list k) g (elem d_list k) (elem e_list level);
             ev_compute_norm2 g (norm_elem new_norm_list k) new_norm;
             ev_kcycle_check_stop (norm_elem old_norm_list k)
               (norm_elem new_norm_list k)
               (kcycle_check_stop old_norm new_norm tol)] ++ tail ∧
       count_events is_norm2 tr = 2 ∧
       count_events is_step_2 tr
         = (if kcycle_check_stop old_norm new_norm tol then 0 else 1) ∧
       (kcycle_check_stop old_norm new_norm tol = false ↔
        ¬ ∀ j o n, old_norm !! j = Some o → new_norm !! j = Some n →
            SFleb n (SFmul fp_prec fp_emax tol o) = true)).
Proof.
  intros Hk Hrd Hlev Hmod Hn Hb Hx tol k g.
  destruct (kcycle_activation fuel cycle level matrix b x mem)
    as (mem' & tr & rp & mem2 & mem3 & head & tr2 & tail & Hrun & Hrp &
        Hf2 & Hkc & -> & Hcount); try done.
  apply kcycle_events in Hkc
    as (g1 & g2 & is_stop & tr3 & -> & Hstop & Hc1 & Hcn & Hc2).
  rewrite (fr_rel_tol _ _ Hf2), (fr_k_base _ _ Hf2) in *.
  subst tol k g.
  destruct (Hcount is_step_1) as [H1h H1t]; [auto|].
  destruct (Hcount is_step_2) as [H2h H2t]; [auto|].
  destruct (Hcount is_norm2) as [Hnh Hnt]; [auto|].
  exists mem'. eexists. split; [exact Hrun|].
  rewrite !count_events_app, H1h, H1t, H2h, H2t, Hnh, Hnt, Hc1, Hc2, Hcn.
  split; [|split; [|split]].
  - unfold first_iteration_events.
    by destruct (multigrid_cycle.eqb cycle multigrid_cycle.kfcg),
      (checks_norms (rel_tol (state mem))).
  - intros Hneg. destruct (tolerance_negative _ Hneg) as [Hchk Hle].
    rewrite Hchk. unfold runs_second_iteration. rewrite Hneg.
    unfold first_iteration_events.
    by destruct (multigrid_cycle.eqb cycle multigrid_cycle.kfcg).
  - intros Hnan. destruct (tolerance_nan _ Hnan) as (Hchk & Hlt & Hle).
    rewrite Hchk. unfold runs_second_iteration. rewrite Hlt, Hle.
    unfold first_iteration_events.
    by destruct (multigrid_cycle.eqb cycle multigrid_cycle.kfcg).
  - intros Hpos. destruct (tolerance_not_negative _ Hpos) as [Hchk Hlt].
    rewrite Hchk in *. unfold runs_second_iteration.
    rewrite Hlt, Hpos. simpl orb. simpl andb.
    eexists (head ++ [_; _; _]), (tr3 ++ tail),
      (compute_norm2 g1), (compute_norm2 g2).
    rewrite <- Hstop.
    split; [|split; [|split]].
    + unfold first_iteration_events. simpl.
      by rewrite <- !app_assoc.
    + unfold first_iteration_events.
      by destruct (multigrid_cycle.eqb cycle multigrid_cycle.kfcg).
    + unfold first_iteration_events.
      by destruct (multigrid_cycle.eqb cycle multigrid_cycle.kfcg),
        is_stop.
    + rewrite Hstop, <- kcycle_check_stop_columns.
      by destruct (kcycle_check_stop _ _ _).
Qed.

End KCycleTheorems.

Section KCycleFirstStep.
Context `{B : Backend}.

Lemma checks_norms_spec (tol : spec_float) :
  checks_norms tol = true ↔ std_isnan tol = false ∧ SFleb fp_zero tol = true.
Proof.
  unfold checks_norms. rewrite andb_true_iff, negb_true_iff. tauto.
Qed.

(** X24 (C6).  Step 1 of the K-cycle is executed by every activation at a level
    with [level mod k_base = 0], whatever [rel_tol] is.  It stores
    [v = A_coarse * e], then, with [t = e] in the FCG variant and [t = v]
    in the GCR variant, [rho = dot(t, v)] and [alpha = dot(t, g)]; it
    stores the norm of [g] in [old_norm] when [rel_tol] is not NaN and
    [rel_tol >= 0], and leaves [old_norm] as it was otherwise; the update
    kernel of step 1 follows. *)
Theorem kcycle_first_step fuel cycle level matrix b x mem :
  is_kcycle cycle = true → ready cycle mem → level < total_level mem →
  level mod k_base (state mem) = 0 → total_level mem - level ≤ fuel →
  ptr_valid mem b → ptr_valid mem x →
  let tol := rel_tol (state mem) in
  let k := level / k_base (state mem) in
  let is_fcg := multigrid_cycle.eqb cycle multigrid_cycle.kfcg in
  let alpha := elem alpha_list k in
  let rho := elem rho_list k in
  let v := elem v_list k in
  let d := elem d_list k in
  let g := elem g_list level in
  let e := elem e_list level in
  let old_norm := norm_elem old_norm_list k in
  ∃ mem' tr rp head tail before after e1 v1 g1,
    run_cycle fuel cycle level matrix b x mem = Ok ((), mem', tr) ∧
    rstr_prlg_list_ (multigrid (state mem)) !! level = Some rp ∧
    let A_coarse := get_coarse_operator rp in
    let v2 := lin_apply A_coarse e1 v1 in
    let t := if is_fcg then e else v in
    let t1 := if is_fcg then e1 else v2 in
    let step_1 :=
      [ev_apply A_coarse e v; ev_compute_dot t v rho;
       ev_compute_dot t g alpha] ++
      (if checks_norms tol
       then [ev_compute_norm2 g old_norm (compute_norm2 g1)] else []) ++
      [ev_kcycle_step_1 alpha rho v g d e] in
    tr = head ++ step_1 ++ tail ∧
    kcycle_first_iteration is_fcg A_coarse alpha rho v g d e old_norm before
      = Ok ((), after, step_1) ∧
    read before e = Some e1 ∧ read before v = Some v1 ∧
    read before g = Some g1 ∧
    read after v = Some v2 ∧
    read after rho = Some (compute_dot t1 v2) ∧
    read after alpha = Some (compute_dot t1 g1) ∧
    norm_read after old_norm
      = (if checks_norms tol then Some (compute_norm2 g1)
         else norm_read before old_norm) ∧
    (checks_norms tol = true ↔
     std_isnan tol = false ∧ SFleb fp_zero tol = true).
Proof.
  intros Hk Hrd Hlev Hmod Hn Hb Hx tol k is_fcg alpha rho v d g e old_norm.
  subst tol k is_fcg alpha rho v d g e old_norm.
  destruct (kcycle_activation fuel cycle level matrix b x mem)
    as (mem' & tr & rp & mem2 & mem3 & head & tr2 & tail & Hrun & Hrp &
        Hf2 & Hkc & -> & _); try done.
  apply kcycle_Ok in Hkc
    as (m1 & m2 & tr1 & tr2' & tr3 & is_stop & H1 & _ & _ & -> &
        Ha & Hr & Hv & Ho & _).
  pose proof H1 as H1'.
  apply kcycle_first_iteration_Ok in H1'; try done.
  destruct H1' as (e1 & v1 & g1 & He & Hv1 & Hg & -> & Hv2 & Hrho & Halpha &
                   Hold & _).
  rewrite (fr_rel_tol _ _ Hf2), (fr_k_base _ _ Hf2) in *.
  unfold first_iteration_events in *.
  exists mem'. eexists. exists rp, head, (tr2' ++ tr3 ++ tail), mem2, m1,
    e1, v1, g1.
  split; [exact Hrun|]. split; [done|]. cbv zeta.
  split; [by rewrite <- !app_assoc|].
  split; [exact H1|].
  repeat (split; [done|]). apply checks_norms_spec.
Qed.

End KCycleFirstStep.

(** ** The cycle on concrete hierarchies *)

Module CycleExamples.
Import Example.

(** The memories of the examples are ready for their cycles. *)
Lemma f_hierarchy_ready :
  ready multigrid_cycle.f (memory_of f_hierarchy 5 0).
Proof.
  refine (proj1 (MultigridState_new_ready f_hierarchy 1
    (state (memory_of f_hierarchy 5 0)) 5%Z 0%Z _ _)); [|reflexivity].
  refine (proj1 (generate_ok (plain halve 3 fp_zero) (8, 0) 3%Z always_first
    always_first 1%Z (-1)%Z multigrid_cycle.f _ _)).
  reflexivity.
Qed.

(** C5, at a concrete input: an F-cycle at level 0 of three halving
    levels runs its first sub-cycle as an F-cycle and its second one as a
    V-cycle, with the prolongation, the residual and the second
    restriction in between. *)
Lemma second_cycle_of_w_and_f_witness :
  ∃ mem' inner1 inner2,
    run_cycle (B := backend) 3 multigrid_cycle.f 0 (8, 0) dense_b dense_x
      (memory_of f_hierarchy 5 0)
    = Ok ((), mem',
          [ev_restrict_apply 4 (elem r_list 0) (elem g_list 0);
           ev_run_cycle multigrid_cycle.f 1 (4, 0) (elem g_list 0)
             (elem e_list 0) inner1;
           ev_prolong_applyadd 4 (elem e_list 0) dense_x;
           ev_copy_from (elem r_list 0) dense_b;
           ev_apply4 (8, 0) (-1)%Z dense_x 1%Z (elem r_list 0);
           ev_restrict_apply 4 (elem r_list 0) (elem g_list 0);
           ev_run_cycle multigrid_cycle.v 1 (4, 0) (elem g_list 0)
             (elem e_list 0) inner2;
           ev_prolong_applyadd 4 (elem e_list 0) dense_x]).
Proof.
  destruct (second_cycle_of_w_and_f (B := backend) 3 multigrid_cycle.f 0 (8, 0) dense_b
    dense_x (memory_of f_hierarchy 5 0) (or_intror eq_refl)
    f_hierarchy_ready ltac:(vm_compute; lia) ltac:(vm_compute; lia) I I)
    as (mem' & tr & rp & pre_s & pre_r & mid_s & mid_r & post_s & post_r &
        inner1 & inner2 & Hrun & Hrp & Hps & Hpr & Hms & Hmr & Hqs & Hqr &
        Htr).
  vm_compute in Hrp, Hps, Hpr, Hms, Hmr, Hqs, Hqr.
  injection Hrp as <-. injection Hps as <-. injection Hms as <-.
  injection Hqs as <-.
  exists mem', inner1, inner2. rewrite Hrun, Htr. reflexivity.
Defined.

Lemma kfcg_hierarchy_ready :
  ready multigrid_cycle.kfcg (memory_of kfcg_hierarchy 5 0).
Proof.
  refine (proj1 (MultigridState_new_ready kfcg_hierarchy 1
    (state (memory_of kfcg_hierarchy 5 0)) 5%Z 0%Z _ _)); [|reflexivity].
  refine (proj1 (generate_ok (plain halve 3 minus_one) (8, 0) 3%Z
    always_first always_first 1%Z (-1)%Z multigrid_cycle.kfcg _ _)).
  reflexivity.
Qed.

Lemma kgcr_hierarchy_ready :
  ready multigrid_cycle.kgcr (memory_of kgcr_hierarchy 5 0).
Proof.
  refine (proj1 (MultigridState_new_ready kgcr_hierarchy 1
    (state (memory_of kgcr_hierarchy 5 0)) 5%Z 0%Z _ _)); [|reflexivity].
  refine (proj1 (generate_ok (plain halve 3 fp_zero) (8, 0) 3%Z
    always_first always_first 1%Z (-1)%Z multigrid_cycle.kgcr _ _)).
  reflexivity.
Qed.

(** C1, at a concrete input: with the tolerance -1 the FCG K-cycle runs
    both steps and computes no norm. *)
Lemma kcycle_step_selection_witness :
  ∃ mem' tr,
    run_cycle (B := backend) 3 multigrid_cycle.kfcg 0 (8, 0) dense_b dense_x
      (memory_of kfcg_hierarchy 5 0) = Ok ((), mem', tr) ∧
    count_events is_step_1 tr = 1 ∧ count_events is_step_2 tr = 1 ∧
    count_events is_norm2 tr = 0.
Proof.
  destruct (kcycle_step_selection (B := backend) 3 multigrid_cycle.kfcg 0
    (8, 0) dense_b dense_x (memory_of kfcg_hierarchy 5 0) eq_refl
    kfcg_hierarchy_ready ltac:(vm_compute; lia) ltac:(reflexivity)
    ltac:(vm_compute; lia) I I)
    as (mem' & tr & Hrun & H1 & Hneg & _).
  exists mem', tr. split; [exact Hrun|]. split; [exact H1|].
  apply Hneg. reflexivity.
Defined.

(** C6, at a concrete input: with the tolerance 0 the GCR K-cycle takes
    both dot products with [v] and records the norm of [g] before the
    update kernel. *)
Lemma kcycle_first_step_witness :
  ∃ mem' head tail g1,
    run_cycle (B := backend) 3 multigrid_cycle.kgcr 0 (8, 0) dense_b dense_x
      (memory_of kgcr_hierarchy 5 0)
    = Ok ((), mem',
          head ++
          [ev_apply (4, 0) (elem e_list 0) (elem v_list 0);
           ev_compute_dot (elem v_list 0) (elem v_list 0) (elem rho_list 0);
           ev_compute_dot (elem v_list 0) (elem g_list 0)
             (elem alpha_list 0);
           ev_compute_norm2 (elem g_list 0) (norm_elem old_norm_list 0)
             (compute_norm2 g1);
           ev_kcycle_step_1 (elem alpha_list 0) (elem rho_list 0)
             (elem v_list 0) (elem g_list 0) (elem d_list 0)
             (elem e_list 0)] ++ tail).
Proof.
  destruct (kcycle_first_step (B := backend) 3 multigrid_cycle.kgcr 0
    (8, 0) dense_b dense_x (memory_of kgcr_hierarchy 5 0) eq_refl
    kgcr_hierarchy_ready ltac:(vm_compute; lia) ltac:(reflexivity)
    ltac:(vm_compute; lia) I I)
    as (mem' & tr & rp & head & tail & before & after & e1 & v1 & g1 &
        Hrun & Hrp & Htr & _).
  vm_compute in Hrp. injection Hrp as <-.
  exists mem', head, tail, g1. rewrite Hrun, Htr. reflexivity.
Defined.

End CycleExamples.

(** ** Further properties of the hierarchy builder *)

Section HierarchyBounds.
Context `{B : Backend}.

(** How the loop of [generate] ends: at [max_levels], at an operator with
    no more than [min_coarse_rows] rows, or at a coarsening that keeps the
    row count. *)
Lemma generate_loop_exit fuel :
  ∀ level matrix mg level' matrix' mg',
    generate_loop fuel level (get_size0 matrix) matrix mg
      = Ok (level', matrix', mg') →
    max_levels (parameters_ mg) ≤ level' ∨
    get_size0 matrix' ≤ min_coarse_rows (parameters_ mg) ∨
    ∃ fac,
      rstr_prlg (parameters_ mg) !! rstr_prlg_index_ mg level' matrix'
        = Some fac ∧
      get_size0 (get_coarse_operator (rp_generate fac matrix'))
        = get_size0 matrix'.
Proof.
  induction fuel as [|fuel IH]; intros level matrix mg level' matrix' mg' H;
    [discriminate|].
  simpl in H.
  destruct (Nat.ltb_spec level (max_levels (parameters_ mg))) as [Hlev|Hlev];
    [|injection H as <- <- <-; by left].
  destruct (Nat.ltb_spec (min_coarse_rows (parameters_ mg))
              (get_size0 matrix)) as [Hmin|Hmin];
    [|injection H as <- <- <-; right; by left].
  simpl in H.
  apply outcome_bind_Ok in H as ([] & Hb & H).
  apply outcome_bind_Ok in H as (fac & Hfac & H).
  apply at_Ok in Hfac.
  destruct (Nat.eqb_spec
              (get_size0 (get_coarse_operator (rp_generate fac matrix)))
              (get_size0 matrix)) as [Heq|Hne].
  - injection H as <- <- <-. right; right. by exists fac.
  - apply outcome_bind_Ok in H as (mg1 & Hsm & H).
    apply generate_smoothers_Ok in Hsm as (Hcfg & _).
    apply config_fields in Hcfg as (Ep & _ & Ei & _).
    simpl in Ep, Ei.
    apply IH in H. by rewrite Ep, Ei in H.
Qed.


Lemma ensure_in_bounds_Throw index bound e :
  GKO_ENSURE_IN_BOUNDS index bound = Throw e →
  is_bounds_error [bound] e.
Proof.
  unfold GKO_ENSURE_IN_BOUNDS.
  destruct (Nat.ltb_spec index bound); [discriminate|].
  intros [= <-]. exists index, bound. split; [done|]. split; [done|].
  apply list_elem_of_here.
Qed.

Lemma is_bounds_error_mono sizes sizes' e :
  (∀ n, n ∈ sizes → n ∈ sizes') →
  is_bounds_error sizes e → is_bounds_error sizes' e.
Proof.
  intros Hsub (index & bound & -> & Hle & Hin).
  exists index, bound. split; [done|]. split; [done|]. by apply Hsub.
Qed.

Ltac sizes_solver :=
  let n := fresh "n" in
  let Hn := fresh "Hn" in
  intros n Hn; unfold checked_sizes;
  rewrite ?elem_of_app, ?elem_of_cons, ?elem_of_nil in *; tauto.

Lemma guarded_at_Throw {A C} (l : list A) i (k : A → outcome C) e :
  (GKO_ENSURE_IN_BOUNDS i (length l) ≫= λ _, at_ l i ≫= k) = Throw e →
  is_bounds_error [length l] e ∨ ∃ a, l !! i = Some a ∧ k a = Throw e.
Proof.
  intros H. apply outcome_bind_Throw in H as [H|([] & Hb & H)].
  - left. by eapply ensure_in_bounds_Throw.
  - apply ensure_in_bounds_Ok in Hb.
    destruct (at_lt l i Hb) as [a Ha]. rewrite Ha in H.
    right. exists a. by apply at_Ok in Ha.
Qed.

Lemma handle_list_smoother_Throw index matrix sl e :
  handle_list_smoother index matrix sl = Throw e →
  is_bounds_error [length sl] e.
Proof.
  rewrite handle_list_smoother_cases.
  destruct sl as [|item [|item' sl]]; [discriminate..|].
  destruct (_ !! index) eqn:E; [discriminate|].
  intros [= <-]. exists index, (length (item :: item' :: sl)).
  split; [done|]. split; [by apply lookup_ge_None|].
  apply list_elem_of_here.
Qed.

Lemma handle_list_relaxation_Throw index (ra : list ValueType) one e :
  handle_list_relaxation index ra one = Throw e →
  is_bounds_error [length ra] e.
Proof.
  rewrite handle_list_relaxation_cases.
  destruct ra as [|a [|a' ra]]; [discriminate..|].
  destruct (_ !! index) eqn:E; [discriminate|].
  intros [= <-]. exists index, (length (a :: a' :: ra)).
  split; [done|]. split; [by apply lookup_ge_None|].
  apply list_elem_of_here.
Qed.

Lemma handle_list_Throw index matrix sl ra ss rs one e :
  handle_list index matrix sl ra ss rs one = Throw e →
  is_bounds_error [length sl; length ra] e.
Proof.
  unfold handle_list. intros H.
  apply outcome_bind_Throw in H as [H|(s & _ & H)].
  { apply handle_list_smoother_Throw in H.
    eapply is_bounds_error_mono; [|exact H]. sizes_solver. }
  apply outcome_bind_Throw in H as [H|(r & _ & H)]; [|discriminate].
  apply handle_list_relaxation_Throw in H.
  eapply is_bounds_error_mono; [|exact H]. sizes_solver.
Qed.

Lemma generate_smoothers_Throw index matrix mg e :
  generate_smoothers index matrix mg = Throw e →
  is_bounds_error (checked_sizes (parameters_ mg)) e.
Proof.
  unfold generate_smoothers, checked_sizes. intros H.
  apply outcome_bind_Throw in H as [H|(sr & _ & H)].
  { apply handle_list_Throw in H.
    eapply is_bounds_error_mono; [|exact H]. sizes_solver. }
  apply outcome_bind_Throw in H as [H|(mg1 & _ & H)].
  - destruct (mid_case _); try discriminate.
    apply outcome_bind_Throw in H as [H|(sr' & _ & H)]; [|discriminate].
    apply handle_list_Throw in H.
    eapply is_bounds_error_mono; [|exact H]. sizes_solver.
  - destruct (post_uses_pre _); [discriminate|]. simpl in H.
    apply outcome_bind_Throw in H as [H|(sr' & _ & H)]; [|discriminate].
    apply handle_list_Throw in H.
    eapply is_bounds_error_mono; [|exact H]. sizes_solver.
Qed.

Lemma generate_loop_Throw fuel :
  ∀ level num_rows matrix mg e,
    generate_loop fuel level num_rows matrix mg = Throw e →
    e = OutOfFuel ∨ is_bounds_error (checked_sizes (parameters_ mg)) e.
Proof.
  induction fuel as [|fuel IH]; intros level num_rows matrix mg e H.
  { injection H as <-. by left. }
  simpl in H. destruct (_ && _); [|discriminate].
  apply guarded_at_Throw in H as [H|(fac & _ & H)].
  { right. eapply is_bounds_error_mono; [|exact H].
    sizes_solver. }
  destruct (_ =? num_rows); [discriminate|].
  apply outcome_bind_Throw in H as [H|(mg1 & Hsm & H)].
  - right. by apply generate_smoothers_Throw in H.
  - apply generate_smoothers_Ok in Hsm as (Hcfg & _).
    apply config_fields in Hcfg as (Ep & _). simpl in Ep.
    apply IH in H. by rewrite Ep in H.
Qed.

Lemma generate_coarsest_Throw level matrix mg e :
  generate_coarsest level matrix mg = Throw e →
  is_bounds_error (checked_sizes (parameters_ mg)) e.
Proof.
  unfold generate_coarsest. destruct (_ =? 0); [discriminate|].
  intros H. apply guarded_at_Throw in H as [H|(s & _ & H)].
  - eapply is_bounds_error_mono; [|exact H].
    sizes_solver.
  - by destruct s.
Qed.

(** X1.  A hierarchy that [generate] returns has at most [max_levels]
    levels; the operator of every level has more than [min_coarse_rows]
    rows, and the level's restriction and prolongation were generated
    from that operator by the coarsening factory at the index the
    selector returned for that level and operator. *)
Theorem generate_levels_within_bounds p A scf rpi si one neg_one c mg' :
  generate (unbuilt p A scf rpi si one neg_one c) = Ok mg' →
  length (rstr_prlg_list_ mg') ≤ max_levels p ∧
  ∀ i rp, rstr_prlg_list_ mg' !! i = Some rp →
    ∃ Ai fac, level_operator A (rstr_prlg_list_ mg') i = Some Ai ∧
      min_coarse_rows p < get_size0 Ai ∧
      rstr_prlg p !! rpi i Ai = Some fac ∧ rp = rp_generate fac Ai.
Proof.
  intros Hgen. apply generate_ok in Hgen as [Hok Hcfg].
  apply config_fields in Hcfg as (Ep & EA & Ei & _).
  simpl in Ep, EA, Ei.
  destruct Hok as [Hlev Hcom _ _ _ _]. rewrite Ep, EA, Ei in Hcom.
  split.
  - destruct (lookup_lt_is_Some_2 (rstr_prlg_list_ mg')
                (length (rstr_prlg_list_ mg') - 1)) as [rp Hrp]; [lia|].
    destruct (Hcom _ _ Hrp) as (_ & _ & _ & _ & _ & _ & Hmax & _). lia.
  - intros i rp Hrp.
    destruct (Hcom _ _ Hrp) as (Ai & fac & HAi & Hfac & -> & _ & _ & Hmin).
    by exists Ai, fac.
Qed.

(** X2.  [generate] makes the hierarchy as deep as the loop allows: below
    the last level it returns, the hierarchy has [max_levels] levels, or
    the coarsest operator has no more than [min_coarse_rows] rows, or the
    coarsening factory selected for the next level gives an operator with
    the same row count as the coarsest operator. *)
Theorem generate_stops_for_a_reason p A scf rpi si one neg_one c mg' :
  generate (unbuilt p A scf rpi si one neg_one c) = Ok mg' →
  let rps := rstr_prlg_list_ mg' in
  ∃ M, level_operator A rps (length rps) = Some M ∧
    (length rps = max_levels p ∨
     get_size0 M ≤ min_coarse_rows p ∨
     ∃ fac, rstr_prlg p !! rpi (length rps) M = Some fac ∧
            get_size0 (get_coarse_operator (rp_generate fac M))
              = get_size0 M).
Proof.
  intros Hgen rps. subst rps. unfold generate in Hgen.
  apply outcome_bind_Ok in Hgen as ([[level matrix] mg2] & H & E).
  injection E as <-. simpl.
  apply generate_trace_Ok in H as (mg1 & Hloop & Hinv & Hcfg & Hpos & Hco).
  apply generate_coarsest_Ok in Hco as (s & ->).
  destruct (share_lists_config mg1) as [_ Hrps].
  assert (rstr_prlg_list_ (set_coarsest_solver (share_lists mg1) s)
          = rstr_prlg_list_ mg1) as -> by done.
  apply config_fields in Hcfg as (Ep & EA & Ei & _).
  simpl in Ep, EA, Ei.
  destruct Hinv as [Hlen _ Hcur Hcom _ _ _].
  rewrite Hlen. rewrite EA in Hcur. exists matrix. split; [done|].
  apply generate_loop_exit in Hloop. simpl in Hloop.
  destruct Hloop as [Hmax|[Hmin|Hsame]]; [|by right; left|by right; right].
  left. apply Nat.le_antisymm; [|done].
  destruct level as [|level]; [lia|].
  destruct (lookup_lt_is_Some_2 (rstr_prlg_list_ mg1) level) as [rp Hrp];
    [lia|].
  destruct (Hcom _ _ Hrp) as (_ & _ & _ & _ & _ & _ & Hlt & _).
  rewrite Ep in Hlt. simpl in Hlt. lia.
Qed.

(** X3.  The list sharing at the end of [generate]: with [post_uses_pre]
    the post-smoother and post-relaxation lists are the pre lists; with
    [mid_case] equal to [pre] the mid lists are the pre lists, and with
    [mid_case] equal to [post] they are the post lists (so the pre lists
    again when [post_uses_pre] holds). *)
Theorem generate_shares_lists p A scf rpi si one neg_one c mg' :
  generate (unbuilt p A scf rpi si one neg_one c) = Ok mg' →
  (post_uses_pre p = true →
   post_smoother_list_ mg' = pre_smoother_list_ mg' ∧
   post_relaxation_list_ mg' = pre_relaxation_list_ mg') ∧
  (mid_case p = multigrid_mid_uses.pre →
   mid_smoother_list_ mg' = pre_smoother_list_ mg' ∧
   mid_relaxation_list_ mg' = pre_relaxation_list_ mg') ∧
  (mid_case p = multigrid_mid_uses.post →
   mid_smoother_list_ mg' = post_smoother_list_ mg' ∧
   mid_relaxation_list_ mg' = post_relaxation_list_ mg').
Proof.
  intros Hgen. unfold generate in Hgen.
  apply outcome_bind_Ok in Hgen as ([[level matrix] mg2] & H & E).
  injection E as <-. simpl.
  apply generate_trace_Ok in H as (mg1 & _ & _ & Hcfg & _ & Hco).
  apply generate_coarsest_Ok in Hco as (s & ->).
  apply config_fields in Hcfg as (Ep & _). simpl in Ep.
  unfold share_lists. rewrite Ep.
  destruct (post_uses_pre p), (mid_case p); simpl;
    repeat split; intros; done.
Qed.

(** X4.  The checks of [generate] itself.  [generate] always terminates,
    and a failure that its own code raises is one of two: the error of the
    assertion that at least one level was generated, or the error of a
    bounds check, which carries the index and the size it was checked
    against, with the index not below that size; the size is that of the
    list of coarsening factories, of a smoother list or relaxation array
    that [handle_list] was called with, or of the list of coarsest
    solvers.  No [at] throws: each follows a bounds check on the same
    list.  The calls into the factories are taken to return, and the
    coarsening factories not to be null. *)
Theorem generate_failures p A scf rpi si one neg_one c e :
  generate (unbuilt p A scf rpi si one neg_one c) = Throw e →
  e = ValueMismatch ∨
  ∃ index bound,
    e = OutOfBoundsError index bound ∧ bound ≤ index ∧
    bound ∈ checked_sizes p.
Proof.
  unfold generate, generate_trace. intros H.
  apply outcome_bind_Throw in H as [H|(r & _ & H)]; [|discriminate].
  apply outcome_bind_Throw in H as [H|([[level matrix] mg1] & Hloop & H)].
  - pose proof H as H'. apply generate_loop_Throw in H' as [->|H']; [|by right].
    by apply generate_loop_fuel in H; [|simpl; lia].
  - apply outcome_bind_Throw in H as [H|([] & _ & H)].
    + left. unfold GKO_ASSERT_EQ in H. destruct (Bool.eqb _ _); congruence.
    + apply outcome_bind_Throw in H as [H|(mg2 & _ & H)]; [|discriminate].
      right. apply generate_coarsest_Throw in H.
      destruct (share_lists_config mg1) as [Hcfg _].
      apply config_fields in Hcfg as (Ep & _). rewrite Ep in H.
      apply generate_loop_inv in Hloop as (_ & Hcfg' & _);
        [|apply loop_inv_unbuilt].
      apply config_fields in Hcfg' as (Ep' & _). by rewrite Ep' in H.
Qed.

End HierarchyBounds.

(** ** The same on the example backend *)

Module HierarchyBoundsExamples.
Import Example.

(** X1, at a concrete input: halving from 8 rows with at most three
    levels. *)
Lemma generate_levels_within_bounds_witness :
  length (rstr_prlg_list_ halving_hierarchy) ≤ 3 ∧
  ∀ i rp, rstr_prlg_list_ halving_hierarchy !! i = Some rp →
    ∃ Ai fac,
      level_operator (8, 0) (rstr_prlg_list_ halving_hierarchy) i
        = Some Ai ∧
      1 < get_size0 Ai ∧
      [halve] !! always_first i Ai = Some fac ∧ rp = rp_generate fac Ai.
Proof.
  apply (generate_levels_within_bounds (plain halve 3 fp_zero) (8, 0) 3%Z
           always_first always_first 1%Z (-1)%Z multigrid_cycle.v
           halving_hierarchy).
  reflexivity.
Defined.

(** X2, at a concrete input: the three halving levels end at one row. *)
Lemma generate_stops_for_a_reason_witness :
  ∃ M : LinOp,
    level_operator (8, 0) (rstr_prlg_list_ halving_hierarchy) 3 = Some M ∧
    (3 = 3 ∨ get_size0 M ≤ 1 ∨
     ∃ fac, [halve] !! always_first 3 M = Some fac ∧
            get_size0 (get_coarse_operator (rp_generate fac M))
              = get_size0 M).
Proof.
  apply (generate_stops_for_a_reason (plain halve 3 fp_zero) (8, 0) 3%Z
           always_first always_first 1%Z (-1)%Z multigrid_cycle.v
           halving_hierarchy).
  reflexivity.
Defined.

(** X3, at a concrete input: two pre-smoothers, shared with the
    post-smoother lists. *)
Lemma generate_shares_lists_witness :
  post_smoother_list_ two_strategies_hierarchy = [Some (8, 8); Some (4, 8)] ∧
  post_smoother_list_ two_strategies_hierarchy
    = pre_smoother_list_ two_strategies_hierarchy ∧
  post_relaxation_list_ two_strategies_hierarchy
    = pre_relaxation_list_ two_strategies_hierarchy.
Proof.
  split; [reflexivity|].
  apply (generate_shares_lists two_strategies (8, 0) 3%Z always_second
           always_first 1%Z (-1)%Z multigrid_cycle.v
           two_strategies_hierarchy); reflexivity.
Defined.

(** X4, at a concrete input: a coarsest-solver selector that returns 7 for
    a list of two factories. *)
Lemma generate_failures_witness :
  OutOfBoundsError 7 2 = ValueMismatch ∨
  ∃ index bound,
    OutOfBoundsError 7 2 = OutOfBoundsError index bound ∧ bound ≤ index ∧
    bound ∈ checked_sizes (with_coarsest_solver [None; Some 5]).
Proof.
  apply (generate_failures (with_coarsest_solver [None; Some 5]) (8, 0)
           3%Z always_first always_seventh 1%Z (-1)%Z multigrid_cycle.v).
  reflexivity.
Defined.

End HierarchyBoundsExamples.

(** ** The vectors of the scratch state *)

Section AllocatedVectors.
Context `{B : Backend}.

Lemma allocate_lists cycle nr kb rps :
  ∀ i rows st l,
    lists (allocate cycle nr kb rps i rows st) l
    = lists st l ++ allocated cycle nr kb l rps i rows.
Proof.
  induction rps as [|rp rps IH]; intros i rows st l.
  { simpl. by rewrite app_nil_r. }
  cbn [allocate allocated]. rewrite IH, app_assoc. f_equal.
  destruct (is_kcycle cycle && (i mod kb =? 0)); destruct l; simpl;
    by rewrite ?app_nil_r.
Qed.

Lemma allocate_norm_lists cycle nr kb rps :
  ∀ i rows st l,
    norm_lists (allocate cycle nr kb rps i rows st) l
    = norm_lists st l ++ norm_allocated cycle nr kb rps i.
Proof.
  induction rps as [|rp rps IH]; intros i rows st l.
  { simpl. by rewrite app_nil_r. }
  cbn [allocate norm_allocated]. rewrite IH, app_assoc. f_equal.
  destruct (is_kcycle cycle && (i mod kb =? 0)); destruct l; simpl;
    by rewrite ?app_nil_r.
Qed.


Lemma level_operator_cons A rp rps j :
  level_operator A (rp :: rps) (S j)
  = level_operator (get_coarse_operator rp) rps j.
Proof. by destruct j. Qed.

(** The lists with one vector per level. *)
Lemma allocated_level cycle nr kb l :
  k_list l = false →
  ∀ rps i A j rp Aj,
    rps !! j = Some rp → level_operator A rps j = Some Aj →
    allocated cycle nr kb l rps i (get_size0 A) !! j
    = Some (level_vector nr l (get_size0 Aj)
              (get_size0 (get_coarse_operator rp))).
Proof.
  intros Hl. induction rps as [|rp0 rps IH]; intros i A j rp Aj Hrp HAj;
    [done|].
  cbn [allocated]. rewrite Hl. cbn [negb orb app].
  destruct j as [|j].
  - injection Hrp as ->. injection HAj as ->. done.
  - rewrite level_operator_cons in HAj. simpl in Hrp.
    by apply IH.
Qed.

Lemma length_allocated_level cycle nr kb l :
  k_list l = false →
  ∀ rps i rows, length (allocated cycle nr kb l rps i rows) = length rps.
Proof.
  intros Hl. induction rps as [|rp rps IH]; intros i rows; [done|].
  cbn [allocated]. rewrite Hl. simpl. by rewrite IH.
Qed.

(** Without a K-cycle the K-cycle lists stay empty. *)
Lemma allocated_not_kcycle cycle nr kb l :
  is_kcycle cycle = false → k_list l = true →
  ∀ rps i rows, allocated cycle nr kb l rps i rows = [].
Proof.
  intros Hc Hl. induction rps as [|rp rps IH]; intros i rows; [done|].
  cbn [allocated]. rewrite Hc, Hl. simpl. apply IH.
Qed.

Lemma norm_allocated_not_kcycle cycle nr kb :
  is_kcycle cycle = false →
  ∀ rps i, norm_allocated cycle nr kb rps i = [].
Proof.
  intros Hc. induction rps as [|rp rps IH]; intros i; [done|].
  cbn [norm_allocated]. rewrite Hc. simpl. apply IH.
Qed.

Lemma multiples_below_next kb i n :
  kb ≠ 0 → multiples_below kb i n →
  multiples_below kb (i + 1) (if i mod kb =? 0 then n + 1 else n).
Proof.
  intros Hkb [H1 H2]. unfold multiples_below.
  destruct (Nat.eqb_spec (i mod kb) 0) as [Hmod|Hmod].
  - apply Nat.Lcm0.mod_divide in Hmod as [q ->].
    assert (n = q) as -> by nia. nia.
  - assert (i ≠ n * kb); [|nia].
    intros ->. by rewrite Nat.Div0.mod_mul in Hmod.
Qed.

Lemma multiples_below_div kb i n :
  kb ≠ 0 → multiples_below kb i n → i mod kb = 0 → i / kb = n.
Proof.
  intros Hkb [H1 H2] Hmod.
  apply Nat.Lcm0.mod_divide in Hmod as [q ->].
  rewrite Nat.div_mul by done. nia.
Qed.

(** The K-cycle lists: the vector of level [i + j] sits at the index
    [(i + j) / kb]. *)
Lemma allocated_kcycle cycle nr kb l :
  is_kcycle cycle = true → kb ≠ 0 → k_list l = true →
  ∀ rps i rows n j rp,
    multiples_below kb i n →
    rps !! j = Some rp → (i + j) mod kb = 0 →
    n ≤ (i + j) / kb ∧
    allocated cycle nr kb l rps i rows !! ((i + j) / kb - n)
    = Some (level_vector nr l rows (get_size0 (get_coarse_operator rp))).
Proof.
  intros Hc Hkb Hl.
  assert (∀ rows rows' next, level_vector nr l rows next
                             = level_vector nr l rows' next) as Hrows.
  { intros. by destruct l. }
  induction rps as [|rp0 rps IH]; intros i rows n j rp Hn Hrp Hmod; [done|].
  cbn [allocated]. rewrite Hc, Hl. cbn [negb orb andb].
  pose proof (multiples_below_next kb i n Hkb Hn) as Hn'.
  destruct j as [|j].
  - injection Hrp as ->. rewrite Nat.add_0_r in *.
    rewrite (multiples_below_div kb i n) by done.
    apply Nat.eqb_eq in Hmod as ->. split; [done|].
    by rewrite Nat.sub_diag.
  - simpl in Hrp. replace (i + S j) with (i + 1 + j) in * by lia.
    destruct (IH (i + 1) (get_size0 (get_coarse_operator rp0)) _ j rp Hn'
                Hrp Hmod) as [Hle Hlk].
    rewrite (Hrows _ rows) in Hlk.
    destruct (i mod kb =? 0).
    + split; [lia|].
      replace ((i + 1 + j) / kb - n) with (S ((i + 1 + j) / kb - (n + 1)))
        by lia.
      done.
    + done.
Qed.

Lemma norm_allocated_kcycle cycle nr kb :
  is_kcycle cycle = true → kb ≠ 0 →
  ∀ rps i n j rp,
    multiples_below kb i n →
    rps !! j = Some rp → (i + j) mod kb = 0 →
    n ≤ (i + j) / kb ∧
    norm_allocated cycle nr kb rps i !! ((i + j) / kb - n)
    = Some (norm_vec_create 1 nr).
Proof.
  intros Hc Hkb.
  induction rps as [|rp0 rps IH]; intros i n j rp Hn Hrp Hmod; [done|].
  cbn [norm_allocated]. rewrite Hc. cbn [andb].
  pose proof (multiples_below_next kb i n Hkb Hn) as Hn'.
  destruct j as [|j].
  - injection Hrp as ->. rewrite Nat.add_0_r in *.
    rewrite (multiples_below_div kb i n) by done.
    apply Nat.eqb_eq in Hmod as ->. split; [done|].
    by rewrite Nat.sub_diag.
  - simpl in Hrp. replace (i + S j) with (i + 1 + j) in * by lia.
    destruct (IH (i + 1) _ j rp Hn' Hrp Hmod) as [Hle Hlk].
    destruct (i mod kb =? 0).
    + split; [lia|].
      replace ((i + 1 + j) / kb - n) with (S ((i + 1 + j) / kb - (n + 1)))
        by lia.
      done.
    + done.
Qed.

(** The number of vectors in a K-cycle list. *)
Lemma length_allocated_kcycle cycle nr kb l :
  is_kcycle cycle = true → kb ≠ 0 → k_list l = true →
  ∀ rps i rows n,
    multiples_below kb i n →
    multiples_below kb (i + length rps)
      (n + length (allocated cycle nr kb l rps i rows)).
Proof.
  intros Hc Hkb Hl.
  induction rps as [|rp rps IH]; intros i rows n Hn.
  { simpl. by rewrite !Nat.add_0_r. }
  cbn [allocated]. rewrite Hc, Hl. cbn [negb orb andb].
  pose proof (multiples_below_next kb i n Hkb Hn) as Hn'.
  specialize (IH (i + 1) (get_size0 (get_coarse_operator rp)) _ Hn').
  rewrite length_app. cbn [length].
  replace (i + S (length rps)) with (i + 1 + length rps) by lia.
  destruct (i mod kb =? 0); simpl in *.
  - by replace (n + S (length (allocated cycle nr kb l rps (i + 1)
                  (get_size0 (get_coarse_operator rp)))))
      with (n + 1 + length (allocated cycle nr kb l rps (i + 1)
                  (get_size0 (get_coarse_operator rp)))) by lia.
  - done.
Qed.

Lemma length_norm_allocated cycle nr kb l :
  k_list l = true →
  ∀ rps i rows,
    length (norm_allocated cycle nr kb rps i)
    = length (allocated cycle nr kb l rps i rows).
Proof.
  intros Hl. induction rps as [|rp rps IH]; intros i rows; [done|].
  cbn [allocated norm_allocated]. rewrite Hl. cbn [negb orb].
  rewrite !length_app, (IH _ (get_size0 (get_coarse_operator rp))).
  by destruct (_ && _).
Qed.


(** X5.  The constructor of [MultigridState] gives [r_list], [g_list] and
    [e_list] one vector per level: [r_list.at(i)] has the row count of
    the operator of level [i], [g_list.at(i)] and [e_list.at(i)] the row
    count of its coarse operator.  For a cycle that is not a K-cycle the
    K-cycle lists stay empty.  For a K-cycle every level [i] that is a
    multiple of [k_base] has its vectors at index [i / k_base]: scalars
    of one row in [alpha_list], [beta_list], [gamma_list], [rho_list],
    [zeta_list] and the two lists of norms, vectors with the row count of
    the coarse operator of level [i] in [v_list], [w_list] and [d_list];
    these lists hold one vector for each such level and no other. *)
Theorem MultigridState_new_vectors A mg nrhs_in one_in neg_one_in kb tol st :
  MultigridState_new A mg nrhs_in one_in neg_one_in kb tol = Ok st →
  let rps := rstr_prlg_list_ mg in
  let coarse_rows rp := get_size0 (get_coarse_operator rp) in
  (∀ l, k_list l = false → length (lists st l) = length rps) ∧
  (∀ i rp Ai, rps !! i = Some rp → level_operator A rps i = Some Ai →
     lists st r_list !! i = Some (vec_create (get_size0 Ai) nrhs_in) ∧
     lists st g_list !! i = Some (vec_create (coarse_rows rp) nrhs_in) ∧
     lists st e_list !! i = Some (vec_create (coarse_rows rp) nrhs_in)) ∧
  (is_kcycle (cycle_ mg) = false →
   (∀ l, k_list l = true → lists st l = []) ∧
   (∀ l, norm_lists st l = [])) ∧
  (is_kcycle (cycle_ mg) = true →
   kb ≠ 0 ∧
   (∀ l, k_list l = true →
      length rps ≤ length (lists st l) * kb ∧
      length (lists st l) * kb < length rps + kb) ∧
   (∀ l, length rps ≤ length (norm_lists st l) * kb ∧
         length (norm_lists st l) * kb < length rps + kb) ∧
   (∀ i rp, rps !! i = Some rp → i mod kb = 0 →
      (∀ l, l ∈ [alpha_list; beta_list; gamma_list; rho_list; zeta_list] →
         lists st l !! (i / kb) = Some (vec_create 1 nrhs_in)) ∧
      (∀ l, l ∈ [v_list; w_list; d_list] →
         lists st l !! (i / kb)
         = Some (vec_create (coarse_rows rp) nrhs_in)) ∧
      (∀ l, norm_lists st l !! (i / kb)
            = Some (norm_vec_create 1 nrhs_in)))).
Proof.
  intros Hnew rps coarse_rows. subst rps coarse_rows.
  unfold MultigridState_new in Hnew.
  apply outcome_bind_Ok in Hnew as ([] & Hdiv & Hnew).
  injection Hnew as <-.
  set (rps := rstr_prlg_list_ mg) in *.
  set (c := cycle_ mg) in *.
  assert (∀ l, lists (allocate c nrhs_in kb rps 0 (get_size0 A)
      {| lists := λ _, []; norm_lists := λ _, []; system_matrix := A;
         multigrid := mg; nrhs := nrhs_in; one := one_in;
         neg_one := neg_one_in; k_base := kb; rel_tol := tol |}) l
    = allocated c nrhs_in kb l rps 0 (get_size0 A)) as Hl.
  { intros l. by rewrite allocate_lists. }
  assert (∀ l, norm_lists (allocate c nrhs_in kb rps 0 (get_size0 A)
      {| lists := λ _, []; norm_lists := λ _, []; system_matrix := A;
         multigrid := mg; nrhs := nrhs_in; one := one_in;
         neg_one := neg_one_in; k_base := kb; rel_tol := tol |}) l
    = norm_allocated c nrhs_in kb rps 0) as Hn.
  { intros l. by rewrite allocate_norm_lists. }
  split; [|split; [|split]].
  - intros l Hk. rewrite Hl. by apply length_allocated_level.
  - intros i rp Ai Hrp HAi. rewrite !Hl.
    rewrite (allocated_level c nrhs_in kb r_list eq_refl rps 0 A i rp Ai),
      (allocated_level c nrhs_in kb g_list eq_refl rps 0 A i rp Ai),
      (allocated_level c nrhs_in kb e_list eq_refl rps 0 A i rp Ai)
      by done.
    done.
  - intros Hc. split.
    + intros l Hk. rewrite Hl. by apply allocated_not_kcycle.
    + intros l. rewrite Hn. by apply norm_allocated_not_kcycle.
  - intros Hc. rewrite Hc in Hdiv. cbn [andb] in Hdiv.
    destruct (Nat.eqb_spec kb 0) as [|Hkb]; [discriminate|].
    assert (multiples_below kb 0 0) as H0 by (unfold multiples_below; lia).
    split; [done|]. split; [|split].
    + intros l Hk. rewrite Hl.
      apply (length_allocated_kcycle c nrhs_in kb l Hc Hkb Hk rps 0
               (get_size0 A) 0 H0).
    + intros l. rewrite Hn.
      rewrite (length_norm_allocated c nrhs_in kb alpha_list eq_refl rps 0
                 (get_size0 A)).
      apply (length_allocated_kcycle c nrhs_in kb alpha_list Hc Hkb eq_refl
               rps 0 (get_size0 A) 0 H0).
    + intros i rp Hrp Hmod.
      assert (∀ l, k_list l = true →
        lists (allocate c nrhs_in kb rps 0 (get_size0 A)
          {| lists := λ _, []; norm_lists := λ _, []; system_matrix := A;
             multigrid := mg; nrhs := nrhs_in; one := one_in;
             neg_one := neg_one_in; k_base := kb; rel_tol := tol |}) l
          !! (i / kb)
        = Some (level_vector nrhs_in l (get_size0 A)
                  (get_size0 (get_coarse_operator rp)))) as Hk.
      { intros l Hk. rewrite Hl.
        destruct (allocated_kcycle c nrhs_in kb l Hc Hkb Hk rps 0
                    (get_size0 A) 0 i rp H0 Hrp Hmod) as [_ H].
        simpl in H. by rewrite Nat.sub_0_r in H. }
      split; [|split].
      * intros l Hin. rewrite Hk.
        -- by repeat (apply elem_of_cons in Hin as [->|Hin]; [done|]);
             apply elem_of_nil in Hin.
        -- by repeat (apply elem_of_cons in Hin as [->|Hin]; [done|]);
             apply elem_of_nil in Hin.
      * intros l Hin. rewrite Hk.
        -- by repeat (apply elem_of_cons in Hin as [->|Hin]; [done|]);
             apply elem_of_nil in Hin.
        -- by repeat (apply elem_of_cons in Hin as [->|Hin]; [done|]);
             apply elem_of_nil in Hin.
      * intros l. rewrite Hn.
        destruct (norm_allocated_kcycle c nrhs_in kb Hc Hkb rps 0 0 i rp
                    H0 Hrp Hmod) as [_ H].
        simpl in H. by rewrite Nat.sub_0_r in H.
Qed.

End AllocatedVectors.

Module AllocationExamples.
Import Example.

(** X5, at a concrete input: the state built for the FCG K-cycle on three
    halving levels, one right-hand side, [k_base] 1. *)
Lemma MultigridState_new_vectors_witness :
  (∀ l, k_list l = false →
     length (lists (state (memory_of kfcg_hierarchy 5 0)) l) = 3) ∧
  lists (state (memory_of kfcg_hierarchy 5 0)) r_list !! 2
    = Some (vec_create 2 1) ∧
  lists (state (memory_of kfcg_hierarchy 5 0)) v_list !! 2
    = Some (vec_create 1 1).
Proof.
  destruct (MultigridState_new_vectors (B := backend) (8, 0) kfcg_hierarchy 1 1%Z (-1)%Z 1
    minus_one (state (memory_of kfcg_hierarchy 5 0)) eq_refl)
    as (Hlen & Hlev & _ & Hk).
  split; [exact Hlen|]. split.
  - exact (proj1 (Hlev 2 1 (2, 0) eq_refl eq_refl)).
  - destruct (Hk eq_refl) as (_ & _ & _ & Hv).
    apply (proj1 (proj2 (Hv 2 1 eq_refl eq_refl)) v_list).
    apply list_elem_of_here.
Defined.

End AllocationExamples.

(** ** Further properties of the cycle engine *)

Section CycleFacts.
Context `{B : Backend}.

Lemma ready_for_cycle cycle cycle' mem :
  (is_kcycle cycle' = true → is_kcycle cycle = true) →
  ready cycle mem → ready cycle' mem.
Proof.
  intros Hc [R1 R2 R3 R4 R5 R6 R7 R8 R9]. constructor; try done.
  intros Hc'. by apply R9, Hc.
Qed.

(** One activation, taken apart. *)
Lemma run_cycle_Ok fuel cycle level matrix b x mem mem' tr :
  ready cycle mem → level < total_level mem →
  total_level mem - level ≤ S fuel →
  ptr_valid mem b → ptr_valid mem x →
  run_cycle (S fuel) cycle level matrix b x mem = Ok ((), mem', tr) →
  let mg := multigrid (state mem) in
  let r := elem r_list level in
  let g := elem g_list level in
  let e := elem e_list level in
  ∃ rp pre_s pre_r mid_s mid_r post_s post_r mem1 mem2 mem3 tr1 tr2,
    rstr_prlg_list_ mg !! level = Some rp ∧
    pre_smoother_list_ mg !! level = Some pre_s ∧
    pre_relaxation_list_ mg !! level = Some pre_r ∧
    mid_smoother_list_ mg !! level = Some mid_s ∧
    mid_relaxation_list_ mg !! level = Some mid_r ∧
    post_smoother_list_ mg !! level = Some post_s ∧
    post_relaxation_list_ mg !! level = Some post_r ∧
    frame mem mem1 ∧ frame mem mem2 ∧ frame mem mem3 ∧
    next_level_or_solve (run_cycle fuel) cycle level (total_level mem) rp
      g e mem1 = Ok ((), mem2, tr1) ∧
    additional_work (run_cycle fuel) cycle level (total_level mem) matrix rp
      mid_s mid_r b x r g e mem2 = Ok ((), mem3, tr2) ∧
    tr = pre_events level matrix (neg_one (state mem)) (one (state mem))
           pre_s pre_r b x r ++
         [ev_restrict_apply rp r g] ++ tr1 ++ tr2 ++
         [ev_prolong_applyadd rp e x] ++
         post_events matrix (neg_one (state mem)) (one (state mem))
           post_s post_r b x r.
Proof.
  intros Hrd Hlev Hn Hb Hx Hrun. simpl in Hrun.
  apply (run_cycle_body_Ok _ fuel) in Hrun; try done.
  apply run_cycle_total.
Qed.

(** The descent, as one event. *)
Lemma next_level_or_solve_descends rec cycle level rp b x mem mem' tr :
  next_level_or_solve rec cycle level (total_level mem) rp b x mem
    = Ok ((), mem', tr) →
  ∃ ev, tr = [ev] ∧
        descends cycle level (total_level mem) (multigrid (state mem)) rp
          b x ev.
Proof.
  intros H. unfold descends.
  apply next_level_or_solve_Ok in H
    as [(Heq & solver & Hs & ->)|(Hne & inner & _ & ->)].
  - apply Nat.eqb_eq in Heq. rewrite Heq. eexists. split; [done|].
    by exists solver.
  - apply Nat.eqb_neq in Hne. rewrite Hne. eexists. split; [done|].
    by exists inner.
Qed.

(** No additional work in a V-cycle, nor in a K-cycle at a level that is
    not a multiple of [k_base]. *)
Lemma additional_work_none rec cycle level total matrix rp mid_s mid_r
    b x r g e mem mem' tr :
  cycle = multigrid_cycle.v ∨
  (is_kcycle cycle = true ∧ level mod k_base (state mem) ≠ 0) →
  additional_work rec cycle level total matrix rp mid_s mid_r b x r g e mem
    = Ok ((), mem', tr) →
  mem' = mem ∧ tr = [].
Proof.
  intros Hc H. unfold additional_work in H.
  bind_inv_as H st m0 t0 t0' H0 E0.
  apply get_state_Ok in H0 as (-> & -> & ->).
  destruct Hc as [->|[Hk Hmod]].
  - simpl in H. apply M_ret_Ok in H as (_ & -> & ->). by subst.
  - assert (multigrid_cycle.eqb cycle multigrid_cycle.f
            || multigrid_cycle.eqb cycle multigrid_cycle.w = false) as Hfw
      by (by destruct cycle).
    rewrite Hfw, Hk in H.
    destruct (k_base (state mem) =? 0); [discriminate|].
    apply Nat.eqb_neq in Hmod. rewrite Hmod in H.
    apply M_ret_Ok in H as (_ & -> & ->). by subst.
Qed.

(** The second pass of the F- and W-cycle. *)
Lemma additional_work_second_cycle rec cycle level total matrix rp mid_s
    mid_r b x r g e mem :
  cycle = multigrid_cycle.f ∨ cycle = multigrid_cycle.w →
  additional_work rec cycle level total matrix rp mid_s mid_r b x r g e mem
  = second_cycle rec cycle level total matrix rp mid_s mid_r b x r g e mem.
Proof.
  intros Hc. unfold additional_work, mbind, M_bind, get_state.
  assert (multigrid_cycle.eqb cycle multigrid_cycle.f
          || multigrid_cycle.eqb cycle multigrid_cycle.w = true) as ->
    by (by destruct Hc as [-> | ->]).
  by destruct (second_cycle _ _ _ _ _ _ _ _ _ _ _ _ _ _)
    as [[[u m] t]|err].
Qed.


(** X6.  For a hierarchy that [generate] returned, the constructor of
    [MultigridState] succeeds unless the cycle is a K-cycle with
    [kcycle_base] zero, and on the state it builds every activation of
    [run_cycle] at a level of the hierarchy runs to completion: no [at]
    is out of range and the coarsest solver is not null.  The cycle may
    be any cycle when the hierarchy was configured with a K-cycle, and a
    V-, F- or W-cycle otherwise. *)
Theorem run_cycle_never_fails p A scf rpi si one_in neg_one_in c mg nrhs_in :
  generate (unbuilt p A scf rpi si one_in neg_one_in c) = Ok mg →
  (is_kcycle c = true → kcycle_base p ≠ 0) →
  ∃ st,
    MultigridState_new (system_matrix_ mg) mg nrhs_in (one_op_ mg)
      (neg_one_op_ mg) (kcycle_base (parameters_ mg))
      (kcycle_rel_tol (parameters_ mg)) = Ok st ∧
    ∀ b x cycle level matrix bp xp fuel,
      let mem := {| caller_b := b; caller_x := x; state := st |} in
      (is_kcycle cycle = true → is_kcycle c = true) →
      level < length (rstr_prlg_list_ mg) →
      length (rstr_prlg_list_ mg) - level ≤ fuel →
      ptr_valid mem bp → ptr_valid mem xp →
      ∃ mem' tr,
        run_cycle fuel cycle level matrix bp xp mem = Ok ((), mem', tr).
Proof.
  intros Hgen Hkb. apply generate_ok in Hgen as [Hok Hcfg].
  apply config_fields in Hcfg as (Ep & _ & _ & _ & _ & _ & Ec & _).
  simpl in Ep, Ec.
  assert (is_kcycle (cycle_ mg)
          && (kcycle_base (parameters_ mg) =? 0) = false) as Hdiv.
  { rewrite Ep, Ec. destruct (is_kcycle c); [|done].
    by apply Nat.eqb_neq, Hkb. }
  eexists. split.
  { unfold MultigridState_new. rewrite Hdiv. reflexivity. }
  intros b x cycle level matrix bp xp fuel mem Hc Hlev Hfuel Hbp Hxp.
  destruct (MultigridState_new_ready mg nrhs_in (state mem) b x Hok)
    as (Hrd & Hmg & _).
  { unfold MultigridState_new. rewrite Hdiv. reflexivity. }
  assert (total_level mem = length (rstr_prlg_list_ mg)) as Htot
    by (unfold total_level; by rewrite Hmg).
  destruct (run_cycle_total fuel cycle level matrix bp xp mem)
    as ([] & mem' & tr & Hrun & _ & _); try done; try lia.
  - eapply ready_for_cycle; [|exact Hrd]. by rewrite Ec.
  - by exists mem', tr.
Qed.

(** X7.  A V-cycle, and a K-cycle at a level that is not a multiple of
    [k_base], do nothing between the descent and the prolongation: the
    activation is the pre-smoothing events, the restriction, one descent
    (the coarsest solver on the last level, one nested activation of the
    same cycle on the coarse operator with [g] and [e] otherwise), the
    prolongation and the post-smoothing events. *)
Theorem v_cycle_activation fuel cycle level matrix b x mem :
  cycle = multigrid_cycle.v ∨
  (is_kcycle cycle = true ∧ level mod k_base (state mem) ≠ 0) →
  ready cycle mem → level < total_level mem →
  total_level mem - level ≤ fuel →
  ptr_valid mem b → ptr_valid mem x →
  let mg := multigrid (state mem) in
  let neg_one := neg_one (state mem) in
  let one := one (state mem) in
  let r := elem r_list level in
  let g := elem g_list level in
  let e := elem e_list level in
  ∃ mem' tr rp pre_s pre_r post_s post_r descent,
    run_cycle fuel cycle level matrix b x mem = Ok ((), mem', tr) ∧
    rstr_prlg_list_ mg !! level = Some rp ∧
    pre_smoother_list_ mg !! level = Some pre_s ∧
    pre_relaxation_list_ mg !! level = Some pre_r ∧
    post_smoother_list_ mg !! level = Some post_s ∧
    post_relaxation_list_ mg !! level = Some post_r ∧
    descends cycle level (total_level mem) mg rp g e descent ∧
    tr = pre_events level matrix neg_one one pre_s pre_r b x r ++
         [ev_restrict_apply rp r g; descent; ev_prolong_applyadd rp e x] ++
         post_events matrix neg_one one post_s post_r b x r.
Proof.
  intros Hc Hrd Hlev Hn Hb Hx mg neg_one one r g e.
  subst mg neg_one one r g e.
  destruct fuel as [|fuel]; [lia|].
  destruct (run_cycle_total (S fuel) cycle level matrix b x mem)
    as ([] & mem' & tr & Hrun & _ & _); try done.
  pose proof Hrun as Hbody.
  apply run_cycle_Ok in Hbody; try done.
  destruct Hbody as (rp & pre_s & pre_r & mid_s & mid_r & post_s & post_r &
    mem1 & mem2 & mem3 & tr1 & tr2 & Hrp & Hps & Hpr & Hms & Hmr & Hqs &
    Hqr & Hf1 & Hf2 & Hf3 & Hfirst & Hadd & ->).
  rewrite <- (total_level_frame _ _ Hf1) in Hfirst.
  apply next_level_or_solve_descends in Hfirst as (ev & -> & Hev).
  rewrite (total_level_frame _ _ Hf1), (fr_multigrid _ _ Hf1) in Hev.
  apply additional_work_none in Hadd as [_ ->].
  2:{ destruct Hc as [->|[Hk Hmod]]; [by left|right].
      by rewrite (fr_k_base _ _ Hf2). }
  exists mem'. eexists. exists rp, pre_s, pre_r, post_s, post_r, ev.
  split; [exact Hrun|]. do 6 (split; [done|]). done.
Qed.

(** X8.  On the last level an F-cycle and a W-cycle make their second pass
    as on every other level, and both passes end in the coarsest solver:
    it is applied twice to [g] and [e], with the prolongation, the
    residual, the mid-smoothing events and the second restriction in
    between. *)
Theorem second_cycle_on_last_level fuel cycle level matrix b x mem :
  cycle = multigrid_cycle.f ∨ cycle = multigrid_cycle.w →
  ready cycle mem → level + 1 = total_level mem → 1 ≤ fuel →
  ptr_valid mem b → ptr_valid mem x →
  let mg := multigrid (state mem) in
  let neg_one := neg_one (state mem) in
  let one := one (state mem) in
  let r := elem r_list level in
  let g := elem g_list level in
  let e := elem e_list level in
  ∃ mem' tr rp pre_s pre_r mid_s mid_r post_s post_r solver,
    run_cycle fuel cycle level matrix b x mem = Ok ((), mem', tr) ∧
    rstr_prlg_list_ mg !! level = Some rp ∧
    pre_smoother_list_ mg !! level = Some pre_s ∧
    pre_relaxation_list_ mg !! level = Some pre_r ∧
    mid_smoother_list_ mg !! level = Some mid_s ∧
    mid_relaxation_list_ mg !! level = Some mid_r ∧
    post_smoother_list_ mg !! level = Some post_s ∧
    post_relaxation_list_ mg !! level = Some post_r ∧
    coarsest_solver_ mg = Some solver ∧
    tr = pre_events level matrix neg_one one pre_s pre_r b x r ++
         [ev_restrict_apply rp r g; ev_apply solver g e;
          ev_prolong_applyadd rp e x] ++
         residual_events matrix neg_one one b x r ++
         mid_events matrix neg_one one mid_s mid_r b x r ++
         [ev_restrict_apply rp r g; ev_apply solver g e;
          ev_prolong_applyadd rp e x] ++
         post_events matrix neg_one one post_s post_r b x r.
Proof.
  intros Hc Hrd Hlev Hn Hb Hx mg neg_one one r g e.
  subst mg neg_one one r g e.
  destruct fuel as [|fuel]; [lia|].
  destruct (run_cycle_total (S fuel) cycle level matrix b x mem)
    as ([] & mem' & tr & Hrun & _ & _); try done; try lia.
  pose proof Hrun as Hbody.
  apply run_cycle_Ok in Hbody; try done; try lia.
  destruct Hbody as (rp & pre_s & pre_r & mid_s & mid_r & post_s & post_r &
    mem1 & mem2 & mem3 & tr1 & tr2 & Hrp & Hps & Hpr & Hms & Hmr & Hqs &
    Hqr & Hf1 & Hf2 & Hf3 & Hfirst & Hadd & ->).
  apply next_level_or_solve_Ok in Hfirst
    as [(_ & solver & Hs & ->)|(Hne & _)]; [|lia].
  rewrite (fr_multigrid _ _ Hf1) in Hs.
  rewrite additional_work_second_cycle in Hadd by done.
  apply second_cycle_Ok in Hadd as (mem4 & tr4 & Hf4 & Hsecond & ->).
  apply next_level_or_solve_Ok in Hsecond
    as [(_ & solver' & Hs' & ->)|(Hne & _)]; [|lia].
  rewrite (fr_multigrid _ _ Hf4), (fr_multigrid _ _ Hf2), Hs in Hs'.
  injection Hs' as <-.
  exists mem'. eexists.
  exists rp, pre_s, pre_r, mid_s, mid_r, post_s, post_r, solver.
  split; [exact Hrun|]. do 8 (split; [done|]).
  rewrite (fr_neg_one _ _ Hf2), (fr_one _ _ Hf2).
  by rewrite <- !app_assoc.
Qed.

End CycleFacts.
(** ** The work of a cycle *)

Section CycleWork.
Context `{B : Backend}.

Lemma deep_count_events_app p tr1 tr2 :
  deep_count_events p (tr1 ++ tr2)
  = deep_count_events p tr1 + deep_count_events p tr2.
Proof.
  unfold deep_count_events. by rewrite map_app, list_sum_app.
Qed.

Lemma deep_count_events_cons p ev tr :
  deep_count_events p (ev :: tr) = deep_count p ev + deep_count_events p tr.
Proof. reflexivity. Qed.

Lemma deep_count_run_cycle p cycle level matrix b x inner :
  p (ev_run_cycle cycle level matrix b x inner) = false →
  deep_count p (ev_run_cycle cycle level matrix b x inner)
  = deep_count_events p inner.
Proof. intros Hp. simpl. by rewrite Hp. Qed.

Lemma solves_pre_events level matrix neg_one one pre_s pre_r b x r :
  deep_count_events is_apply
    (pre_events level matrix neg_one one pre_s pre_r b x r) = 0.
Proof. unfold pre_events. by destruct (negb _), pre_s. Qed.

Lemma solves_mid_events matrix neg_one one mid_s mid_r b x r :
  deep_count_events is_apply
    (mid_events matrix neg_one one mid_s mid_r b x r) = 0.
Proof. unfold mid_events. by destruct mid_s. Qed.

Lemma solves_post_events matrix neg_one one post_s post_r b x r :
  deep_count_events is_apply
    (post_events matrix neg_one one post_s post_r b x r) = 0.
Proof. unfold post_events. by destruct post_s. Qed.

(** The scratch vectors of a level exist on a ready memory. *)
Lemma ready_level_ptr cycle mem l level :
  ready cycle mem → k_list l = false → level < total_level mem →
  ptr_valid mem (elem l level).
Proof. intros Hrd Hl Hlev. simpl. by rewrite (rd_levels _ _ Hrd). Qed.

(** The coarsest-solver applications of one descent. *)
Lemma solves_descent fuel cycle level rp mem mem' tr :
  (∀ matrix b x mem0 mem0' tr0,
     ready cycle mem0 → level + 1 < total_level mem0 →
     total_level mem0 - (level + 1) ≤ fuel →
     ptr_valid mem0 b → ptr_valid mem0 x →
     run_cycle fuel cycle (level + 1) matrix b x mem0
       = Ok ((), mem0', tr0) →
     deep_count_events is_apply tr0
     = coarsest_solves cycle (total_level mem0 - (level + 1))) →
  ready cycle mem → level < total_level mem →
  total_level mem - level ≤ S fuel →
  next_level_or_solve (run_cycle fuel) cycle level (total_level mem) rp
    (elem g_list level) (elem e_list level) mem = Ok ((), mem', tr) →
  deep_count_events is_apply tr
  = if level + 1 =? total_level mem then 1
    else coarsest_solves cycle (total_level mem - (level + 1)).
Proof.
  intros IH Hrd Hlev Hn H.
  apply next_level_or_solve_Ok in H
    as [(Heq & solver & _ & ->)|(Hne & inner & Hrun & ->)].
  - apply Nat.eqb_eq in Heq. by rewrite Heq.
  - pose proof Hne as Hne'. apply Nat.eqb_neq in Hne'. rewrite Hne'.
    rewrite deep_count_events_cons, deep_count_run_cycle by done.
    unfold deep_count_events at 2. simpl. rewrite Nat.add_0_r.
    apply IH in Hrun; try done; try lia.
    + by eapply ready_level_ptr.
    + by eapply ready_level_ptr.
Qed.

Lemma coarsest_solves_in_cycle fuel :
  ∀ cycle level matrix b x mem mem' tr,
    is_kcycle cycle = false →
    ready cycle mem → level < total_level mem →
    total_level mem - level ≤ fuel →
    ptr_valid mem b → ptr_valid mem x →
    run_cycle fuel cycle level matrix b x mem = Ok ((), mem', tr) →
    deep_count_events is_apply tr
    = coarsest_solves cycle (total_level mem - level).
Proof.
  induction fuel as [|fuel IH];
    intros cycle level matrix b x mem mem' tr Hc Hrd Hlev Hn Hb Hx Hrun;
    [lia|].
  apply run_cycle_Ok in Hrun; try done.
  destruct Hrun as (rp & pre_s & pre_r & mid_s & mid_r & post_s & post_r &
    mem1 & mem2 & mem3 & tr1 & tr2 & Hrp & Hps & Hpr & Hms & Hmr & Hqs &
    Hqr & Hf1 & Hf2 & Hf3 & Hfirst & Hadd & ->).
  pose proof (total_level_frame _ _ Hf1) as Ht1.
  pose proof (total_level_frame _ _ Hf2) as Ht2.
  rewrite <- Ht1 in Hfirst.
  apply solves_descent in Hfirst;
    [|intros; by apply (IH cycle (level + 1) matrix0 b0 x0 mem0 mem0' tr0)
     |by eapply ready_frame|lia|lia].
  rewrite Ht1 in Hfirst.
  rewrite !deep_count_events_app, solves_pre_events, solves_post_events,
    Hfirst.
  change (deep_count_events is_apply [ev_restrict_apply rp
            (elem r_list level) (elem g_list level)]) with 0.
  change (deep_count_events is_apply [ev_prolong_applyadd rp
            (elem e_list level) x]) with 0.
  destruct cycle; try discriminate.
  - (* V *)
    apply additional_work_none in Hadd as [_ ->]; [|by left].
    by destruct (_ =? _).
  - (* F *)
    rewrite additional_work_second_cycle in Hadd by (by left).
    apply second_cycle_Ok in Hadd as (mem4 & tr4 & Hf4 & Hsecond & ->).
    pose proof (total_level_frame _ _ Hf4) as Ht4.
    rewrite <- Ht2, <- Ht4 in Hsecond. cbn [multigrid_cycle.eqb] in Hsecond.
    apply solves_descent in Hsecond;
      [|intros; by apply (IH multigrid_cycle.v (level + 1) matrix0 b0 x0
                            mem0 mem0' tr0)
       |eapply ready_not_kcycle; [done|];
        eapply ready_frame; [exact Hf4|]; by eapply ready_frame
       |lia|lia].
    rewrite Ht4, Ht2 in Hsecond.
    rewrite !deep_count_events_app, solves_mid_events, Hsecond.
    change (deep_count_events is_apply [ev_prolong_applyadd rp
              (elem e_list level) x]) with 0.
    change (deep_count_events is_apply (residual_events matrix
              (neg_one (state mem2)) (one (state mem2)) b x
              (elem r_list level))) with 0.
    change (deep_count_events is_apply [ev_restrict_apply rp
              (elem r_list level) (elem g_list level)]) with 0.
    destruct (Nat.eqb_spec (level + 1) (total_level mem)) as [Heq|Hne];
      simpl; lia.
  - (* W *)
    rewrite additional_work_second_cycle in Hadd by (by right).
    apply second_cycle_Ok in Hadd as (mem4 & tr4 & Hf4 & Hsecond & ->).
    pose proof (total_level_frame _ _ Hf4) as Ht4.
    rewrite <- Ht2, <- Ht4 in Hsecond. cbn [multigrid_cycle.eqb] in Hsecond.
    apply solves_descent in Hsecond;
      [|intros; by apply (IH multigrid_cycle.w (level + 1) matrix0 b0 x0
                            mem0 mem0' tr0)
       |eapply ready_frame; [exact Hf4|]; by eapply ready_frame
       |lia|lia].
    rewrite Ht4, Ht2 in Hsecond.
    rewrite !deep_count_events_app, solves_mid_events, Hsecond.
    change (deep_count_events is_apply [ev_prolong_applyadd rp
              (elem e_list level) x]) with 0.
    change (deep_count_events is_apply (residual_events matrix
              (neg_one (state mem2)) (one (state mem2)) b x
              (elem r_list level))) with 0.
    change (deep_count_events is_apply [ev_restrict_apply rp
              (elem r_list level) (elem g_list level)]) with 0.
    destruct (Nat.eqb_spec (level + 1) (total_level mem)) as [Heq|Hne].
    + replace (total_level mem - level) with 1 by lia. simpl. lia.
    + replace (total_level mem - level)
        with (S (total_level mem - (level + 1))) by lia.
      cbn [coarsest_solves]. rewrite Nat.pow_succ_r'. lia.
Qed.

(** X9.  The coarsest solver is applied once in a V-cycle, once more than
    there are levels from the activation's level down in an F-cycle, and
    two to the power of that number of levels in a W-cycle, counting
    through all nested activations. *)
Theorem coarsest_solves_per_cycle fuel cycle level matrix b x mem :
  is_kcycle cycle = false →
  ready cycle mem → level < total_level mem →
  total_level mem - level ≤ fuel →
  ptr_valid mem b → ptr_valid mem x →
  ∃ mem' tr,
    run_cycle fuel cycle level matrix b x mem = Ok ((), mem', tr) ∧
    deep_count_events is_apply tr
    = match cycle with
      | multigrid_cycle.v => 1
      | multigrid_cycle.f => total_level mem - level + 1
      | _ => 2 ^ (total_level mem - level)
      end.
Proof.
  intros Hc Hrd Hlev Hn Hb Hx.
  destruct (run_cycle_total fuel cycle level matrix b x mem)
    as ([] & mem' & tr & Hrun & _ & _); try done.
  exists mem', tr. split; [done|].
  rewrite (coarsest_solves_in_cycle fuel cycle level matrix b x mem mem' tr)
    by done.
  by destruct cycle.
Qed.

End CycleWork.
(** ** The second step of the K-cycle *)

Section KCycleSecondStep.
Context `{B : Backend}.

(** X10.  In a K-cycle at a level that is a multiple of [k_base], whatever
    follows the stop check is either nothing or the second step: one more
    descent from [g], now into [d] instead of [e] (the coarsest solver on
    the last level, a nested activation of the same K-cycle otherwise),
    then [w = A_coarse * d], the dot products [gamma = dot(t, v)],
    [beta = dot(t, w)] and [zeta = dot(t, g)] with [t = d] in the FCG
    variant and [t = w] in the GCR variant, and the update kernel of
    step 2.  The prolongation of [e] into [x] and the post-smoothing
    events follow immediately. *)
Theorem kcycle_second_step fuel cycle level matrix b x mem :
  is_kcycle cycle = true → ready cycle mem → level < total_level mem →
  level mod k_base (state mem) = 0 → total_level mem - level ≤ fuel →
  ptr_valid mem b → ptr_valid mem x →
  let mg := multigrid (state mem) in
  let k := level / k_base (state mem) in
  let is_fcg := multigrid_cycle.eqb cycle multigrid_cycle.kfcg in
  let r := elem r_list level in
  let g := elem g_list level in
  let e := elem e_list level in
  let v := elem v_list k in
  let w := elem w_list k in
  let d := elem d_list k in
  ∃ mem' tr rp post_s post_r head second,
    run_cycle fuel cycle level matrix b x mem = Ok ((), mem', tr) ∧
    rstr_prlg_list_ mg !! level = Some rp ∧
    post_smoother_list_ mg !! level = Some post_s ∧
    post_relaxation_list_ mg !! level = Some post_r ∧
    tr = head ++ second ++
         [ev_prolong_applyadd rp e x] ++
         post_events matrix (neg_one (state mem)) (one (state mem))
           post_s post_r b x r ∧
    count_events is_step_2 head = 0 ∧
    (second = [] ∨
     ∃ descent,
       descends cycle level (total_level mem) mg rp g d descent ∧
       let t := if is_fcg then d else w in
       second = [descent;
                 ev_apply (get_coarse_operator rp) d w;
                 ev_compute_dot t v (elem gamma_list k);
                 ev_compute_dot t w (elem beta_list k);
                 ev_compute_dot t g (elem zeta_list k);
                 ev_kcycle_step_2 (elem alpha_list k) (elem rho_list k)
                   (elem gamma_list k) (elem beta_list k)
                   (elem zeta_list k) d e]).
Proof.
  intros Hk Hrd Hlev Hmod Hn Hb Hx mg k is_fcg r g e v w d.
  subst mg k is_fcg r g e v w d.
  destruct fuel as [|fuel]; [lia|].
  destruct (run_cycle_total (S fuel) cycle level matrix b x mem)
    as ([] & mem' & tr & Hrun & _ & _); try done.
  pose proof Hrun as Hbody.
  apply run_cycle_Ok in Hbody; try done.
  destruct Hbody as (rp & pre_s & pre_r & mid_s & mid_r & post_s & post_r &
    mem1 & mem2 & mem3 & tr1 & tr2 & Hrp & Hps & Hpr & Hms & Hmr & Hqs &
    Hqr & Hf1 & Hf2 & Hf3 & Hfirst & Hadd & ->).
  destruct (rd_kcycle _ _ Hrd Hk) as [Hk0 _].
  rewrite additional_work_kcycle in Hadd;
    [|done|by rewrite (fr_k_base _ _ Hf2)|by rewrite (fr_k_base _ _ Hf2)].
  apply kcycle_Ok in Hadd
    as (m1 & m2 & t1 & t2 & t3 & is_stop & H1 & H2 & H3 & -> &
        Ha & Hr & Hv & Ho & Hnn).
  pose proof H1 as H1'.
  apply kcycle_first_iteration_Ok in H1'; try done.
  destruct H1' as (e1 & v1 & g1 & _ & _ & _ & Et1 & _ & _ & _ & _ & Hfm1).
  apply kcycle_stop_check_Ok in H2 as [Hfm2 H2];
    [|by rewrite (fr_norms _ _ Hfm1)].
  assert (count_events is_step_2 t1 = 0) as Hc1.
  { rewrite Et1. unfold first_iteration_events.
    rewrite !count_events_app.
    by destruct (multigrid_cycle.eqb cycle multigrid_cycle.kfcg),
      (checks_norms (rel_tol (state mem2))). }
  assert (count_events is_step_2 t2 = 0) as Hc2.
  { revert H2. destruct (checks_norms (rel_tol (state m1))); intros H2.
    - destruct H2 as (gv & ov & _ & _ & _ & ->). done.
    - by destruct H2 as [_ ->]. }
  rewrite (fr_k_base _ _ Hf2) in *.
  exists mem'. eexists.
  exists rp, post_s, post_r,
    (pre_events level matrix (neg_one (state mem)) (one (state mem))
       pre_s pre_r b x (elem r_list level) ++
     [ev_restrict_apply rp (elem r_list level) (elem g_list level)] ++
     tr1 ++ t1 ++ t2), t3.
  split; [exact Hrun|]. do 3 (split; [done|]).
  split; [by rewrite <- !app_assoc|].
  split.
  { rewrite !count_events_app, Hc1, Hc2.
    rewrite (count_pre_events is_step_2) by auto.
    by rewrite (next_level_or_solve_count is_step_2 _ _ _ _ _ _ _ _ _ _ _
                  Hfirst) by auto. }
  revert H3.
  destruct (runs_second_iteration (rel_tol (state mem2)) is_stop);
    intros H3; [|by left; destruct H3].
  right.
  apply kcycle_second_iteration_Ok in H3 as (m3 & t4 & Hdesc & ->).
  pose proof (frame_trans _ _ _ Hfm1 Hfm2) as Hfm.
  pose proof (frame_trans _ _ _ Hf2 Hfm) as Hf.
  rewrite <- (total_level_frame _ _ Hf) in Hdesc.
  apply next_level_or_solve_descends in Hdesc as (ev & -> & Hev).
  rewrite (total_level_frame _ _ Hf), (fr_multigrid _ _ Hf) in Hev.
  by exists ev.
Qed.

End KCycleSecondStep.
(** ** The same on concrete hierarchies *)

Module CycleWorkExamples.
Import Example.

Lemma halving_hierarchy_ready :
  ready multigrid_cycle.v (memory_of halving_hierarchy 5 0).
Proof.
  refine (proj1 (MultigridState_new_ready halving_hierarchy 1
    (state (memory_of halving_hierarchy 5 0)) 5%Z 0%Z _ _)); [|reflexivity].
  refine (proj1 (generate_ok (plain halve 3 fp_zero) (8, 0) 3%Z always_first
    always_first 1%Z (-1)%Z multigrid_cycle.v _ _)).
  reflexivity.
Qed.

(** X6, at a concrete input: the state built for the FCG K-cycle on three
    halving levels runs a GCR K-cycle from level 0. *)
Lemma run_cycle_never_fails_witness :
  ∃ st,
    MultigridState_new (8, 0) kfcg_hierarchy 1 1%Z (-1)%Z 1 minus_one
      = Ok st ∧
    ∃ mem' tr,
      run_cycle 3 multigrid_cycle.kgcr 0 (8, 0) dense_b dense_x
        {| caller_b := 5%Z; caller_x := 0%Z; state := st |}
      = Ok ((), mem', tr).
Proof.
  destruct (run_cycle_never_fails (plain halve 3 minus_one) (8, 0) 3%Z
    always_first always_first 1%Z (-1)%Z multigrid_cycle.kfcg kfcg_hierarchy
    1 eq_refl ltac:(simpl; lia)) as (st & Hnew & Hrun).
  exists st. split; [exact Hnew|].
  apply (Hrun 5%Z 0%Z multigrid_cycle.kgcr 0 (8, 0) dense_b dense_x 3).
  - reflexivity.
  - simpl; lia.
  - simpl; lia.
  - exact I.
  - exact I.
Defined.

(** X7, at a concrete input: a V-cycle at level 0 of three halving levels
    without smoothers. *)
Lemma v_cycle_activation_witness :
  ∃ mem' inner,
    run_cycle (B := backend) 3 multigrid_cycle.v 0 (8, 0) dense_b dense_x
      (memory_of halving_hierarchy 5 0)
    = Ok ((), mem',
          [ev_restrict_apply 4 (elem r_list 0) (elem g_list 0);
           ev_run_cycle multigrid_cycle.v 1 (4, 0) (elem g_list 0)
             (elem e_list 0) inner;
           ev_prolong_applyadd 4 (elem e_list 0) dense_x]).
Proof.
  destruct (v_cycle_activation (B := backend) 3 multigrid_cycle.v 0 (8, 0)
    dense_b dense_x (memory_of halving_hierarchy 5 0) (or_introl eq_refl)
    halving_hierarchy_ready ltac:(vm_compute; lia) ltac:(vm_compute; lia)
    I I)
    as (mem' & tr & rp & pre_s & pre_r & post_s & post_r & descent &
        Hrun & Hrp & Hps & Hpr & Hqs & Hqr & [inner ->] & Htr).
  vm_compute in Hrp, Hps, Hqs.
  injection Hrp as <-. injection Hps as <-. injection Hqs as <-.
  exists mem', inner. rewrite Hrun, Htr. reflexivity.
Defined.

(** X8, at a concrete input: an F-cycle on the last of three halving
    levels applies the identity of size 1 twice. *)
Lemma second_cycle_on_last_level_witness :
  ∃ mem',
    run_cycle (B := backend) 1 multigrid_cycle.f 2 (2, 0) (elem g_list 1)
      (elem e_list 1) (memory_of f_hierarchy 5 0)
    = Ok ((), mem',
          [ev_copy_from (elem r_list 2) (elem g_list 1);
           ev_apply4 (2, 0) (-1)%Z (elem e_list 1) 1%Z (elem r_list 2);
           ev_restrict_apply 1 (elem r_list 2) (elem g_list 2);
           ev_apply (1, 0) (elem g_list 2) (elem e_list 2);
           ev_prolong_applyadd 1 (elem e_list 2) (elem e_list 1);
           ev_copy_from (elem r_list 2) (elem g_list 1);
           ev_apply4 (2, 0) (-1)%Z (elem e_list 1) 1%Z (elem r_list 2);
           ev_restrict_apply 1 (elem r_list 2) (elem g_list 2);
           ev_apply (1, 0) (elem g_list 2) (elem e_list 2);
           ev_prolong_applyadd 1 (elem e_list 2) (elem e_list 1)]).
Proof.
  destruct (second_cycle_on_last_level (B := backend) 1 multigrid_cycle.f 2
    (2, 0) (elem g_list 1) (elem e_list 1) (memory_of f_hierarchy 5 0)
    (or_introl eq_refl) CycleExamples.f_hierarchy_ready eq_refl
    ltac:(lia) ltac:(vm_compute; lia) ltac:(vm_compute; lia))
    as (mem' & tr & rp & pre_s & pre_r & mid_s & mid_r & post_s & post_r &
        solver & Hrun & Hrp & Hps & Hpr & Hms & Hmr & Hqs & Hqr & Hs & Htr).
  vm_compute in Hrp, Hps, Hms, Hqs, Hs.
  injection Hrp as <-. injection Hps as <-. injection Hms as <-.
  injection Hqs as <-. injection Hs as <-.
  exists mem'. rewrite Hrun, Htr. reflexivity.
Defined.

(** X9, at a concrete input: an F-cycle over three levels applies the
    coarsest solver four times. *)
Lemma coarsest_solves_per_cycle_witness :
  ∃ mem' tr,
    run_cycle (B := backend) 3 multigrid_cycle.f 0 (8, 0) dense_b dense_x
      (memory_of f_hierarchy 5 0) = Ok ((), mem', tr) ∧
    deep_count_events is_apply tr = 4.
Proof.
  apply (coarsest_solves_per_cycle (B := backend) 3 multigrid_cycle.f 0
    (8, 0) dense_b dense_x (memory_of f_hierarchy 5 0) eq_refl
    CycleExamples.f_hierarchy_ready ltac:(vm_compute; lia)
    ltac:(vm_compute; lia) I I).
Defined.

(** X10, at a concrete input: the FCG K-cycle at level 0 of three halving
    levels. *)
Lemma kcycle_second_step_witness :
  ∃ mem' tr head second,
    run_cycle (B := backend) 3 multigrid_cycle.kfcg 0 (8, 0) dense_b dense_x
      (memory_of kfcg_hierarchy 5 0) = Ok ((), mem', tr) ∧
    tr = head ++ second ++ [ev_prolong_applyadd 4 (elem e_list 0) dense_x] ∧
    count_events is_step_2 head = 0 ∧
    (second = [] ∨
     ∃ descent,
       descends multigrid_cycle.kfcg 0 3 kfcg_hierarchy 4 (elem g_list 0)
         (elem d_list 0) descent ∧
       second = [descent;
                 ev_apply (4, 0) (elem d_list 0) (elem w_list 0);
                 ev_compute_dot (elem d_list 0) (elem v_list 0)
                   (elem gamma_list 0);
                 ev_compute_dot (elem d_list 0) (elem w_list 0)
                   (elem beta_list 0);
                 ev_compute_dot (elem d_list 0) (elem g_list 0)
                   (elem zeta_list 0);
                 ev_kcycle_step_2 (elem alpha_list 0) (elem rho_list 0)
                   (elem gamma_list 0) (elem beta_list 0)
                   (elem zeta_list 0) (elem d_list 0) (elem e_list 0)]).
Proof.
  destruct (kcycle_second_step (B := backend) 3 multigrid_cycle.kfcg 0
    (8, 0) dense_b dense_x (memory_of kfcg_hierarchy 5 0) eq_refl
    CycleExamples.kfcg_hierarchy_ready ltac:(vm_compute; lia)
    ltac:(reflexivity) ltac:(vm_compute; lia) I I)
    as (mem' & tr & rp & post_s & post_r & head & second & Hrun & Hrp &
        Hqs & Hqr & Htr & Hhead & Hsecond).
  vm_compute in Hrp, Hqs. injection Hrp as <-. injection Hqs as <-.
  exists mem', tr, head, second.
  split; [exact Hrun|]. split; [|split; [exact Hhead|exact Hsecond]].
  rewrite Htr. reflexivity.
Defined.

End CycleWorkExamples.

(** ** The outer solve loop *)

Section ApplyLoop.
Context `{B : Backend}.

Lemma read_write_index l i j d mem :
  i ≠ j → read (write (elem l i) d mem) (elem l j) = read mem (elem l j).
Proof.
  intros Hij. simpl. destruct l; simpl; by rewrite list_lookup_insert_ne.
Qed.

Lemma solving_frame mg mem mem' :
  frame mem mem' → solving mg mem → solving mg mem'.
Proof.
  intros Hf (Hrd & Hmg & Hlev). split; [by eapply ready_frame|].
  split; [|done]. by rewrite (fr_multigrid _ _ Hf).
Qed.

Lemma solving_total_level mg mem :
  solving mg mem → total_level mem = length (rstr_prlg_list_ mg).
Proof. intros (_ & Hmg & _). unfold total_level. by rewrite Hmg. Qed.

(** The zero fill: its events, and what it leaves in memory. *)
Lemma fill_e_list_Ok n :
  ∀ i mem,
    i + n ≤ length (lists (state mem) e_list) →
    ∃ mem',
      fill_e_list n i mem = Ok ((), mem', fill_events i n) ∧
      frame mem mem' ∧
      caller_b mem' = caller_b mem ∧ caller_x mem' = caller_x mem ∧
      (∀ l j, l ≠ e_list → read mem' (elem l j) = read mem (elem l j)) ∧
      (∀ j, j < i → read mem' (elem e_list j) = read mem (elem e_list j)) ∧
      (∀ j, i ≤ j → j < i + n →
         read mem' (elem e_list j)
         = fill_array_zero <$> read mem (elem e_list j)).
Proof.
  induction n as [|n IH]; intros i mem Hlen.
  { exists mem. split; [done|]. split; [apply frame_refl|].
    do 4 (split; [done|]). intros; lia. }
  destruct (lookup_lt_is_Some_2 (lists (state mem) e_list) i) as [ev Hev];
    [lia|].
  set (mem1 := write (elem e_list i) (fill_array_zero ev) mem).
  destruct (IH (i + 1) mem1) as (mem' & Hfill & Hf & Hb & Hx & Ho & Hlt & Hz).
  { subst mem1. rewrite length_lists_write. lia. }
  exists mem'. split; [|split; [|split; [|split; [|split; [|split]]]]].
  - cbn [fill_e_list]. unfold mbind, M_bind, list_at, load.
    assert ((i <? length (lists (state mem) e_list)) = true) as ->
      by (apply Nat.ltb_lt; lia).
    cbn [read]. rewrite Hev. unfold store, emit. fold mem1.
    unfold mbind, M_bind in Hfill. rewrite Hfill.
    unfold fill_events. simpl. by rewrite Nat.add_1_r.
  - eapply frame_trans; [apply frame_write|exact Hf].
  - by rewrite Hb.
  - by rewrite Hx.
  - intros l j Hl. rewrite Ho by done. subst mem1.
    apply read_write_other. by destruct l.
  - intros j Hj. rewrite Hlt by lia. subst mem1.
    apply read_write_index. lia.
  - intros j Hij Hj. destruct (decide (j = i)) as [->|Hne].
    + rewrite Hlt by lia. subst mem1.
      rewrite read_write_same by lia. cbn [read]. by rewrite Hev.
    + rewrite Hz by lia. subst mem1.
      rewrite read_write_index by lia. done.
Qed.


Lemma M_bind_intro {A C} (m : M A) (k : A → M C) mem a mem1 tr1 c mem2 tr2 :
  m mem = Ok (a, mem1, tr1) → k a mem1 = Ok (c, mem2, tr2) →
  (m ≫= k) mem = Ok (c, mem2, tr1 ++ tr2).
Proof. intros H1 H2. apply M_bind_Ok. by exists a, mem1, tr1, tr2. Qed.

(** The residual at level 0, as [apply_impl] computes it before the loop
    and after every cycle. *)
Lemma global_residual_Ok A neg_one one mem :
  0 < length (lists (state mem) r_list) →
  ∃ mem1 mem',
    do_copy_from (elem r_list 0) dense_b mem
      = Ok ((), mem1, [ev_copy_from (elem r_list 0) dense_b]) ∧
    do_apply4 A neg_one dense_x one (elem r_list 0) mem1
      = Ok ((), mem', [ev_apply4 A neg_one dense_x one (elem r_list 0)]) ∧
    frame mem mem' ∧
    caller_b mem' = caller_b mem ∧ caller_x mem' = caller_x mem ∧
    read mem' (elem r_list 0)
    = Some (lin_apply4 A neg_one (caller_x mem) one (caller_b mem)).
Proof.
  intros Hlen.
  destruct (safe_do_copy_from (elem r_list 0) dense_b mem I)
    as ([] & mem1 & tr1 & H1 & Hf1 & _).
  pose proof H1 as H1'.
  apply do_copy_from_Ok in H1' as (d & Hd & -> & ->).
  injection Hd as <-.
  set (mem1 := write (elem r_list 0) (caller_b mem) mem) in *.
  destruct (safe_do_apply4 A neg_one dense_x one (elem r_list 0) mem1 I)
    as ([] & mem2 & tr2 & H2 & Hf2 & _).
  { apply (ptr_valid_frame _ _ _ Hf1). exact Hlen. }
  pose proof H2 as H2'.
  apply do_apply4_Ok in H2' as (bv & xv & Hbv & Hxv & -> & ->).
  injection Hbv as <-.
  subst mem1. rewrite read_write_same in Hxv by done. injection Hxv as <-.
  eexists. eexists. split; [exact H1|]. split; [exact H2|].
  split; [by eapply frame_trans|]. split; [done|]. split; [done|].
  rewrite read_write_same; [done|]. by rewrite length_lists_write.
Qed.

(** The work of one pass after a negative check. *)
Lemma iteration_work_Ok mg mem :
  solving mg mem →
  let A := system_matrix_ mg in
  let n := length (rstr_prlg_list_ mg) in
  ∃ mem1 mem2 mem3 inner,
    fill_e_list n 0 mem = Ok ((), mem1, fill_events 0 n) ∧
    caller_b mem1 = caller_b mem ∧ caller_x mem1 = caller_x mem ∧
    (∀ l j, l ≠ e_list → read mem1 (elem l j) = read mem (elem l j)) ∧
    (∀ j, j < n →
       read mem1 (elem e_list j)
       = fill_array_zero <$> read mem (elem e_list j)) ∧
    run_cycle n (cycle_ mg) 0 A dense_b dense_x mem1
      = Ok ((), mem2, inner) ∧
    iteration_work mg mem
    = Ok ((), mem3,
          fill_events 0 n ++
          [ev_run_cycle (cycle_ mg) 0 A dense_b dense_x inner] ++
          residual_events A (neg_one_op_ mg) (one_op_ mg) dense_b dense_x
            (elem r_list 0)) ∧
    caller_b mem3 = caller_b mem2 ∧ caller_x mem3 = caller_x mem2 ∧
    read mem3 (elem r_list 0)
    = Some (lin_apply4 A (neg_one_op_ mg) (caller_x mem2) (one_op_ mg)
              (caller_b mem2)) ∧
    solving mg mem3.
Proof.
  intros Hs A n. pose proof Hs as (Hrd & Hmg & Hlev).
  pose proof (solving_total_level _ _ Hs) as Htot.
  assert (length (lists (state mem) e_list) = n) as He
    by (by rewrite (rd_levels _ _ Hrd)).
  destruct (fill_e_list_Ok n 0 mem) as
    (mem1 & Hfill & Hf1 & Hb1 & Hx1 & Ho1 & _ & Hz1); [lia|].
  pose proof (solving_frame _ _ _ Hf1 Hs) as Hs1.
  pose proof Hs1 as (Hrd1 & _ & _).
  pose proof (solving_total_level _ _ Hs1) as Htot1.
  destruct (run_cycle_total n (cycle_ mg) 0 A dense_b dense_x mem1)
    as ([] & mem2 & inner & Hrun & Hf2 & _); try done; try lia.
  pose proof (solving_frame _ _ _ Hf2 Hs1) as Hs2.
  pose proof Hs2 as (Hrd2 & _ & _).
  pose proof (solving_total_level _ _ Hs2) as Htot2.
  destruct (global_residual_Ok A (neg_one_op_ mg) (one_op_ mg) mem2)
    as (mem2' & mem3 & Hcp & Hap & Hf3 & Hb3 & Hx3 & Hr3).
  { rewrite (rd_levels _ _ Hrd2) by done. lia. }
  exists mem1, mem2, mem3, inner.
  split; [done|]. split; [done|]. split; [done|]. split; [done|].
  split; [intros j Hj; apply Hz1; lia|]. split; [done|].
  split; [|split; [done|split; [done|split; [done|]]]].
  - unfold iteration_work.
    eapply (M_bind_intro _ _ _ _ _ [] _ _ _); [reflexivity|].
    cbn [state]. rewrite He.
    eapply (M_bind_intro _ _ _ _ _ _ _ _ _ Hfill).
    eapply (M_bind_intro _ _ _ _ _ [_] _ _ _);
      [apply nested_Ok; by exists inner|].
    exact (M_bind_intro _ _ _ _ _ _ _ _ _ Hcp Hap).
  - by eapply solving_frame.
Qed.


(** The head of one pass. *)
Lemma check_convergence_Ok mg ls :
  solving mg (ls_mem ls) →
  ∃ rv flag status changed criterion,
    read (ls_mem ls) (elem r_list 0) = Some rv ∧
    criterion_check (stop_criterion ls) (iter ls + 1) rv
      (caller_x (ls_mem ls)) RelativeStoppingId true (stop_status ls)
      (one_changed ls) = (flag, status, changed, criterion) ∧
    check_convergence ls
    = Ok (flag,
          {| ls_mem := ls_mem ls; stop_status := status;
             one_changed := changed; stop_criterion := criterion;
             iter := (iter ls + 1)%Z |},
          check_events (iter ls + 1) flag).
Proof.
  intros (Hrd & Hmg & Hlev).
  destruct (lookup_lt_is_Some_2 (lists (state (ls_mem ls)) r_list) 0)
    as [rv Hrv].
  { rewrite (rd_levels _ _ Hrd) by done. unfold total_level.
    rewrite Hmg. lia. }
  destruct (criterion_check (stop_criterion ls) (iter ls + 1) rv
              (caller_x (ls_mem ls)) RelativeStoppingId true (stop_status ls)
              (one_changed ls)) as [[[flag status] changed] criterion] eqn:E.
  exists rv, flag, status, changed, criterion.
  split; [done|]. split; [done|].
  unfold check_convergence, load. cbn [read]. rewrite Hrv, E. reflexivity.
Qed.


(** What [apply_impl] does before the loop, for a generated hierarchy. *)
Lemma solve_prologue_Ok p A scf rpi si one_in neg_one_in c mg b x :
  generate (unbuilt p A scf rpi si one_in neg_one_in c) = Ok mg →
  (is_kcycle c = true → kcycle_base p ≠ 0) →
  let r0 := lin_apply4 A neg_one_in x one_in b in
  ∃ ls0,
    solve_prologue mg b x = Ok (ls0, prologue_events mg) ∧
    caller_b (ls_mem ls0) = b ∧ caller_x (ls_mem ls0) = x ∧
    read (ls_mem ls0) (elem r_list 0) = Some r0 ∧
    stop_status ls0 = ir_initialize (status_create (get_num_cols b)) ∧
    one_changed ls0 = false ∧
    stop_criterion ls0 = criterion_generate scf A b x r0 ∧
    iter ls0 = (-1)%Z ∧
    solving mg (ls_mem ls0).
Proof.
  intros Hgen Hkb r0. subst r0.
  apply generate_ok in Hgen as [Hok Hcfg].
  apply config_fields in Hcfg as (Ep & EA & _ & _ & Eo & Eno & Ec & Escf).
  simpl in Ep, EA, Eo, Eno, Ec, Escf.
  set (st := allocate (cycle_ mg) (get_num_cols b)
               (kcycle_base (parameters_ mg)) (rstr_prlg_list_ mg) 0
               (get_size0 (system_matrix_ mg))
               {| lists := λ _, []; norm_lists := λ _, [];
                  system_matrix := system_matrix_ mg; multigrid := mg;
                  nrhs := get_num_cols b; one := one_op_ mg;
                  neg_one := neg_one_op_ mg;
                  k_base := kcycle_base (parameters_ mg);
                  rel_tol := kcycle_rel_tol (parameters_ mg) |}).
  assert (MultigridState_new (system_matrix_ mg) mg (get_num_cols b)
            (one_op_ mg) (neg_one_op_ mg) (kcycle_base (parameters_ mg))
            (kcycle_rel_tol (parameters_ mg)) = Ok st) as Hnew.
  { assert (is_kcycle (cycle_ mg)
            && (kcycle_base (parameters_ mg) =? 0) = false) as Hdiv.
    { rewrite Ep, Ec. destruct (is_kcycle c); [|done].
      by apply Nat.eqb_neq, Hkb. }
    unfold MultigridState_new. by rewrite Hdiv. }
  set (mem0 := {| caller_b := b; caller_x := x; state := st |}).
  destruct (MultigridState_new_ready mg (get_num_cols b) st b x Hok Hnew)
    as (Hrd & Hmg & _).
  fold mem0 in Hrd.
  assert (solving mg mem0) as Hs.
  { split; [done|]. split; [done|]. by destruct Hok. }
  destruct (global_residual_Ok (system_matrix_ mg) (neg_one_op_ mg)
              (one_op_ mg) mem0)
    as (mem1 & mem2 & Hcp & Hap & Hf & Hb & Hx & Hr).
  { rewrite (rd_levels _ _ Hrd) by done.
    rewrite (solving_total_level _ _ Hs). by destruct Hok. }
  assert ((list_at r_list 0 ≫= λ r,
           do_copy_from r dense_b ≫= λ _,
           do_apply4 (system_matrix_ mg) (neg_one_op_ mg) dense_x
             (one_op_ mg) r ≫= λ _, load r) mem0
          = Ok (lin_apply4 (system_matrix_ mg) (neg_one_op_ mg) x
                  (one_op_ mg) b, mem2,
                residual_events (system_matrix_ mg) (neg_one_op_ mg)
                  (one_op_ mg) dense_b dense_x (elem r_list 0))) as Hrun.
  { eapply (M_bind_intro _ _ _ (elem r_list 0) mem0 [] _ _ _).
    { unfold list_at.
      assert ((0 <? length (lists (state mem0) r_list)) = true) as ->;
        [|done].
      apply Nat.ltb_lt. rewrite (rd_levels _ _ Hrd) by done.
      rewrite (solving_total_level _ _ Hs). by destruct Hok. }
    eapply (M_bind_intro _ _ _ _ _ [_] _ _ _ Hcp).
    eapply (M_bind_intro _ _ _ _ _ [_] _ _ [] Hap).
    unfold load. by rewrite Hr. }
  eexists. split.
  { unfold solve_prologue. rewrite Hnew. cbn [mbind outcome_bind].
    fold mem0. rewrite Hrun. reflexivity. }
  cbn [ls_mem stop_status one_changed stop_criterion iter].
  rewrite Hb, Hx, Hr, EA, Eo, Eno, Escf. cbn [caller_b caller_x mem0].
  do 7 (split; [done|]). by eapply solving_frame.
Qed.


(** One evaluation of the loop body. *)
Lemma solve_loop_step mg ls fuel :
  solving mg (ls_mem ls) →
  let A := system_matrix_ mg in
  let n := length (rstr_prlg_list_ mg) in
  ∃ rv flag status changed criterion,
    read (ls_mem ls) (elem r_list 0) = Some rv ∧
    criterion_check (stop_criterion ls) (iter ls + 1) rv
      (caller_x (ls_mem ls)) RelativeStoppingId true (stop_status ls)
      (one_changed ls) = (flag, status, changed, criterion) ∧
    let ls1 := {| ls_mem := ls_mem ls; stop_status := status;
                  one_changed := changed; stop_criterion := criterion;
                  iter := (iter ls + 1)%Z |} in
    if flag then
      solve_loop (S fuel) mg ls = Ok (ls1, check_events (iter ls + 1) true)
    else
      ∃ mem1 mem2 mem3 inner,
        fill_e_list n 0 (ls_mem ls) = Ok ((), mem1, fill_events 0 n) ∧
        caller_b mem1 = caller_b (ls_mem ls) ∧
        caller_x mem1 = caller_x (ls_mem ls) ∧
        (∀ j, j < n →
           read mem1 (elem e_list j)
           = fill_array_zero <$> read (ls_mem ls) (elem e_list j)) ∧
        run_cycle n (cycle_ mg) 0 A dense_b dense_x mem1
          = Ok ((), mem2, inner) ∧
        caller_b mem3 = caller_b mem2 ∧ caller_x mem3 = caller_x mem2 ∧
        read mem3 (elem r_list 0)
        = Some (lin_apply4 A (neg_one_op_ mg) (caller_x mem2) (one_op_ mg)
                  (caller_b mem2)) ∧
        solving mg mem3 ∧
        let pass :=
          check_events (iter ls + 1) false ++
          fill_events 0 n ++
          [ev_run_cycle (cycle_ mg) 0 A dense_b dense_x inner] ++
          residual_events A (neg_one_op_ mg) (one_op_ mg) dense_b dense_x
            (elem r_list 0) in
        (∀ ls' tr, solve_loop fuel mg (with_memory ls1 mem3) = Ok (ls', tr) →
           solve_loop (S fuel) mg ls = Ok (ls', pass ++ tr)) ∧
        (∀ e, solve_loop fuel mg (with_memory ls1 mem3) = Throw e →
           solve_loop (S fuel) mg ls = Throw e).
Proof.
  intros Hs A n.
  destruct (check_convergence_Ok mg ls Hs)
    as (rv & flag & status & changed & criterion & Hrv & Hcheck & Hcc).
  exists rv, flag, status, changed, criterion.
  split; [done|]. split; [done|]. cbv zeta.
  destruct flag.
  { cbn [solve_loop]. by rewrite Hcc. }
  destruct (iteration_work_Ok mg (ls_mem ls) Hs)
    as (mem1 & mem2 & mem3 & inner & Hfill & Hb1 & Hx1 & _ & Hz & Hrun &
        Hwork & Hb3 & Hx3 & Hr3 & Hs3).
  exists mem1, mem2, mem3, inner.
  do 9 (split; [done|]).
  split.
  - intros ls' tr Hrest. cbn [solve_loop]. rewrite Hcc.
    cbn [mbind outcome_bind ls_mem]. rewrite Hwork.
    cbn [mbind outcome_bind stop_status one_changed stop_criterion iter].
    unfold with_memory in Hrest.
    cbn [stop_status one_changed stop_criterion iter] in Hrest.
    rewrite Hrest. cbn [mbind outcome_bind]. subst A n.
    by rewrite <- !app_assoc.
  - intros e Hrest. cbn [solve_loop]. rewrite Hcc.
    cbn [mbind outcome_bind ls_mem]. rewrite Hwork.
    cbn [mbind outcome_bind stop_status one_changed stop_criterion iter].
    unfold with_memory in Hrest.
    cbn [stop_status one_changed stop_criterion iter] in Hrest.
    by rewrite Hrest.
Qed.


Lemma count_fill_events p i n :
  (∀ e, p (ev_fill_array e) = false) →
  count_events p (fill_events i n) = 0.
Proof.
  intros Hp. unfold fill_events.
  revert i. induction n as [|n IH]; intros i; [done|].
  simpl. by rewrite Hp, IH.
Qed.

(** The events of a loop that ended: one cycle for every negative check,
    then the positive check. *)
Lemma solve_loop_counts mg fuel :
  ∀ ls, solving mg (ls_mem ls) →
    match solve_loop fuel mg ls with
    | Throw e => e = OutOfFuel
    | Ok (ls', tr) =>
      ∃ n, n < fuel ∧ iter ls' = (iter ls + 1 + Z.of_nat n)%Z ∧
        count_events is_cycle_event tr = n ∧
        count_events is_log_event tr = n + 1 ∧
        count_events is_check_event tr = n + 1 ∧
        list.last tr = Some (ev_check (iter ls') true)
    end.
Proof.
  induction fuel as [|fuel IH]; intros ls Hs; [done|].
  destruct (solve_loop_step mg ls fuel Hs)
    as (rv & flag & status & changed & criterion & Hrv & Hcheck & H).
  cbv zeta in H. destruct flag.
  { rewrite H. exists 0. cbn [iter]. split; [lia|].
    split; [lia|]. done. }
  destruct H as (mem1 & mem2 & mem3 & inner & _ & _ & _ & _ & _ & _ & _ &
                 _ & Hs3 & Hok & Hthrow).
  specialize (IH (with_memory
    {| ls_mem := ls_mem ls; stop_status := status; one_changed := changed;
       stop_criterion := criterion; iter := (iter ls + 1)%Z |} mem3) Hs3).
  destruct (solve_loop fuel mg _) as [[ls' tr]|e] eqn:E.
  - rewrite (Hok ls' tr eq_refl).
    destruct IH as (n & Hn & Hiter & Hc & Hl & Hk & Hlast).
    cbn [with_memory iter] in Hiter.
    exists (S n). split; [lia|]. split; [lia|].
    rewrite !count_events_app, Hc, Hl, Hk.
    rewrite !count_fill_events by done.
    split; [done|]. split; [done|]. split; [done|].
    rewrite !app_assoc. rewrite last_app, Hlast. done.
  - rewrite (Hthrow e eq_refl). exact IH.
Qed.

(** X11.  Before the loop, [apply_impl] on a generated hierarchy
    initialises the stopping status, copies [b] into [r_list.at(0)] and
    applies the system matrix to it, which leaves the residual
    [r = (-1) * A * x + 1 * b] there, and generates the stopping criterion
    from the system matrix, [b], [x] and that residual; neither [b] nor
    [x] is changed and the iteration count starts at -1.  A K-cycle needs
    a [kcycle_base] other than zero. *)
Theorem apply_initial_residual p A scf rpi si one_in neg_one_in c mg b x :
  generate (unbuilt p A scf rpi si one_in neg_one_in c) = Ok mg →
  (is_kcycle c = true → kcycle_base p ≠ 0) →
  let r0 := lin_apply4 A neg_one_in x one_in b in
  ∃ ls0,
    solve_prologue mg b x
    = Ok (ls0,
          [ev_initialize;
           ev_copy_from (elem r_list 0) dense_b;
           ev_apply4 A neg_one_in dense_x one_in (elem r_list 0);
           ev_criterion_generate]) ∧
    caller_b (ls_mem ls0) = b ∧ caller_x (ls_mem ls0) = x ∧
    read (ls_mem ls0) (elem r_list 0) = Some r0 ∧
    stop_status ls0 = ir_initialize (status_create (get_num_cols b)) ∧
    one_changed ls0 = false ∧
    stop_criterion ls0 = criterion_generate scf A b x r0 ∧
    iter ls0 = (-1)%Z ∧
    solving mg (ls_mem ls0).
Proof.
  intros Hgen Hkb r0.
  destruct (solve_prologue_Ok p A scf rpi si one_in neg_one_in c mg b x
              Hgen Hkb) as (ls0 & Hpro & H).
  exists ls0. split; [|exact H]. rewrite Hpro.
  apply generate_ok in Hgen as [_ Hcfg].
  apply config_fields in Hcfg as (_ & EA & _ & _ & Eo & Eno & _).
  simpl in EA, Eo, Eno. unfold prologue_events. by rewrite EA, Eo, Eno.
Qed.

(** X12.  When the stopping criterion reports convergence at its first
    check, on iteration 0 with the initial residual, [apply_impl] runs no
    cycle and returns [x] as it was given. *)
Theorem apply_converged_at_once p A scf rpi si one_in neg_one_in c mg b x
    fuel :
  generate (unbuilt p A scf rpi si one_in neg_one_in c) = Ok mg →
  (is_kcycle c = true → kcycle_base p ≠ 0) →
  let r0 := lin_apply4 A neg_one_in x one_in b in
  (criterion_check (criterion_generate scf A b x r0) 0 r0 x
     RelativeStoppingId true
     (ir_initialize (status_create (get_num_cols b))) false).1.1.1 = true →
  (∃ ls, apply_impl_run (S fuel) mg b x
         = Ok (ls, prologue_events mg ++ check_events 0 true)) ∧
  apply_impl (S fuel) mg b x = Ok x.
Proof.
  intros Hgen Hkb r0 Hconv.
  destruct (solve_prologue_Ok p A scf rpi si one_in neg_one_in c mg b x
              Hgen Hkb)
    as (ls0 & Hpro & Hb & Hx & Hr & Hst & Hch & Hcr & Hit & Hs).
  destruct (solve_loop_step mg ls0 fuel Hs)
    as (rv & flag & status & changed & criterion & Hrv & Hcheck & H).
  rewrite Hr in Hrv. injection Hrv as <-.
  rewrite Hcr, Hit, Hx, Hst, Hch in Hcheck. fold r0 in Hcheck.
  change (-1 + 1)%Z with 0%Z in Hcheck.
  rewrite Hcheck in Hconv. simpl in Hconv. subst flag.
  cbv zeta in H. rewrite Hit in H. change (-1 + 1)%Z with 0%Z in H.
  assert (apply_impl_run (S fuel) mg b x
          = Ok ({| ls_mem := ls_mem ls0; stop_status := status;
                   one_changed := changed; stop_criterion := criterion;
                   iter := 0 |},
                prologue_events mg ++ check_events 0 true)) as Hrun.
  { unfold apply_impl_run. rewrite Hpro. cbn [mbind outcome_bind].
    by rewrite H. }
  split; [by eexists|].
  unfold apply_impl. rewrite Hrun. cbn [mbind outcome_bind fst ls_mem].
  by rewrite Hx.
Qed.

(** X13.  One pass of the loop of [apply_impl]: the criterion is asked
    with the incremented iteration count, the residual in [r_list.at(0)]
    and [x].  When it reports convergence the loop ends with the memory
    as it is.  Otherwise every vector of [e_list] is zero-filled, in
    order, one cycle of the solver's type is run from level 0 on the
    system matrix with [b] and [x], the residual [(-1) * A * x + 1 * b]
    of the new [x] is stored in [r_list.at(0)], and the loop goes on
    with the criterion's new status. *)
Theorem solve_loop_pass mg ls fuel :
  solving mg (ls_mem ls) →
  let A := system_matrix_ mg in
  let n := length (rstr_prlg_list_ mg) in
  ∃ rv flag status changed criterion,
    read (ls_mem ls) (elem r_list 0) = Some rv ∧
    criterion_check (stop_criterion ls) (iter ls + 1) rv
      (caller_x (ls_mem ls)) RelativeStoppingId true (stop_status ls)
      (one_changed ls) = (flag, status, changed, criterion) ∧
    let ls1 := {| ls_mem := ls_mem ls; stop_status := status;
                  one_changed := changed; stop_criterion := criterion;
                  iter := (iter ls + 1)%Z |} in
    if flag then
      solve_loop (S fuel) mg ls
      = Ok (ls1, [ev_log_iteration (iter ls + 1);
                  ev_check (iter ls + 1) true])
    else
      ∃ mem1 mem2 mem3 inner,
        fill_e_list n 0 (ls_mem ls) = Ok ((), mem1, fill_events 0 n) ∧
        caller_b mem1 = caller_b (ls_mem ls) ∧
        caller_x mem1 = caller_x (ls_mem ls) ∧
        (∀ j, j < n →
           read mem1 (elem e_list j)
           = fill_array_zero <$> read (ls_mem ls) (elem e_list j)) ∧
        run_cycle n (cycle_ mg) 0 A dense_b dense_x mem1
          = Ok ((), mem2, inner) ∧
        caller_b mem3 = caller_b mem2 ∧ caller_x mem3 = caller_x mem2 ∧
        read mem3 (elem r_list 0)
        = Some (lin_apply4 A (neg_one_op_ mg) (caller_x mem2) (one_op_ mg)
                  (caller_b mem2)) ∧
        solving mg mem3 ∧
        let pass :=
          [ev_log_iteration (iter ls + 1); ev_check (iter ls + 1) false] ++
          fill_events 0 n ++
          [ev_run_cycle (cycle_ mg) 0 A dense_b dense_x inner;
           ev_copy_from (elem r_list 0) dense_b;
           ev_apply4 A (neg_one_op_ mg) dense_x (one_op_ mg)
             (elem r_list 0)] in
        (∀ ls' tr, solve_loop fuel mg (with_memory ls1 mem3) = Ok (ls', tr) →
           solve_loop (S fuel) mg ls = Ok (ls', pass ++ tr)) ∧
        (∀ e, solve_loop fuel mg (with_memory ls1 mem3) = Throw e →
           solve_loop (S fuel) mg ls = Throw e).
Proof. intros Hs. exact (solve_loop_step mg ls fuel Hs). Qed.

(** X14.  [apply_impl] on a generated hierarchy, with a [kcycle_base]
    other than zero when the cycle is a K-cycle.  When it ends after [n]
    negative checks of the criterion, it has run exactly [n] cycles,
    logged and checked the iterations [n + 1] times, its iteration count
    is [n], and its last event is the positive check of iteration [n].
    Its own accesses do not fail: no [at] is out of range, the coarsest
    solver is not null and nothing is divided by zero, so that, the
    collaborators being taken to return, the bounded model fails only
    when the bound on the number of passes is reached. *)
Theorem apply_runs_one_cycle_per_iteration p A scf rpi si one_in neg_one_in
    c mg b x fuel :
  generate (unbuilt p A scf rpi si one_in neg_one_in c) = Ok mg →
  (is_kcycle c = true → kcycle_base p ≠ 0) →
  match apply_impl_run fuel mg b x with
  | Throw e => e = OutOfFuel
  | Ok (ls, tr) =>
    ∃ n, n < fuel ∧ iter ls = Z.of_nat n ∧
      count_events is_cycle_event tr = n ∧
      count_events is_log_event tr = n + 1 ∧
      count_events is_check_event tr = n + 1 ∧
      list.last tr = Some (ev_check (Z.of_nat n) true)
  end.
Proof.
  intros Hgen Hkb.
  destruct (solve_prologue_Ok p A scf rpi si one_in neg_one_in c mg b x
              Hgen Hkb)
    as (ls0 & Hpro & _ & _ & _ & _ & _ & _ & Hit & Hs).
  unfold apply_impl_run. rewrite Hpro. cbn [mbind outcome_bind].
  pose proof (solve_loop_counts mg fuel ls0 Hs) as H.
  destruct (solve_loop fuel mg ls0) as [[ls tr]|e]; [|exact H].
  destruct H as (n & Hn & Hiter & Hc & Hl & Hk & Hlast).
  cbn [mbind outcome_bind]. exists n. rewrite Hit in Hiter.
  split; [done|]. split; [lia|].
  rewrite !count_events_app, Hc, Hl, Hk.
  split; [done|]. split; [done|]. split; [done|].
  rewrite last_app, Hlast. simpl. do 3 f_equal. lia.
Qed.

End ApplyLoop.
(** ** The solve loop on concrete hierarchies *)

Module ApplyExamples.
Import Example.

(** X11, at a concrete input: [b = 5] and [x = 0] on three halving
    levels for the FCG K-cycle; the residual is [(-1) * 0 + 1 * 5]. *)
Lemma apply_initial_residual_witness :
  ∃ ls0,
    solve_prologue kfcg_hierarchy 5%Z 0%Z
    = Ok (ls0,
          [ev_initialize;
           ev_copy_from (elem r_list 0) dense_b;
           ev_apply4 (8, 0) (-1)%Z dense_x 1%Z (elem r_list 0);
           ev_criterion_generate]) ∧
    read (ls_mem ls0) (elem r_list 0) = Some 5%Z.
Proof.
  destruct (apply_initial_residual (plain halve 3 minus_one) (8, 0) 3%Z
    always_first always_first 1%Z (-1)%Z multigrid_cycle.kfcg
    kfcg_hierarchy 5%Z 0%Z eq_refl ltac:(simpl; lia))
    as (ls0 & Hpro & _ & _ & Hr & _).
  exists ls0. split; [exact Hpro|exact Hr].
Defined.

(** X12, at a concrete input: a criterion that converges at once. *)
Lemma apply_converged_at_once_witness :
  apply_impl 1 converged_hierarchy 5%Z 0%Z = Ok 0%Z.
Proof.
  apply (apply_converged_at_once (plain halve 3 fp_zero) (8, 0) 0%Z
    always_first always_first 1%Z (-1)%Z multigrid_cycle.kgcr
    converged_hierarchy 5%Z 0%Z 0 eq_refl ltac:(simpl; lia) eq_refl).
Defined.

Lemma halving_hierarchy_solving :
  solving halving_hierarchy (memory_of halving_hierarchy 5 0).
Proof.
  split; [exact CycleWorkExamples.halving_hierarchy_ready|].
  split; [reflexivity|]. simpl. lia.
Qed.

(** X13, at a concrete input: the first pass on three halving levels with
    a criterion that converges at iteration 3. *)
Lemma solve_loop_pass_witness :
  ∃ mem3 inner,
    ∀ ls' tr,
      solve_loop 1 halving_hierarchy
        {| ls_mem := mem3; stop_status := [false]; one_changed := false;
           stop_criterion := 3%Z; iter := 0%Z |} = Ok (ls', tr) →
      solve_loop 2 halving_hierarchy (loop_start halving_hierarchy 5 0 3)
      = Ok (ls',
            [ev_log_iteration 0; ev_check 0 false;
             ev_fill_array (elem e_list 0); ev_fill_array (elem e_list 1);
             ev_fill_array (elem e_list 2);
             ev_run_cycle multigrid_cycle.v 0 (8, 0) dense_b dense_x inner;
             ev_copy_from (elem r_list 0) dense_b;
             ev_apply4 (8, 0) (-1)%Z dense_x 1%Z (elem r_list 0)] ++ tr).
Proof.
  destruct (solve_loop_pass halving_hierarchy
    (loop_start halving_hierarchy 5 0 3) 1 halving_hierarchy_solving)
    as (rv & flag & status & changed & criterion & Hrv & Hcheck & H).
  vm_compute in Hcheck.
  injection Hcheck as <- <- <- <-.
  destruct H as (mem1 & mem2 & mem3 & inner & _ & _ & _ & _ & _ & _ & _ &
                 _ & _ & Hok & _).
  exists mem3, inner. exact Hok.
Defined.

(** X14, at a concrete input: the FCG K-cycle on three halving levels
    with a criterion that converges at iteration 3. *)
Lemma apply_runs_one_cycle_per_iteration_witness :
  match apply_impl_run 5 kfcg_hierarchy 5%Z 0%Z with
  | Throw e => e = OutOfFuel
  | Ok (ls, tr) =>
    ∃ n, n < 5 ∧ iter ls = Z.of_nat n ∧
      count_events is_cycle_event tr = n ∧
      count_events is_log_event tr = n + 1 ∧
      count_events is_check_event tr = n + 1 ∧
      list.last tr = Some (ev_check (Z.of_nat n) true)
  end.
Proof.
  apply (apply_runs_one_cycle_per_iteration (plain halve 3 minus_one) (8, 0)
    3%Z always_first always_first 1%Z (-1)%Z multigrid_cycle.kfcg
    kfcg_hierarchy 5%Z 0%Z 5 eq_refl ltac:(simpl; lia)).
Defined.

End ApplyExamples.

(** ** Further properties of the raw copies *)

Module ExecutorFacts.
Import Executor ExecutorTrace.

Section Copies.
Variable runtime : cuda_call → Z.
Variable hip_platform_nvcc : bool.

(** A guarded runtime call followed by a synchronize, as all copies of at
    least one byte are. *)
Lemma guarded_copy_cases (exec : CudaExecutor) (copy : cuda_call) :
  let id := cuda_device_id exec in
  let sync := cudaStreamSynchronize (cuda_stream exec) in
  cuda_scoped_device_id_guard id
    (GKO_ASSERT_NO_CUDA_ERRORS runtime copy
       (synchronize runtime exec no_error))
  = if (runtime copy =? cudaSuccess)%Z then
      ([guard_enter id; call copy; guard_enter id; call sync;
        guard_leave id; guard_leave id],
       if (runtime sync =? cudaSuccess)%Z then None
       else Some (CudaError (runtime sync)))
    else ([guard_enter id; call copy; guard_leave id],
          Some (CudaError (runtime copy))).
Proof.
  intros id sync. subst id sync.
  unfold cuda_scoped_device_id_guard, GKO_ASSERT_NO_CUDA_ERRORS,
    synchronize, no_error.
  destruct (runtime copy =? cudaSuccess)%Z; [|reflexivity].
  unfold cuda_scoped_device_id_guard, GKO_ASSERT_NO_CUDA_ERRORS.
  by destruct (runtime (cudaStreamSynchronize _) =? cudaSuccess)%Z.
Qed.

Lemma guarded_copy_fail_fast (exec : CudaExecutor) (copy : cuda_call) :
  fail_fast runtime
    (cuda_scoped_device_id_guard (cuda_device_id exec)
       (GKO_ASSERT_NO_CUDA_ERRORS runtime copy
          (synchronize runtime exec no_error))).
Proof.
  rewrite guarded_copy_cases. unfold fail_fast.
  destruct (Z.eqb_spec (runtime copy) cudaSuccess) as [Hc|Hc].
  - destruct (Z.eqb_spec (runtime (cudaStreamSynchronize (cuda_stream exec)))
                cudaSuccess) as [Hs|Hs]; simpl.
    + by repeat constructor.
    + split; [done|]. exists [copy], (cudaStreamSynchronize (cuda_stream exec)).
      split; [done|]. split; [|done]. by repeat constructor.
  - simpl. split; [done|]. exists [], copy. by repeat split.
Qed.

Lemma guarded_copy_guarded (exec : CudaExecutor) (copy : cuda_call) :
  guarded (cuda_device_id exec) 0
    (cuda_scoped_device_id_guard (cuda_device_id exec)
       (GKO_ASSERT_NO_CUDA_ERRORS runtime copy
          (synchronize runtime exec no_error))).1 = true.
Proof.
  rewrite guarded_copy_cases.
  destruct (runtime copy =? cudaSuccess)%Z; simpl;
    by rewrite ?Z.eqb_refl.
Qed.

(** X15.  The copies between the host and a CUDA device.  A copy of zero
    bytes does nothing.  A copy out of a CUDA executor to the host is a
    device-to-host [cudaMemcpyAsync] on the stream of that executor,
    inside its device guard; a copy from the host into a CUDA executor is
    a host-to-device [cudaMemcpyAsync] on the stream of the destination,
    inside the destination's device guard.  In both, a successful copy is
    followed by a synchronize of the same stream, and a failing runtime
    call ends the function with a device error that carries its code. *)
Theorem raw_copy_between_host_and_device (this dest : CudaExecutor)
    (num_bytes src_ptr dest_ptr : N) :
  raw_copy_to runtime hip_platform_nvcc this Omp num_bytes src_ptr dest_ptr
    = host_copy runtime this cudaMemcpyDeviceToHost num_bytes src_ptr
        dest_ptr ∧
  OmpExecutor_raw_copy_to runtime dest num_bytes src_ptr dest_ptr
    = host_copy runtime dest cudaMemcpyHostToDevice num_bytes src_ptr
        dest_ptr.
Proof.
  unfold host_copy. split.
  - cbn [raw_copy_to]. unfold raw_copy_to_omp.
    destruct (0 <? num_bytes)%N; [|reflexivity]. apply guarded_copy_cases.
  - unfold OmpExecutor_raw_copy_to.
    destruct (0 <? num_bytes)%N; [|reflexivity]. apply guarded_copy_cases.
Qed.

(** X16.  Every raw copy, and [synchronize], stops at the first failing
    runtime call: when the function returns normally every call it issued
    succeeded; when it ends with a device error the error carries the
    code of the last call issued, and every call before it succeeded; a
    Not-Supported error is raised before anything is done. *)
Theorem raw_copies_fail_fast (this : CudaExecutor) (dest : Executor)
    (dest_cuda : CudaExecutor) (num_bytes src_ptr dest_ptr : N) :
  fail_fast runtime
    (raw_copy_to runtime hip_platform_nvcc this dest num_bytes src_ptr
       dest_ptr) ∧
  fail_fast runtime
    (OmpExecutor_raw_copy_to runtime dest_cuda num_bytes src_ptr dest_ptr) ∧
  fail_fast runtime (synchronize runtime this no_error).
Proof.
  assert (fail_fast runtime no_error) as Hno by constructor.
  split; [|split].
  - destruct dest as [|d|d|d]; cbn [raw_copy_to].
    + unfold raw_copy_to_omp. destruct (0 <? num_bytes)%N; [|done].
      apply guarded_copy_fail_fast.
    + unfold raw_copy_to_cuda. destruct (0 <? num_bytes)%N; [|done].
      apply guarded_copy_fail_fast.
    + unfold raw_copy_to_hip. destruct hip_platform_nvcc; [|done].
      destruct (0 <? num_bytes)%N; [|done].
      apply guarded_copy_fail_fast.
    + done.
  - unfold OmpExecutor_raw_copy_to. destruct (0 <? num_bytes)%N; [|done].
    apply guarded_copy_fail_fast.
  - unfold synchronize, cuda_scoped_device_id_guard,
      GKO_ASSERT_NO_CUDA_ERRORS, no_error, fail_fast.
    destruct (Z.eqb_spec (runtime (cudaStreamSynchronize (cuda_stream this)))
                cudaSuccess) as [Hs|Hs]; simpl.
    + by repeat constructor.
    + split; [done|].
      exists [], (cudaStreamSynchronize (cuda_stream this)).
      by repeat split.
Qed.

(** X17.  The device guard of the raw copies: every runtime call is
    issued while a guard is active, every guard is one of the device of
    the executor whose stream is used (the source for the copies out of a
    CUDA executor, the destination for the copy from the host), and every
    guard that was entered is left again, in nested order, on the normal
    and on the failing paths. *)
Theorem raw_copies_guarded (this : CudaExecutor) (dest : Executor)
    (dest_cuda : CudaExecutor) (num_bytes src_ptr dest_ptr : N) :
  guarded (cuda_device_id this) 0
    (raw_copy_to runtime hip_platform_nvcc this dest num_bytes src_ptr
       dest_ptr).1 = true ∧
  guarded (cuda_device_id dest_cuda) 0
    (OmpExecutor_raw_copy_to runtime dest_cuda num_bytes src_ptr
       dest_ptr).1 = true ∧
  guarded (cuda_device_id this) 0
    (synchronize runtime this no_error).1 = true.
Proof.
  split; [|split].
  - destruct dest as [|d|d|d]; cbn [raw_copy_to].
    + unfold raw_copy_to_omp. destruct (0 <? num_bytes)%N; [|done].
      apply guarded_copy_guarded.
    + unfold raw_copy_to_cuda. destruct (0 <? num_bytes)%N; [|done].
      apply guarded_copy_guarded.
    + unfold raw_copy_to_hip. destruct hip_platform_nvcc; [|done].
      destruct (0 <? num_bytes)%N; [|done].
      apply guarded_copy_guarded.
    + done.
  - unfold OmpExecutor_raw_copy_to. destruct (0 <? num_bytes)%N; [|done].
    apply guarded_copy_guarded.
  - unfold synchronize, cuda_scoped_device_id_guard,
      GKO_ASSERT_NO_CUDA_ERRORS, no_error.
    destruct (runtime (cudaStreamSynchronize _) =? cudaSuccess)%Z; simpl;
      by rewrite ?Z.eqb_refl.
Qed.

End Copies.
End ExecutorFacts.

(** ** The batch stopping criteria *)

Module BatchStopFacts.
Import batch_stop.

Section Criteria.
Variables prec emax : Z.

Lemma SFleb_nan_l x : SFleb S754_nan x = false.
Proof. reflexivity. Qed.

Lemma SFleb_nan_r x : SFleb x S754_nan = false.
Proof. by destruct x. Qed.

Lemma SFmul_nan_l x : SFmul prec emax S754_nan x = S754_nan.
Proof. reflexivity. Qed.

Lemma SFmul_nan_r x : SFmul prec emax x S754_nan = S754_nan.
Proof. by destruct x. Qed.

(** X18.  A NaN is never reported as converged: when the residual norm,
    the tolerance or, for the relative criterion, the norm of the
    right-hand side is NaN, [check_converged] answers false.  With a
    right-hand side of norm zero and a finite tolerance the relative
    criterion accepts a residual norm that is not negative only when it
    is zero, and with an infinite tolerance it accepts none.  The
    absolute criterion does not depend on the norms of the right-hand
    side it is constructed with. *)
Theorem check_converged_nan_and_zero (tol r b : spec_float)
    (residual_norms rhs_norms rhs_norms' : list spec_float) :
  let rel := SimpleRelResidual_new tol (b :: rhs_norms) in
  let abs := SimpleAbsResidual_new tol rhs_norms in
  let check_rel := SimpleRelResidual_check_converged prec emax rel
                     (r :: residual_norms) in
  let check_abs := SimpleAbsResidual_check_converged abs
                     (r :: residual_norms) in
  (std_isnan r = true ∨ std_isnan tol = true ∨ std_isnan b = true →
   check_rel = Some false) ∧
  (std_isnan r = true ∨ std_isnan tol = true → check_abs = Some false) ∧
  (is_zero b = true → SFleb fp_zero r = true →
   check_rel = Some (is_finite tol && is_zero r)) ∧
  check_abs
  = SimpleAbsResidual_check_converged
      (SimpleAbsResidual_new tol rhs_norms') (r :: residual_norms).
Proof.
  intros rel abs check_rel check_abs.
  subst rel abs check_rel check_abs.
  unfold SimpleRelResidual_check_converged, SimpleAbsResidual_check_converged.
  cbn [lookup list_lookup mbind option_bind SimpleRelResidual_new
       SimpleAbsResidual_new rel_tol_ rhs_norms_ abs_tol_].
  split; [|split; [|split]].
  - intros [Hr|[Ht|Hb]].
    + destruct r; try discriminate. reflexivity.
    + destruct tol; try discriminate. by rewrite SFleb_nan_r.
    + destruct b; try discriminate.
      by rewrite SFmul_nan_r, SFleb_nan_r.
  - intros [Hr|Ht].
    + destruct r; try discriminate. reflexivity.
    + destruct tol; try discriminate. by rewrite SFleb_nan_r.
  - intros Hb Hr. destruct b as [sb|sb| |sb mb eb]; try discriminate.
    destruct tol as [st|st| |st mt et], r as [sr|sr| |sr mr er];
      try discriminate; try reflexivity;
      try (destruct sr; try discriminate; reflexivity).
  - reflexivity.
Qed.

End Criteria.
End BatchStopFacts.

(** ** The fixed coarsening kernels *)

Module FixedCoarseningFacts.
Import fixed_coarsening.

Lemma store_Some a i x a' :
  store a i x = Some a' ↔
  (0 ≤ i)%Z ∧ Z.to_nat i < length a ∧ a' = <[Z.to_nat i := x]> a.
Proof.
  unfold store.
  destruct (Z.leb_spec 0 i), (Nat.ltb_spec (Z.to_nat i) (length a)); simpl;
    split; try (intros [= <-]; done); try (intros (? & ? & ->); done);
    intros (? & ? & ?); lia.
Qed.

Lemma increasing_from_weaken i i' rows :
  i' ≤ i → increasing_from i rows → increasing_from i' rows.
Proof. destruct rows as [|r rows]; [done|]. simpl. intros ? [? ?]. split; [lia|done]. Qed.

(** The loop of [fill_coarse_indices] on strictly increasing coarse rows:
    [rest] holds the coarse rows from [idx] on, none of them below [i]. *)
Lemma coarse_indices_loop_sorted (rows : list nat) f_size :
  ∀ n i idx rest map,
    i + n = f_size → length map = f_size →
    drop idx rows = rest →
    increasing_from i rest → Forall (λ r, r < f_size) rest →
    coarse_indices_loop (Z.of_nat <$> rows) n i idx map
    = if (n =? 0) || ends_at_last_row rest f_size
      then Some (coarse_map rest idx map) else None.
Proof.
  induction n as [|n IH]; intros i idx rest map Hi Hlen Hdrop Hsort Hrange.
  { simpl. destruct rest as [|r rest]; [done|].
    apply Forall_cons_1 in Hrange as [Hr _]. destruct Hsort as [Hir _]. lia. }
  cbn [coarse_indices_loop Nat.eqb orb].
  rewrite list_lookup_fmap.
  destruct rest as [|r rest].
  { rewrite (lookup_ge_None_2 rows idx); [|by apply drop_nil_inv].
    simpl. unfold ends_at_last_row. simpl.
    destruct (Nat.eqb_spec f_size 0); [lia|done]. }
  assert (rows !! idx = Some r) as Hr.
  { pose proof (lookup_drop rows idx 0) as H.
    by rewrite Hdrop, Nat.add_0_r in H. }
  rewrite Hr. cbn [fmap option_fmap option_map mbind option_bind].
  apply Forall_cons_1 in Hrange as [Hrf Hrange].
  destruct Hsort as [Hir Hsort].
  assert (drop (idx + 1) rows = rest) as Hdrop'.
  { rewrite <- drop_drop, Hdrop. done. }
  assert (ends_at_last_row (r :: rest) f_size
          = if decide (rest = []) then r + 1 =? f_size
            else ends_at_last_row rest f_size) as Hends.
  { unfold ends_at_last_row.
    destruct (Nat.eqb_spec f_size 0); [lia|]. simpl.
    destruct rest as [|r' rest]; [done|]. by rewrite decide_False. }
  rewrite Hends.
  destruct (Z.eqb_spec (Z.of_nat i) (Z.of_nat r)) as [Heq|Hne].
  - apply Nat2Z.inj in Heq as <-.
    assert (store map (Z.of_nat i) (Z.of_nat idx)
            = Some (<[i := Z.of_nat idx]> map)) as ->.
    { apply store_Some. rewrite Nat2Z.id. split; [lia|]. split; [lia|done]. }
    cbn [mbind option_bind].
    rewrite (IH (i + 1) (idx + 1) rest); try done; try lia.
    + cbn [coarse_map].
      destruct (decide (rest = [])) as [->|Hne].
      * unfold ends_at_last_row. simpl.
        destruct (Nat.eqb_spec f_size 0); [lia|]. simpl.
        by destruct (Nat.eqb_spec n 0), (Nat.eqb_spec (i + 1) f_size);
          try lia.
      * destruct (Nat.eqb_spec n 0) as [Hn0|Hn]; [|done].
        destruct rest as [|r' rest]; [done|].
        apply Forall_cons_1 in Hrange as [Hr' _].
        destruct Hsort as [Hlt _]. lia.
    + by rewrite length_insert.
  - assert (i < r) as Hlt by lia.
    rewrite (IH (i + 1) idx (r :: rest)); try done; try lia.
    + rewrite Hends.
      destruct (Nat.eqb_spec n 0) as [Hn0|Hn]; [lia|done].
    + split; [lia|done].
    + by constructor.
Qed.


Lemma increasing_from_not_in i rows r :
  increasing_from i rows → r < i → r ∉ rows.
Proof.
  revert i. induction rows as [|r' rows IH]; intros i Hinc Hr.
  { apply not_elem_of_nil. }
  destruct Hinc as [Hir Hinc]. apply not_elem_of_cons. split; [lia|].
  apply (IH (r' + 1)); [done|lia].
Qed.

Lemma length_coarse_map rows :
  ∀ idx map, length (coarse_map rows idx map) = length map.
Proof.
  induction rows as [|r rows IH]; intros idx map; [done|].
  cbn [coarse_map]. by rewrite IH, length_insert.
Qed.

Lemma coarse_map_other rows p :
  p ∉ rows → ∀ idx map, coarse_map rows idx map !! p = map !! p.
Proof.
  induction rows as [|r rows IH]; intros Hp idx map; [done|].
  apply not_elem_of_cons in Hp as [Hne Hp].
  cbn [coarse_map]. rewrite IH by done. by rewrite list_lookup_insert_ne.
Qed.

Lemma coarse_map_row rows :
  ∀ i idx map j r,
    increasing_from i rows → Forall (λ r, r < length map) rows →
    rows !! j = Some r →
    coarse_map rows idx map !! r = Some (Z.of_nat (idx + j)).
Proof.
  induction rows as [|r0 rows IH]; intros i idx map j r Hinc Hrange Hj;
    [done|].
  destruct Hinc as [Hi Hinc].
  apply Forall_cons_1 in Hrange as [Hr0 Hrange].
  cbn [coarse_map]. destruct j as [|j].
  - injection Hj as <-.
    rewrite coarse_map_other
      by (eapply increasing_from_not_in; [done|lia]).
    rewrite Nat.add_0_r. by apply list_lookup_insert_eq.
  - simpl in Hj.
    rewrite (IH (r0 + 1) (idx + 1) _ j r); try done.
    + do 2 f_equal. lia.
    + by rewrite length_insert.
Qed.

(** The rows that the map sends to a coarse index are the coarse rows. *)
Lemma coarse_map_inv rows :
  ∀ i idx map p c,
    increasing_from i rows → Forall (λ r, r < length map) rows →
    (∀ q x, map !! q = Some x → (x < 0)%Z) →
    coarse_map rows idx map !! p = Some c → (0 ≤ c)%Z →
    ∃ j, rows !! j = Some p ∧ c = Z.of_nat (idx + j).
Proof.
  intros i idx map p c Hinc Hrange Hneg Hp Hc.
  destruct (decide (p ∈ rows)) as [Hin|Hnin].
  - apply list_elem_of_lookup in Hin as [j Hj]. exists j. split; [done|].
    rewrite (coarse_map_row rows i idx map j p) in Hp by done.
    by injection Hp.
  - rewrite coarse_map_other in Hp by done.
    apply Hneg in Hp. lia.
Qed.

(** Only thread 0 of [fill_coarse_indices] does anything. *)
Lemma run_fill_coarse_indices data c_size f_size schedule :
  NoDup schedule →
  ∀ map,
    run_kernel (fill_coarse_indices_kernel data c_size f_size) schedule map
    = if decide (0 ∈ schedule)
      then coarse_indices_loop data f_size 0 0 map else Some map.
Proof.
  induction schedule as [|t schedule IH]; intros Hnd map.
  { by rewrite decide_False by apply not_elem_of_nil. }
  pose proof (NoDup_cons_1_1 _ _ Hnd) as Hnin.
  apply NoDup_cons_1_2 in Hnd.
  cbn [run_kernel].
  destruct t as [|t].
  - change (fill_coarse_indices_kernel data c_size f_size 0 map)
      with (coarse_indices_loop data f_size 0 0 map).
    rewrite decide_True by apply list_elem_of_here.
    destruct (coarse_indices_loop data f_size 0 0 map) as [map'|]; [|done].
    cbn [mbind option_bind]. rewrite IH by done. by rewrite decide_False.
  - change (fill_coarse_indices_kernel data c_size f_size (S t) map)
      with (Some map).
    cbn [mbind option_bind]. rewrite IH by done.
    destruct (decide (0 ∈ schedule)) as [Hin|Hn0].
    + rewrite decide_True; [done|]. by apply list_elem_of_further.
    + rewrite decide_False; [done|].
      intros Hin. apply elem_of_cons in Hin as [|]; [done|done].
Qed.

Lemma schedule_of_NoDup size schedule :
  schedule_of size schedule → NoDup schedule.
Proof. intros ->. apply NoDup_seq. Qed.

Lemma schedule_of_elem size schedule t :
  schedule_of size schedule → t ∈ schedule ↔ t < size.
Proof. intros ->. rewrite elem_of_seq. lia. Qed.

(** The result of [fill_coarse_indices] under one schedule. *)
Lemma fill_coarse_indices_result (schedule : list nat) (rows : list nat)
    (coarse_row_map : list Z) :
  schedule_of (length coarse_row_map) schedule →
  increasing_from 0 rows →
  Forall (λ r, r < length coarse_row_map) rows →
  fill_coarse_indices schedule (Z.of_nat <$> rows) coarse_row_map
  = (if ends_at_last_row rows (length coarse_row_map)
     then Some (coarse_map rows 0 coarse_row_map) else None).
Proof.
  intros Hsched Hinc Hrange.
  unfold fill_coarse_indices.
  rewrite run_fill_coarse_indices by by eapply schedule_of_NoDup.
  destruct (decide (0 ∈ schedule)) as [Hin|Hnin].
  - rewrite (coarse_indices_loop_sorted rows (length coarse_row_map)
               (length coarse_row_map) 0 0 rows); try done.
    apply (schedule_of_elem _ _ _ Hsched) in Hin.
    by destruct (Nat.eqb_spec (length coarse_row_map) 0); [lia|].
  - assert (length coarse_row_map = 0) as H0.
    { destruct (length coarse_row_map) eqn:E; [done|].
      exfalso. apply Hnin, (schedule_of_elem _ _ _ Hsched). lia. }
    destruct rows as [|r rows].
    + unfold ends_at_last_row. by rewrite H0.
    + apply Forall_cons_1 in Hrange as [Hr _]. lia.
Qed.

(** X19.  [fill_coarse_indices] on strictly increasing coarse rows below
    the number of fine rows, under any schedule of its threads.  Thread 0
    reads [coarse_rows] at the index of the next coarse row on every
    iteration of its loop over the fine rows; once the last coarse row is
    passed that index is the size of [coarse_rows], so the read is
    outside the array unless the last coarse row is the last fine row, or
    there is no fine row.  In these cases the kernel completes and the
    map sends the [j]-th coarse row to [j] and leaves every other fine
    row as it was; in particular an empty [coarse_rows] with at least one
    fine row is read outside its bounds. *)
Theorem fill_coarse_indices_sorted (schedule : list nat) (rows : list nat)
    (coarse_row_map : list Z) :
  schedule_of (length coarse_row_map) schedule →
  increasing_from 0 rows →
  Forall (λ r, r < length coarse_row_map) rows →
  fill_coarse_indices schedule (Z.of_nat <$> rows) coarse_row_map
  = (if ends_at_last_row rows (length coarse_row_map)
     then Some (coarse_map rows 0 coarse_row_map) else None) ∧
  length (coarse_map rows 0 coarse_row_map) = length coarse_row_map ∧
  (∀ j r, rows !! j = Some r →
     coarse_map rows 0 coarse_row_map !! r = Some (Z.of_nat j)) ∧
  (∀ p, p ∉ rows →
     coarse_map rows 0 coarse_row_map !! p = coarse_row_map !! p).
Proof.
  intros Hsched Hinc Hrange.
  split; [by apply fill_coarse_indices_result|].
  split; [apply length_coarse_map|split].
  - intros j r Hj.
    by rewrite (coarse_map_row rows 0 0 coarse_row_map j r).
  - intros p Hp. by apply coarse_map_other.
Qed.


(** The threads of [fill_restrict_op] under a schedule without
    repetition, when the coarse indices are distinct and inside
    [restrict_col_idxs]. *)
Lemma run_fill_restrict_op (data : list Z) :
  (∀ t1 t2 c, data !! t1 = Some c → data !! t2 = Some c → (0 ≤ c)%Z →
     t1 = t2) →
  ∀ schedule col,
    NoDup schedule → (∀ t, t ∈ schedule → t < length data) →
    (∀ t c, data !! t = Some c → (0 ≤ c)%Z → Z.to_nat c < length col) →
    ∃ out,
      run_kernel (fill_restrict_op_kernel data) schedule col = Some out ∧
      length out = length col ∧
      (∀ t c, t ∈ schedule → data !! t = Some c → (0 ≤ c)%Z →
         out !! Z.to_nat c = Some (Z.of_nat t)) ∧
      (∀ p, (∀ t, t ∈ schedule → data !! t ≠ Some (Z.of_nat p)) →
         out !! p = col !! p).
Proof.
  intros Hinj.
  induction schedule as [|t schedule IH]; intros col Hnd Hlt Hrange.
  { exists col. split; [done|]. split; [done|]. split; [|done].
    intros t c Hin. by apply elem_of_nil in Hin. }
  pose proof (NoDup_cons_1_1 _ _ Hnd) as Hnin.
  apply NoDup_cons_1_2 in Hnd.
  destruct (lookup_lt_is_Some_2 data t) as [c Hc];
    [apply Hlt, list_elem_of_here|].
  cbn [run_kernel].
  assert (fill_restrict_op_kernel data t col
          = if (0 <=? c)%Z then store col c (Z.of_nat t) else Some col)
    as -> by (unfold fill_restrict_op_kernel; by rewrite Hc).
  assert (∀ t', t' ∈ schedule → t' < length data) as Hlt'
    by (intros t' Hin; by apply Hlt, list_elem_of_further).
  destruct (Z.leb_spec 0 c) as [Hpos|Hneg].
  - pose proof (Hrange t c Hc Hpos) as Hcr.
    assert (store col c (Z.of_nat t)
            = Some (<[Z.to_nat c := Z.of_nat t]> col)) as ->
      by (by apply store_Some).
    cbn [mbind option_bind].
    destruct (IH (<[Z.to_nat c := Z.of_nat t]> col) Hnd Hlt')
      as (out & Hrun & Hlen & Hset & Hother).
    { intros t' c' Hc' Hpos'. rewrite length_insert. by eapply Hrange. }
    exists out. split; [done|]. rewrite length_insert in Hlen.
    split; [done|]. split.
    + intros t' c' Hin Hc' Hpos'.
      apply elem_of_cons in Hin as [->|Hin]; [|by eapply Hset].
      rewrite Hc in Hc'. injection Hc' as <-.
      rewrite Hother.
      * by apply list_lookup_insert_eq.
      * intros t' Hin Ht'. rewrite Z2Nat.id in Ht' by done.
        assert (t' = t) as -> by (by eapply Hinj). done.
    + intros p Hp. rewrite Hother.
      * apply list_lookup_insert_ne. intros Heq.
        apply (Hp t); [apply list_elem_of_here|].
        by rewrite Hc, <- Heq, Z2Nat.id.
      * intros t' Hin. by apply Hp, list_elem_of_further.
  - destruct (IH col Hnd Hlt' Hrange) as (out & Hrun & Hlen & Hset & Hother).
    exists out. split; [done|]. split; [done|]. split.
    + intros t' c' Hin Hc' Hpos'.
      apply elem_of_cons in Hin as [->|Hin]; [|by eapply Hset].
      rewrite Hc in Hc'. injection Hc' as <-. lia.
    + intros p Hp. apply Hother. intros t' Hin.
      by apply Hp, list_elem_of_further.
Qed.

(** The result of [fill_restrict_op] under one schedule. *)
Lemma fill_restrict_op_race_free_aux (data col : list Z) schedule :
  schedule_of (length data) schedule →
  (∀ t c, data !! t = Some c → (0 ≤ c)%Z → Z.to_nat c < length col) →
  (∀ t1 t2 c, data !! t1 = Some c → data !! t2 = Some c → (0 ≤ c)%Z →
     t1 = t2) →
  ∃ out,
    run_kernel (fill_restrict_op_kernel data) schedule col = Some out ∧
    length out = length col ∧
    (∀ t c, data !! t = Some c → (0 ≤ c)%Z →
       out !! Z.to_nat c = Some (Z.of_nat t)).
Proof.
  intros Hs Hrange Hinj.
  destruct (run_fill_restrict_op data Hinj schedule col)
    as (out & Hrun & Hlen & Hset & _);
    [by eapply schedule_of_NoDup
    |intros t Hin; by apply (schedule_of_elem _ _ _ Hs)|done|].
  exists out. split; [done|]. split; [done|].
  intros t c Hc Hpos. apply Hset; try done.
  apply (schedule_of_elem _ _ _ Hs). by eapply lookup_lt_Some.
Qed.


(** X20.  [fill_restrict_op] is free of races when the coarse indices in
    [coarse_rows] that are not negative are pairwise distinct and inside
    [restrict_col_idxs]: every schedule of its threads gives the same
    column indices, in which the entry at a coarse index is the fine row
    that carries it and every other entry is as it was. *)
Theorem fill_restrict_op_race_free (schedule schedule' : list nat)
    (coarse_rows restrict_col_idxs : list Z) :
  schedule_of (length coarse_rows) schedule →
  schedule_of (length coarse_rows) schedule' →
  (∀ t c, coarse_rows !! t = Some c → (0 ≤ c)%Z →
     Z.to_nat c < length restrict_col_idxs) →
  (∀ t1 t2 c, coarse_rows !! t1 = Some c → coarse_rows !! t2 = Some c →
     (0 ≤ c)%Z → t1 = t2) →
  ∃ out,
    fill_restrict_op schedule coarse_rows restrict_col_idxs = Some out ∧
    fill_restrict_op schedule' coarse_rows restrict_col_idxs = Some out ∧
    length out = length restrict_col_idxs ∧
    (∀ t c, coarse_rows !! t = Some c → (0 ≤ c)%Z →
       out !! Z.to_nat c = Some (Z.of_nat t)) ∧
    (∀ p, Z.of_nat p ∉ coarse_rows → out !! p = restrict_col_idxs !! p).
Proof.
  intros Hs Hs' Hrange Hinj.
  destruct (run_fill_restrict_op coarse_rows Hinj schedule
              restrict_col_idxs) as (out & Hrun & Hlen & Hset & Hother);
    [by eapply schedule_of_NoDup
    |intros t Hin; by apply (schedule_of_elem _ _ _ Hs)|done|].
  destruct (run_fill_restrict_op coarse_rows Hinj schedule'
              restrict_col_idxs) as (out' & Hrun' & Hlen' & Hset' & Hother');
    [by eapply schedule_of_NoDup
    |intros t Hin; by apply (schedule_of_elem _ _ _ Hs')|done|].
  assert (∀ sch (o : list Z), schedule_of (length coarse_rows) sch →
    (∀ t c, t ∈ sch → coarse_rows !! t = Some c → (0 ≤ c)%Z →
       o !! Z.to_nat c = Some (Z.of_nat t)) →
    ∀ t c, coarse_rows !! t = Some c → (0 ≤ c)%Z →
       o !! Z.to_nat c = Some (Z.of_nat t)) as Hall.
  { intros sch o Hsch H t c Hc Hpos. apply H; try done.
    apply (schedule_of_elem _ _ _ Hsch). by eapply lookup_lt_Some. }
  assert (∀ (sch : list nat) (o : list Z),
    (∀ p, (∀ t, t ∈ sch → coarse_rows !! t ≠ Some (Z.of_nat p)) →
       o !! p = restrict_col_idxs !! p) →
    ∀ p, Z.of_nat p ∉ coarse_rows → o !! p = restrict_col_idxs !! p)
    as Hrest.
  { intros sch o H p Hp. apply H. intros t _ Ht.
    apply Hp. by eapply list_elem_of_lookup_2. }
  assert (out' = out) as ->.
  { apply list_eq. intros p.
    destruct (decide (Z.of_nat p ∈ coarse_rows)) as [Hin|Hnin].
    - apply list_elem_of_lookup in Hin as [t Ht].
      pose proof (Hall _ _ Hs Hset t _ Ht ltac:(lia)) as H1.
      pose proof (Hall _ _ Hs' Hset' t _ Ht ltac:(lia)) as H2.
      rewrite Nat2Z.id in H1, H2. congruence.
    - rewrite (Hrest _ _ Hother p Hnin), (Hrest _ _ Hother' p Hnin). done. }
  exists out. split; [done|]. split; [done|]. split; [done|].
  split; [by eapply Hall|by eapply Hrest].
Qed.

(** X21.  The two kernels are inverse to each other: from strictly
    increasing coarse rows that end at the last fine row and a map filled
    with negative values, [fill_coarse_indices] gives a map from which
    [fill_restrict_op] stores the coarse rows themselves as the column
    indices of the restriction operator, under any schedules. *)
Theorem fill_restrict_op_of_coarse_indices (schedule schedule' : list nat)
    (rows : list nat) (coarse_row_map restrict_col_idxs : list Z) :
  schedule_of (length coarse_row_map) schedule →
  schedule_of (length coarse_row_map) schedule' →
  increasing_from 0 rows →
  Forall (λ r, r < length coarse_row_map) rows →
  ends_at_last_row rows (length coarse_row_map) = true →
  Forall (λ x, (x < 0)%Z) coarse_row_map →
  length restrict_col_idxs = length rows →
  ∃ map,
    fill_coarse_indices schedule (Z.of_nat <$> rows) coarse_row_map
      = Some map ∧
    fill_restrict_op schedule' map restrict_col_idxs
      = Some (Z.of_nat <$> rows).
Proof.
  intros Hs Hs' Hinc Hrange Hends Hneg Hlen.
  pose proof (fill_coarse_indices_result schedule rows coarse_row_map Hs
                Hinc Hrange) as Hfill.
  pose proof (length_coarse_map rows 0 coarse_row_map) as Hlm.
  assert (∀ j r, rows !! j = Some r →
            coarse_map rows 0 coarse_row_map !! r = Some (Z.of_nat j))
    as Hrow.
  { intros j r Hj.
    by rewrite (coarse_map_row rows 0 0 coarse_row_map j r). }
  rewrite Hends in Hfill.
  set (map := coarse_map rows 0 coarse_row_map) in *.
  exists map. split; [done|].
  assert (∀ q x, coarse_row_map !! q = Some x → (x < 0)%Z) as Hneg'.
  { intros q x Hq. by eapply (proj1 (Forall_lookup _ _) Hneg). }
  assert (∀ p c, map !! p = Some c → (0 ≤ c)%Z →
            ∃ j, rows !! j = Some p ∧ c = Z.of_nat j) as Hinv.
  { intros p c Hp Hc.
    by apply (coarse_map_inv rows 0 0 coarse_row_map p c Hinc Hrange Hneg')
      in Hp. }
  rewrite <- Hlm in Hs'.
  destruct (fill_restrict_op_race_free_aux map restrict_col_idxs schedule')
    as (out & Hrun & Hlo & Hset); try done.
  - intros t c Ht Hc. destruct (Hinv t c Ht Hc) as (j & Hj & ->).
    rewrite Nat2Z.id, Hlen. by eapply lookup_lt_Some.
  - intros t1 t2 c H1 H2 Hc.
    destruct (Hinv t1 c H1 Hc) as (j1 & Hj1 & ->).
    destruct (Hinv t2 _ H2 Hc) as (j2 & Hj2 & Heq).
    apply Nat2Z.inj in Heq as <-. congruence.
  - unfold fill_restrict_op. rewrite Hrun. f_equal.
    apply list_eq. intros j. rewrite list_lookup_fmap.
    destruct (rows !! j) as [r|] eqn:Hj.
    + pose proof (Hset r (Z.of_nat j) (Hrow j r Hj) ltac:(lia)) as H.
      by rewrite Nat2Z.id in H.
    + apply lookup_ge_None_2. apply lookup_ge_None_1 in Hj. lia.
Qed.

End FixedCoarseningFacts.

(** ** The kernels on concrete arrays *)

Module KernelExamples.
Import fixed_coarsening batch_stop.

(** X19, at concrete inputs: four fine rows; the coarse rows 0, 2, 3 end
    at the last fine row, the coarse rows 0, 2 do not. *)
Lemma fill_coarse_indices_sorted_witness :
  fill_coarse_indices [0; 1; 2; 3] [0; 2; 3]%Z [-1; -1; -1; -1]%Z
    = Some [0; -1; 1; 2]%Z ∧
  fill_coarse_indices [0; 1; 2; 3] [0; 2]%Z [-1; -1; -1; -1]%Z = None.
Proof.
  split.
  - exact (proj1 (FixedCoarseningFacts.fill_coarse_indices_sorted
      [0; 1; 2; 3] [0; 2; 3] [-1; -1; -1; -1]%Z
      ltac:(unfold schedule_of; reflexivity) ltac:(simpl; lia)
      ltac:(repeat constructor; simpl; lia))).
  - exact (proj1 (FixedCoarseningFacts.fill_coarse_indices_sorted
      [0; 1; 2; 3] [0; 2] [-1; -1; -1; -1]%Z
      ltac:(unfold schedule_of; reflexivity) ltac:(simpl; lia)
      ltac:(repeat constructor; simpl; lia))).
Defined.

Lemma example_map_range (t : nat) (c : Z) :
  [0; -1; 1; 2]%Z !! t = Some c → (0 ≤ c)%Z → Z.to_nat c < 3.
Proof.
  destruct t as [|[|[|[|t]]]]; simpl; intros H Hc; simplify_eq; lia.
Qed.

Lemma example_map_injective (t1 t2 : nat) (c : Z) :
  [0; -1; 1; 2]%Z !! t1 = Some c → [0; -1; 1; 2]%Z !! t2 = Some c →
  (0 ≤ c)%Z → t1 = t2.
Proof.
  destruct t1 as [|[|[|[|t1]]]], t2 as [|[|[|[|t2]]]]; simpl;
    intros H1 H2 Hc; simplify_eq; try done; lia.
Qed.

(** X20, at a concrete input: the map of the coarse rows 0, 2, 3 under
    the ascending and the descending schedule. *)
Lemma fill_restrict_op_race_free_witness :
  ∃ out,
    fill_restrict_op [0; 1; 2; 3] [0; -1; 1; 2]%Z [9; 9; 9]%Z = Some out ∧
    fill_restrict_op [3; 2; 1; 0] [0; -1; 1; 2]%Z [9; 9; 9]%Z = Some out ∧
    length out = 3 ∧
    (∀ t c, [0; -1; 1; 2]%Z !! t = Some c → (0 ≤ c)%Z →
       out !! Z.to_nat c = Some (Z.of_nat t)) ∧
    (∀ p, Z.of_nat p ∉ [0; -1; 1; 2]%Z → out !! p = [9; 9; 9]%Z !! p).
Proof.
  apply (FixedCoarseningFacts.fill_restrict_op_race_free [0; 1; 2; 3]
    [3; 2; 1; 0] [0; -1; 1; 2]%Z [9; 9; 9]%Z).
  - unfold schedule_of; reflexivity.
  - exact (reverse_Permutation [0; 1; 2; 3]).
  - exact example_map_range.
  - exact example_map_injective.
Defined.

(** X21, at a concrete input: the coarse rows 0, 2, 3 of four fine
    rows. *)
Lemma fill_restrict_op_of_coarse_indices_witness :
  ∃ map,
    fill_coarse_indices [0; 1; 2; 3] [0; 2; 3]%Z [-1; -1; -1; -1]%Z
      = Some map ∧
    fill_restrict_op [3; 2; 1; 0] map [9; 9; 9]%Z = Some [0; 2; 3]%Z.
Proof.
  apply (FixedCoarseningFacts.fill_restrict_op_of_coarse_indices
    [0; 1; 2; 3] [3; 2; 1; 0] [0; 2; 3] [-1; -1; -1; -1]%Z [9; 9; 9]%Z).
  - unfold schedule_of; reflexivity.
  - exact (reverse_Permutation [0; 1; 2; 3]).
  - simpl; lia.
  - repeat constructor; simpl; lia.
  - reflexivity.
  - repeat constructor; lia.
  - reflexivity.
Defined.

(** X18, at a concrete input: a NaN residual norm with the tolerance and
    the norm of the right-hand side both 1. *)
Lemma check_converged_nan_and_zero_witness :
  let one := S754_finite false 4503599627370496 (-52) in
  SimpleRelResidual_check_converged 53 1024
    (SimpleRelResidual_new one [one]) [S754_nan] = Some false.
Proof.
  intros one.
  exact (proj1 (BatchStopFacts.check_converged_nan_and_zero 53 1024 one
    S754_nan one [] [] []) (or_introl eq_refl)).
Defined.

End KernelExamples.
